(** * Oil Synth: the voice engine and the loop engine

  A shallow embedding of [src/audio/synthesizer.js] (class [Synthesizer])
  and of the loop controller (class [LoopController]), followed by the
  properties of the specification that concern them.

  Conventions of the embedding.
  - JavaScript numbers are exact rationals ([Q]); IEEE rounding is not
    modelled.  [NaN] and [undefined] are [None].
  - [audioContext.currentTime] is an explicit argument [now].
  - An [AudioParam] is represented by the value last assigned to it or last
    scheduled with [setTargetAtTime]; an audio node that has not been
    created yet ([null]) is [None].
  - Voice objects live in a store ([heap]); [this.voices] holds references
    into it, so that [stopVoice] on a handle is seen through every alias.

  The second half of the development covers the code around the two
  engines: the effect curves of the synthesizer, the knob widget, the loop
  buttons, the performance optimizer, the touch state of the oil surface
  and the touch path of the application ([TouchHandler] and the handlers
  of [main.js]).  Values handed to callbacks and events dispatched are
  kept as lists in the state of the component that emits them. *)

From Stdlib Require Import ZArith QArith Qround Qminmax Qabs Qreals.
From Stdlib Require Import Reals Rpower Lia Psatz.
From stdpp Require Import base list gmap strings.

(** ** JavaScript numerics *)

Module JS.

Definition Qltb (a b : Q) : bool :=
  (Qnum a * QDen b <? Qnum b * QDen a)%Z.

Definition Math_floor (q : Q) : Z := Qfloor q.
Definition Math_ceil (q : Q) : Z := Qceiling q.
Definition Math_abs (q : Q) : Q := Qabs q.
Definition Math_max (a b : Q) : Q := if Qltb a b then b else a.
Definition Math_min (a b : Q) : Q := if Qltb b a then b else a.

(** Truncation towards zero, as used by the [%] operator. *)
Definition trunc (q : Q) : Z := if Qltb q 0 then Qceiling q else Qfloor q.

(** [a % b] on numbers: the remainder has the sign of the dividend. *)
Definition fmod (a b : Q) : Q := (a - b * inject_Z (trunc (a / b)))%Q.

(** [a % b] on integral numbers; [NaN] when [b] is zero. *)
Definition imod (a b : Z) : option Z :=
  if (b =? 0)%Z then None else Some (Z.rem a b).

(** [arr[i]] for an integral number [i]: [undefined] out of range. *)
Definition index {A} (arr : list A) (i : Z) : option A :=
  if (i <? 0)%Z then None else arr !! Z.to_nat i.

(** [arr.slice(start)]. *)
Definition slice {A} (arr : list A) (start : Z) : list A :=
  let len := Z.of_nat (length arr) in
  let k := if (start <? 0)%Z then Z.max (len + start) 0 else Z.min start len in
  drop (Z.to_nat k) arr.

(** [arr.findIndex(p)]; [None] stands for [-1]. *)
Fixpoint findIndex {A} (p : A -> bool) (arr : list A) : option nat :=
  match arr with
  | [] => None
  | a :: rest => if p a then Some O else S <$> findIndex p rest
  end.

(** [arr[i] = v] for [i <= arr.length]: overwrite, or extend by one. *)
Definition assign {A} (arr : list A) (i : nat) (v : A) : list A :=
  if (i <? length arr)%nat then <[i := v]> arr else arr ++ [v].

End JS.

(** ** The synthesizer *)

Module Synth.
Import JS.
Local Open Scope Q_scope.

Record Settings := mkSettings {
  settings_maxVoices : option Z;
  settings_bufferSize : option Q
}.

(** The part of a voice object that the engine reads back. *)
Record Voice := mkVoice {
  playing : bool;
  frequency : option R;
  voice_x : Q;
  voice_y : Q;
  voiceGain : Q;
  filterFrequency : Q;
  filterQ : Q;
  startTime : Q
}.

(** The shared effect nodes, each with the one parameter the engine drives. *)
Record EffectNodes := mkEffectNodes {
  distortion : option Q;      (* amount of the wave-shaper curve *)
  distortionWet : option Q;   (* gain *)
  distortionDry : option Q;   (* gain *)
  delay : option Q;           (* delayTime, seconds *)
  delayGain : option Q;       (* gain *)
  delayFeedback : option Q;   (* gain *)
  chorusGain : option Q;      (* gain *)
  chorusDepth : option Q;     (* gain *)
  reverbGain : option Q       (* gain *)
}.

Record Synthesizer := mkSynthesizer {
  isInitialized : bool;
  maxVoices : Z;
  settings : Settings;
  heap : list Voice;
  voices : list nat;
  params : gmap string Q;
  nodes : EffectNodes
}.

Definition with_voices (vs : list nat) (s : Synthesizer) : Synthesizer :=
  mkSynthesizer (isInitialized s) (maxVoices s) (settings s) (heap s) vs
                (params s) (nodes s).
Definition with_heap (h : list Voice) (s : Synthesizer) : Synthesizer :=
  mkSynthesizer (isInitialized s) (maxVoices s) (settings s) h (voices s)
                (params s) (nodes s).
Definition with_maxVoices (m : Z) (s : Synthesizer) : Synthesizer :=
  mkSynthesizer (isInitialized s) m (settings s) (heap s) (voices s)
                (params s) (nodes s).
Definition with_params (p : gmap string Q) (s : Synthesizer) : Synthesizer :=
  mkSynthesizer (isInitialized s) (maxVoices s) (settings s) (heap s)
                (voices s) p (nodes s).
Definition with_nodes (n : EffectNodes) (s : Synthesizer) : Synthesizer :=
  mkSynthesizer (isInitialized s) (maxVoices s) (settings s) (heap s)
                (voices s) (params s) n.

Definition no_nodes : EffectNodes :=
  mkEffectNodes None None None None None None None None None.

(** [constructor(settings)]: [settings.maxVoices || 5]. *)
Definition new (st : Settings) : Synthesizer :=
  {| isInitialized := false;
     maxVoices := match settings_maxVoices st with
                  | Some m => if (m =? 0)%Z then 5%Z else m
                  | None => 5%Z
                  end;
     settings := st;
     heap := [];
     voices := [];
     params := <["grime" := 3#10]> (<["flow" := 2#10]> (<["shimmer" := 15#100]>
               (<["depth" := 25#100]> (<["octave" := 45#100]> ∅))));
     nodes := no_nodes |}.

(** [setupAudioChain()]: the initial values of the effect nodes. *)
Definition setupAudioChain (s : Synthesizer) : Synthesizer :=
  with_nodes
    {| distortion := Some 50;
       distortionWet := Some (3#10);
       distortionDry := Some (7#10);
       delay := Some (match settings_bufferSize (settings s) with
                      | Some b => if Qeq_bool b 0 then 2#10 else b / 1000
                      | None => 2#10
                      end);
       delayGain := Some (3#10);
       delayFeedback := Some (4#10);
       chorusGain := Some (5#10);
       chorusDepth := Some (5#1000);
       reverbGain := Some (2#10) |} s.

(** [initialize()].  [contextOk = false] is [new AudioContext()] throwing,
    which the [catch] swallows. *)
Definition initialize (contextOk : bool) (s : Synthesizer) : Synthesizer :=
  if isInitialized s then s
  else if contextOk
       then let s' := setupAudioChain s in
            mkSynthesizer true (maxVoices s') (settings s') (heap s') (voices s')
                          (params s') (nodes s')
       else s.

(** *** Scale mapper: [positionToFrequency] *)

Definition pentatonicIntervals : list Q := [0; 2; 4; 7; 9].
Definition octaveSteps : list Q := [0; 2#10; 35#100; 5#10; 65#100; 8#10; 1].
Definition octaveRanges : list Q := [-2; -1; -(5#10); 0; 5#10; 1; 2].

(** The body of [for (let i = 1; i < octaveSteps.length; i++)], running
    over the steps that remain, with the loop variables as arguments. *)
Fixpoint closestLoop (octave : Q) (steps : list Q) (i : nat)
         (minDistance : Q) (closestIndex : nat) : nat :=
  match steps with
  | [] => closestIndex
  | step :: rest =>
      let distance := Math_abs (octave - step) in
      if Qltb distance minDistance
      then closestLoop octave rest (S i) distance i
      else closestLoop octave rest (S i) minDistance closestIndex
  end.

(** "Find closest octave step" for a numeric octave parameter. *)
Definition closestIndexOf (octave : Q) : nat :=
  match octaveSteps with
  | [] => O
  | step0 :: rest => closestLoop octave rest 1 (Math_abs (octave - step0)) O
  end.

(** With [params.octave] undefined every distance is [NaN], no comparison
    succeeds and the index stays 0. *)
Definition closestIndex (octave : option Q) : nat :=
  match octave with
  | Some o => closestIndexOf o
  | None => O
  end.

(** [semitonesFromC0]; [None] is [NaN]. *)
Definition semitonesFromC0 (octaveParam : option Q) (x y : Q) : option Q :=
  octaveOffset ← octaveRanges !! closestIndex octaveParam;
  let baseOctave := 2 + octaveOffset in
  let octave := inject_Z (Math_floor (y * 2)) + baseOctave in
  let scaleIndex := Math_floor (x * inject_Z (Z.of_nat (length pentatonicIntervals))) in
  interval ← index pentatonicIntervals scaleIndex;
  Some (interval + octave * 12).

Definition c0Freq : Q := 1635 # 100.

(** [c0Freq * Math.pow(2, semitones / 12)], over the reals. *)
Definition hertz (semitones : Q) : R :=
  (Q2R c0Freq * Rpower 2 (Q2R semitones / 12))%R.

Definition positionToFrequency (s : Synthesizer) (x y : Q) : option R :=
  hertz <$> semitonesFromC0 (params s !! "octave") x y.

(** The scale mapper as a function of its three inputs. *)
Definition frequencyOf (x y octaveParam : Q) : option R :=
  hertz <$> semitonesFromC0 (Some octaveParam) x y.

(** *** Voice pool *)

(** [createVoice(frequency, intensity, x, y)]. *)
Definition createVoice (f : option R) (intensity x y now : Q) : Voice :=
  {| playing := true;
     frequency := f;
     voice_x := x;
     voice_y := y;
     voiceGain := intensity * (8#10);
     filterFrequency := 800 + y * 4000;
     filterQ := 1 + y * 3;
     startTime := now |}.

Definition released (v : Voice) : Voice :=
  mkVoice false (frequency v) (voice_x v) (voice_y v) (voiceGain v)
          (filterFrequency v) (filterQ v) (startTime v).

(** [stopVoice(voice)]: [voice] is a reference, or [undefined]. *)
Definition stopVoice (voice : option nat) (s : Synthesizer) : Synthesizer :=
  match voice with
  | None => s
  | Some ref =>
      match heap s !! ref with
      | Some v =>
          if playing v then with_heap (<[ref := released v]> (heap s)) s
          else s
      | None => s
      end
  end.

(** The predicate of [findIndex]: [!voice || !voice.playing]. *)
Definition isFree (h : list Voice) (ref : nat) : bool :=
  match h !! ref with
  | Some v => negb (playing v)
  | None => true
  end.

(** [startVoice(x, y, intensity)]: the handle returned ([None] is [null])
    and the state afterwards. *)
Definition startVoice (x y intensity now : Q) (s : Synthesizer)
  : option nat * Synthesizer :=
  if negb (isInitialized s) then (None, s)
  else
    let '(voiceIndex, s1) :=
      match findIndex (isFree (heap s)) (voices s) with
      | Some i => (i, s)
      | None =>
          if (Z.of_nat (length (voices s)) <? maxVoices s)%Z
          then (length (voices s), s)
          else (O, stopVoice (voices s !! O) s)
      end in
    let f := positionToFrequency s1 x y in
    let voice := createVoice f intensity x y now in
    let ref := length (heap s1) in
    (Some ref,
     with_voices (assign (voices s1) voiceIndex ref)
                 (with_heap (heap s1 ++ [voice]) s1)).

(** [stopAllVoices()]. *)
Definition stopAllVoices (s : Synthesizer) : Synthesizer :=
  with_voices [] (foldl (fun st ref => stopVoice (Some ref) st) s (voices s)).

(** [setComplexity(complexity)]. *)
Definition setComplexity (complexity : Q) (s : Synthesizer) : Synthesizer :=
  let oldMaxVoices := maxVoices s in
  let s1 := with_maxVoices (Math_ceil (5 * complexity)) s in
  if (maxVoices s1 <? oldMaxVoices)%Z
  then
    let excessVoices := slice (voices s1) (maxVoices s1) in
    foldl (fun st ref => stopVoice (Some ref) st) s1 excessVoices
  else s1.

(** *** Parameters *)

Definition setGrime (value : Q) (n : EffectNodes) : EffectNodes :=
  match distortion n, distortionWet n, distortionDry n with
  | Some _, Some _, Some _ =>
      mkEffectNodes (Some (20 + value * 200)) (Some value) (Some (1 - value))
                    (delay n) (delayGain n) (delayFeedback n)
                    (chorusGain n) (chorusDepth n) (reverbGain n)
  | _, _, _ => n
  end.

Definition setFlow (value : Q) (n : EffectNodes) : EffectNodes :=
  match delay n, delayGain n, delayFeedback n with
  | Some _, Some _, Some _ =>
      let delayTime := (5#100) + value * (45#100) in
      let delayLevel := value * (8#10) in
      let feedback := value * (85#100) in
      mkEffectNodes (distortion n) (distortionWet n) (distortionDry n)
                    (Some delayTime) (Some delayLevel) (Some feedback)
                    (chorusGain n) (chorusDepth n) (reverbGain n)
  | _, _, _ => n
  end.

Definition setShimmer (value : Q) (n : EffectNodes) : EffectNodes :=
  match chorusGain n, chorusDepth n with
  | Some _, Some _ =>
      let chorusLevel := value * (8#10) in
      let chorusDepth' := value * (1#100) in
      mkEffectNodes (distortion n) (distortionWet n) (distortionDry n)
                    (delay n) (delayGain n) (delayFeedback n)
                    (Some chorusLevel) (Some chorusDepth') (reverbGain n)
  | _, _ => n
  end.

Definition setDepth (value : Q) (n : EffectNodes) : EffectNodes :=
  match reverbGain n with
  | Some _ =>
      let reverbLevel := value * (5#10) in
      mkEffectNodes (distortion n) (distortionWet n) (distortionDry n)
                    (delay n) (delayGain n) (delayFeedback n)
                    (chorusGain n) (chorusDepth n) (Some reverbLevel)
  | None => n
  end.

(** [setParameter(param, value)]; the [octave] case only logs. *)
Definition setParameter (param : string) (value : Q) (s : Synthesizer)
  : Synthesizer :=
  let s1 := with_params (<[param := Math_max 0 (Math_min 1 value)]> (params s)) s in
  if decide (param = "grime") then with_nodes (setGrime value (nodes s1)) s1
  else if decide (param = "flow") then with_nodes (setFlow value (nodes s1)) s1
  else if decide (param = "shimmer") then with_nodes (setShimmer value (nodes s1)) s1
  else if decide (param = "depth") then with_nodes (setDepth value (nodes s1)) s1
  else s1.

(** [getParameter(param)]; [None] is [undefined]. *)
Definition getParameter (param : string) (s : Synthesizer) : option Q :=
  params s !! param.

(** [updateVoicePosition(voice, x, y)]. *)
Definition updateVoicePosition (ref : nat) (x y : Q) (s : Synthesizer)
  : Synthesizer :=
  match heap s !! ref with
  | Some v =>
      if playing v
      then
        let f := positionToFrequency s x y in
        with_heap (<[ref := mkVoice (playing v) f x y (voiceGain v)
                                    (800 + y * 4000) (filterQ v) (startTime v)]>
                     (heap s)) s
      else s
  | None => s
  end.

(** *** Sequences of calls *)

Inductive Op :=
| OpInitialize (contextOk : bool)
| OpStartVoice (x y intensity now : Q)
| OpStopVoice (ref : nat)
| OpUpdateVoicePosition (ref : nat) (x y : Q)
| OpSetParameter (param : string) (value : Q)
| OpSetComplexity (complexity : Q)
| OpStopAllVoices.

Definition run (op : Op) (s : Synthesizer) : Synthesizer :=
  match op with
  | OpInitialize contextOk => initialize contextOk s
  | OpStartVoice x y intensity now => snd (startVoice x y intensity now s)
  | OpStopVoice ref => stopVoice (Some ref) s
  | OpUpdateVoicePosition ref x y => updateVoicePosition ref x y s
  | OpSetParameter param value => setParameter param value s
  | OpSetComplexity c => setComplexity c s
  | OpStopAllVoices => stopAllVoices s
  end.

Definition runAll (ops : list Op) (s : Synthesizer) : Synthesizer :=
  foldl (fun st op => run op st) s ops.

(** The states a synthesizer can be in. *)
Inductive reachable : Synthesizer -> Prop :=
| reachable_new st : reachable (new st)
| reachable_run op s : reachable s -> reachable (run op s).

(** *** Observations *)

(** The voice behind a reference is playing. *)
Definition isPlaying (s : Synthesizer) (ref : nat) : bool :=
  negb (isFree (heap s) ref).

(** The number of pool slots whose voice is playing. *)
Definition playingCount (s : Synthesizer) : nat :=
  length (filter (fun ref => isPlaying s ref = true) (voices s)).

(** The references in the pool are distinct and point into the store. *)
Definition wellFormed (s : Synthesizer) : Prop :=
  NoDup (voices s) /\
  Forall (fun ref => (ref < length (heap s))%nat) (voices s).



(** The three ways in which an initialized engine places a new voice. *)
Inductive Placement (s : Synthesizer) (new : nat) (s' : Synthesizer) : Prop :=
| PlaceFree i r :
    findIndex (isFree (heap s)) (voices s) = Some i ->
    voices s !! i = Some r -> isPlaying s r = false ->
    (forall j q, (j < i)%nat -> voices s !! j = Some q -> isPlaying s q = true) ->
    voices s' = <[i := new]> (voices s) ->
    (forall ref, (ref < new)%nat -> isPlaying s' ref = isPlaying s ref) ->
    Placement s new s'
| PlaceGrow :
    findIndex (isFree (heap s)) (voices s) = None ->
    (Z.of_nat (length (voices s)) < maxVoices s)%Z ->
    voices s' = voices s ++ [new] ->
    (forall ref, (ref < new)%nat -> isPlaying s' ref = isPlaying s ref) ->
    Placement s new s'
| PlaceSteal r0 rest :
    findIndex (isFree (heap s)) (voices s) = None ->
    (maxVoices s <= Z.of_nat (length (voices s)))%Z ->
    voices s = r0 :: rest ->
    voices s' = new :: rest ->
    isPlaying s r0 = true -> isPlaying s' r0 = false ->
    (forall ref, (ref < new)%nat -> ref <> r0 ->
                 isPlaying s' ref = isPlaying s ref) ->
    Placement s new s'
| PlaceEmpty :
    voices s = [] -> (maxVoices s <= 0)%Z ->
    voices s' = [new] ->
    (forall ref, (ref < new)%nat -> isPlaying s' ref = isPlaying s ref) ->
    Placement s new s'.

End Synth.

(** ** The loop controller *)

Module Loop.
Import JS.
Local Open Scope Q_scope.

(** An [AudioBuffer] is its channels, each a list of samples. *)
Abbreviation AudioBuffer := (list (list Q)).

Definition numberOfChannels (b : AudioBuffer) : Z := Z.of_nat (length b).

(** [audioContext.createBuffer(numberOfChannels, length, sampleRate)]: a
    silent buffer; the call throws ([None]) unless all three are positive. *)
Definition createBuffer (channels len : Z) (rate : Q) : option AudioBuffer :=
  if ((channels <? 1)%Z || (len <? 1)%Z || negb (Qltb 0 rate))%bool then None
  else Some (replicate (Z.to_nat channels) (replicate (Z.to_nat len) 0)).

(** *** Overdub mixing *)

(** [for (let i = 0; i < Math.min(originalData.length, targetSamples); i++)
    mixedData[i] = originalData[i]], with [count] iterations left. *)
Fixpoint copyLoop (count i : nat) (originalData mixedData : list Q) : list Q :=
  match count with
  | O => mixedData
  | S count' =>
      copyLoop count' (S i) originalData
               (match originalData !! i with
                | Some v => <[i := v]> mixedData
                | None => mixedData
                end)
  end.

(** One iteration of the overdub loop at target index [targetIndex]
    ([None] is [NaN]).  Reading outside the typed array gives [undefined]
    and writing there is ignored, so nothing changes. *)
Definition mixSample (targetIndex : option Z) (sample : Q) (mixedData : list Q)
  : list Q :=
  match targetIndex with
  | None => mixedData
  | Some t =>
      match index mixedData t with
      | None => mixedData
      | Some previous =>
          let overdubSample := sample * (6#10) in
          <[Z.to_nat t := Math_max (-1) (Math_min 1 (previous + overdubSample))]>
            mixedData
      end
  end.

(** [for (let i = 0; i < overdubData.length; i++)] over the samples that
    remain, [i] being the index of the first of them. *)
Fixpoint overdubLoop (overdubStartSample : option Z) (targetSamples : Z) (i : Z)
         (overdubData mixedData : list Q) : list Q :=
  match overdubData with
  | [] => mixedData
  | sample :: rest =>
      let targetIndex :=
        start ← overdubStartSample; imod (start + i) targetSamples in
      overdubLoop overdubStartSample targetSamples (i + 1) rest
                  (mixSample targetIndex sample mixedData)
  end.

(** The body of [for (let channel = 0; ...)]. *)
Definition mixChannel (originalBuffer overdubBuffer : AudioBuffer)
           (overdubStartSample : option Z) (targetSamples : Z)
           (channel : nat) (mixedData : list Q) : list Q :=
  let copied :=
    match originalBuffer !! channel with
    | Some originalData =>
        copyLoop (Nat.min (length originalData) (Z.to_nat targetSamples)) O
                 originalData mixedData
    | None => mixedData
    end in
  match overdubBuffer !! channel with
  | Some overdubData =>
      overdubLoop overdubStartSample targetSamples 0 overdubData copied
  | None => copied
  end.

Definition targetSamplesOf (loopDuration sampleRate : Q) : Z :=
  Math_floor (loopDuration * sampleRate).

Definition overdubStartSampleOf (overdubStartTime : option Q)
           (playStartTime loopDuration sampleRate : Q) : option Z :=
  t ← overdubStartTime;
  let overdubStartInLoop := fmod (t - playStartTime) loopDuration in
  Some (Math_floor (overdubStartInLoop * sampleRate)).

(** The mixing part of [processOverdubRecording]; [None] when
    [createBuffer] throws. *)
Definition mixOverdub (loopDuration sampleRate : Q) (overdubStartTime : option Q)
           (playStartTime : Q) (originalBuffer overdubBuffer : AudioBuffer)
  : option AudioBuffer :=
  let targetSamples := targetSamplesOf loopDuration sampleRate in
  mixedBuffer ← createBuffer
                  (Z.max (numberOfChannels originalBuffer)
                         (numberOfChannels overdubBuffer))
                  targetSamples sampleRate;
  let overdubStartSample :=
    overdubStartSampleOf overdubStartTime playStartTime loopDuration sampleRate in
  Some (imap (mixChannel originalBuffer overdubBuffer overdubStartSample
                         targetSamples) mixedBuffer).

(** *** State *)

Inductive OnStop := ProcessRecording | ProcessOverdubRecording.

(** A [MediaRecorder]: its [onstop] handler and whether its state is
    ['recording']. *)
Record MediaRecorder := mkMediaRecorder {
  onstop : OnStop;
  recording : bool
}.

Record LoopController := mkLoopController {
  isInitialized : bool;
  isRecording : bool;
  isPlaying : bool;
  recordedBuffer : option AudioBuffer;
  loopDuration : Q;
  recordStartTime : Q;
  playStartTime : Q;
  playbackSource : option Q;
  mediaRecorder : option MediaRecorder;
  recordedChunks : list N;
  outputGain : option Q;
  volume : Q;
  maxLoopDuration : Q;
  overdubStartTime : option Q;
  recordDestination : bool;
  overdubDestination : bool;
  sampleRate : Q
}.

Definition set_isInitialized (v : bool) (s : LoopController) : LoopController :=
  mkLoopController v (isRecording s) (isPlaying s) (recordedBuffer s)
    (loopDuration s) (recordStartTime s) (playStartTime s)
    (playbackSource s) (mediaRecorder s) (recordedChunks s) (outputGain s)
    (volume s) (maxLoopDuration s) (overdubStartTime s)
    (recordDestination s) (overdubDestination s) (sampleRate s).
Definition set_isRecording (v : bool) (s : LoopController) : LoopController :=
  mkLoopController (isInitialized s) v (isPlaying s) (recordedBuffer s)
    (loopDuration s) (recordStartTime s) (playStartTime s)
    (playbackSource s) (mediaRecorder s) (recordedChunks s) (outputGain s)
    (volume s) (maxLoopDuration s) (overdubStartTime s)
    (recordDestination s) (overdubDestination s) (sampleRate s).
Definition set_isPlaying (v : bool) (s : LoopController) : LoopController :=
  mkLoopController (isInitialized s) (isRecording s) v (recordedBuffer s)
    (loopDuration s) (recordStartTime s) (playStartTime s)
    (playbackSource s) (mediaRecorder s) (recordedChunks s) (outputGain s)
    (volume s) (maxLoopDuration s) (overdubStartTime s)
    (recordDestination s) (overdubDestination s) (sampleRate s).
Definition set_recordedBuffer (v : option AudioBuffer) (s : LoopController) : LoopController :=
  mkLoopController (isInitialized s) (isRecording s) (isPlaying s) v
    (loopDuration s) (recordStartTime s) (playStartTime s)
    (playbackSource s) (mediaRecorder s) (recordedChunks s) (outputGain s)
    (volume s) (maxLoopDuration s) (overdubStartTime s)
    (recordDestination s) (overdubDestination s) (sampleRate s).
Definition set_loopDuration (v : Q) (s : LoopController) : LoopController :=
  mkLoopController (isInitialized s) (isRecording s) (isPlaying s)
    (recordedBuffer s) v (recordStartTime s) (playStartTime s)
    (playbackSource s) (mediaRecorder s) (recordedChunks s) (outputGain s)
    (volume s) (maxLoopDuration s) (overdubStartTime s)
    (recordDestination s) (overdubDestination s) (sampleRate s).
Definition set_recordStartTime (v : Q) (s : LoopController) : LoopController :=
  mkLoopController (isInitialized s) (isRecording s) (isPlaying s)
    (recordedBuffer s) (loopDuration s) v (playStartTime s)
    (playbackSource s) (mediaRecorder s) (recordedChunks s) (outputGain s)
    (volume s) (maxLoopDuration s) (overdubStartTime s)
    (recordDestination s) (overdubDestination s) (sampleRate s).
Definition set_playStartTime (v : Q) (s : LoopController) : LoopController :=
  mkLoopController (isInitialized s) (isRecording s) (isPlaying s)
    (recordedBuffer s) (loopDuration s) (recordStartTime s) v
    (playbackSource s) (mediaRecorder s) (recordedChunks s) (outputGain s)
    (volume s) (maxLoopDuration s) (overdubStartTime s)
    (recordDestination s) (overdubDestination s) (sampleRate s).
Definition set_playbackSource (v : option Q) (s : LoopController) : LoopController :=
  mkLoopController (isInitialized s) (isRecording s) (isPlaying s)
    (recordedBuffer s) (loopDuration s) (recordStartTime s)
    (playStartTime s) v (mediaRecorder s) (recordedChunks s) (outputGain s)
    (volume s) (maxLoopDuration s) (overdubStartTime s)
    (recordDestination s) (overdubDestination s) (sampleRate s).
Definition set_mediaRecorder (v : option MediaRecorder) (s : LoopController) : LoopController :=
  mkLoopController (isInitialized s) (isRecording s) (isPlaying s)
    (recordedBuffer s) (loopDuration s) (recordStartTime s)
    (playStartTime s) (playbackSource s) v (recordedChunks s) (outputGain s)
    (volume s) (maxLoopDuration s) (overdubStartTime s)
    (recordDestination s) (overdubDestination s) (sampleRate s).
Definition set_recordedChunks (v : list N) (s : LoopController) : LoopController :=
  mkLoopController (isInitialized s) (isRecording s) (isPlaying s)
    (recordedBuffer s) (loopDuration s) (recordStartTime s)
    (playStartTime s) (playbackSource s) (mediaRecorder s) v (outputGain s)
    (volume s) (maxLoopDuration s) (overdubStartTime s)
    (recordDestination s) (overdubDestination s) (sampleRate s).
Definition set_outputGain (v : option Q) (s : LoopController) : LoopController :=
  mkLoopController (isInitialized s) (isRecording s) (isPlaying s)
    (recordedBuffer s) (loopDuration s) (recordStartTime s)
    (playStartTime s) (playbackSource s) (mediaRecorder s)
    (recordedChunks s) v (volume s) (maxLoopDuration s) (overdubStartTime s)
    (recordDestination s) (overdubDestination s) (sampleRate s).
Definition set_volume (v : Q) (s : LoopController) : LoopController :=
  mkLoopController (isInitialized s) (isRecording s) (isPlaying s)
    (recordedBuffer s) (loopDuration s) (recordStartTime s)
    (playStartTime s) (playbackSource s) (mediaRecorder s)
    (recordedChunks s) (outputGain s) v (maxLoopDuration s)
    (overdubStartTime s) (recordDestination s) (overdubDestination s)
    (sampleRate s).
Definition set_overdubStartTime (v : option Q) (s : LoopController) : LoopController :=
  mkLoopController (isInitialized s) (isRecording s) (isPlaying s)
    (recordedBuffer s) (loopDuration s) (recordStartTime s)
    (playStartTime s) (playbackSource s) (mediaRecorder s)
    (recordedChunks s) (outputGain s) (volume s) (maxLoopDuration s) v
    (recordDestination s) (overdubDestination s) (sampleRate s).
Definition set_recordDestination (v : bool) (s : LoopController) : LoopController :=
  mkLoopController (isInitialized s) (isRecording s) (isPlaying s)
    (recordedBuffer s) (loopDuration s) (recordStartTime s)
    (playStartTime s) (playbackSource s) (mediaRecorder s)
    (recordedChunks s) (outputGain s) (volume s) (maxLoopDuration s)
    (overdubStartTime s) v (overdubDestination s) (sampleRate s).
Definition set_overdubDestination (v : bool) (s : LoopController) : LoopController :=
  mkLoopController (isInitialized s) (isRecording s) (isPlaying s)
    (recordedBuffer s) (loopDuration s) (recordStartTime s)
    (playStartTime s) (playbackSource s) (mediaRecorder s)
    (recordedChunks s) (outputGain s) (volume s) (maxLoopDuration s)
    (overdubStartTime s) (recordDestination s) v (sampleRate s).

(** [constructor(synthesizer)], for an audio context of the given rate. *)
Definition new (rate : Q) : LoopController :=
  {| isInitialized := false; isRecording := false; isPlaying := false;
     recordedBuffer := None; loopDuration := 0; recordStartTime := 0;
     playStartTime := 0; playbackSource := None; mediaRecorder := None;
     recordedChunks := []; outputGain := None; volume := 8#10;
     maxLoopDuration := 30; overdubStartTime := None;
     recordDestination := false; overdubDestination := false;
     sampleRate := rate |}.

(** [initialize()]; [synthReady] is [this.synthesizer.isInitialized]. *)
Definition initialize (synthReady : bool) (s : LoopController) : LoopController :=
  if (isInitialized s || negb synthReady)%bool then s
  else set_isInitialized true (set_outputGain (Some (volume s)) s).

(** *** Playback *)

(** [startPlaybackAtPosition(position)].  [start(0, startOffset)] throws a
    [RangeError] for a negative offset; the [catch] then returns [false]
    with the new source node already stored. *)
Definition startPlaybackAtPosition (position now : Q) (s : LoopController)
  : bool * LoopController :=
  match recordedBuffer s with
  | None => (false, s)
  | Some _ =>
      if isPlaying s then (false, s)
      else
        let startOffset := position * loopDuration s in
        let s1 := set_playbackSource (Some startOffset) s in
        if Qltb startOffset 0 then (false, s1)
        else (true, set_playStartTime (now - startOffset) (set_isPlaying true s1))
  end.

Definition startPlayback (now : Q) (s : LoopController) : bool * LoopController :=
  startPlaybackAtPosition 0 now s.

Definition stopPlayback (s : LoopController) : bool * LoopController :=
  match isPlaying s, playbackSource s with
  | true, Some _ => (true, set_isPlaying false (set_playbackSource None s))
  | _, _ => (false, s)
  end.

Definition togglePlayback (now : Q) (s : LoopController) : bool * LoopController :=
  if isPlaying s then stopPlayback s
  else match recordedBuffer s with
       | Some _ => startPlayback now s
       | None => (false, s)
       end.

Definition setVolume (v : Q) (s : LoopController) : LoopController :=
  let s1 := set_volume (Math_max 0 (Math_min 1 v)) s in
  match outputGain s1 with
  | Some _ => set_outputGain (Some (volume s1)) s1
  | None => s1
  end.

Definition getPlaybackPosition (now : Q) (s : LoopController) : Q :=
  if (negb (isPlaying s) || Qeq_bool (loopDuration s) 0)%bool then 0
  else
    let elapsed := fmod (now - playStartTime s) (loopDuration s) in
    elapsed / loopDuration s.

(** *** Recording *)

(** [mediaRecorder.stop()] when its state is ['recording']. *)
Definition stopRecorder (s : LoopController) : LoopController :=
  match mediaRecorder s with
  | Some r =>
      if recording r
      then set_mediaRecorder (Some (mkMediaRecorder (onstop r) false)) s
      else s
  | None => s
  end.

(** [startRecording()].  [captureOk = false] is [new MediaRecorder(...)]
    throwing, which the [catch] turns into [false]. *)
Definition startRecording (now : Q) (captureOk : bool) (s : LoopController)
  : bool * LoopController :=
  if negb (isInitialized s) then (false, s)
  else
    let isOverdub := isPlaying s in
    if isOverdub then
      (* startOverdubRecording *)
      let s1 := set_recordedChunks [] (set_overdubDestination true s) in
      if negb captureOk then (false, s1)
      else
        let s2 := set_overdubStartTime (Some now)
                    (set_mediaRecorder
                       (Some (mkMediaRecorder ProcessOverdubRecording true)) s1) in
        (true, set_recordStartTime now (set_isRecording true s2))
    else
      (* startNewRecording *)
      let s1 := set_recordedChunks [] (set_recordDestination true s) in
      if negb captureOk then (false, s1)
      else
        let s2 := set_mediaRecorder
                    (Some (mkMediaRecorder ProcessRecording true)) s1 in
        (true, set_recordStartTime now (set_isRecording true s2)).

(** [mediaRecorder.ondataavailable] for a chunk of [size] bytes. *)
Definition dataAvailable (size : N) (s : LoopController) : LoopController :=
  if (0 <? size)%N then set_recordedChunks (recordedChunks s ++ [size]) s else s.

(** [stopRecording()]. *)
Definition stopRecording (now : Q) (s : LoopController) : bool * LoopController :=
  if negb (isRecording s) then (false, s)
  else
    let s1 := stopRecorder (set_isRecording false s) in
    match recordedBuffer s1 with
    | None =>
        let d0 := now - recordStartTime s1 in
        let d1 := if Qltb d0 (1#10) then 1#10 else d0 in
        let d2 := if Qltb (maxLoopDuration s1) d1 then maxLoopDuration s1 else d1 in
        (true, set_loopDuration d2 s1)
    | Some _ => (true, s1)
    end.

(** [processRecording()] from the first [await] on; [decoded = None] is
    [decodeAudioData] rejecting. *)
Definition processRecordingDone (decoded : option AudioBuffer) (now : Q)
           (s : LoopController) : LoopController :=
  match decoded with
  | None => s
  | Some b => snd (startPlayback now (set_recordedBuffer (Some b) s))
  end.


(** [processOverdubRecording()] up to the first [await]: the values it
    keeps in local variables ([currentPosition], [originalBuffer]) and the
    state; [None] when it returns at once. *)
Definition processOverdubBegin (now : Q) (s : LoopController)
  : option (Q * option AudioBuffer) * LoopController :=
  match recordedChunks s with
  | [] => (None, s)
  | _ :: _ =>
      let currentPosition := getPlaybackPosition now s in
      let s1 := snd (stopPlayback s) in
      (Some (currentPosition, recordedBuffer s1), s1)
  end.

(** [processOverdubRecording()] after the decoding.  Reading
    [numberOfChannels] of a [null] buffer, a rejected decoding and a
    throwing [createBuffer] all end in the [catch]: state unchanged. *)
Definition processOverdubDone (currentPosition : Q)
           (originalBuffer decoded : option AudioBuffer) (now : Q)
           (s : LoopController) : LoopController :=
  match originalBuffer, decoded with
  | Some original, Some overdub =>
      match mixOverdub (loopDuration s) (sampleRate s) (overdubStartTime s)
                       (playStartTime s) original overdub with
      | Some mixedBuffer =>
          snd (startPlaybackAtPosition currentPosition now
                 (set_recordedBuffer (Some mixedBuffer) s))
      | None => s
      end
  | _, _ => s
  end.


(** [clear()]. *)
Definition clear (now : Q) (s : LoopController) : bool * LoopController :=
  let s1 := if isRecording s then snd (stopRecording now s) else s in
  let s2 := if isPlaying s1 then snd (stopPlayback s1) else s1 in
  let s3 := set_recordedChunks [] (set_loopDuration 0 (set_recordedBuffer None s2)) in
  let s4 := match mediaRecorder s3 with
            | Some _ => set_mediaRecorder None (stopRecorder s3)
            | None => s3
            end in
  let s5 := if recordDestination s4 then set_recordDestination false s4 else s4 in
  let s6 := if overdubDestination s5 then set_overdubDestination false s5 else s5 in
  (true, s6).

Record State := mkState {
  st_isRecording : bool;
  st_isPlaying : bool;
  st_hasLoop : bool;
  st_duration : Q;
  st_volume : Q
}.

(** [getState()]. *)
Definition getState (s : LoopController) : State :=
  {| st_isRecording := isRecording s;
     st_isPlaying := isPlaying s;
     st_hasLoop := match recordedBuffer s with Some _ => true | None => false end;
     st_duration := loopDuration s;
     st_volume := volume s |}.

(** *** Sequences of operations *)

(** The calls of the public interface and the asynchronous continuations
    that the media recorder sets off.  The continuations carry the values
    their local variables hold, so every interleaving of a continuation
    with other calls is a sequence of operations. *)
Inductive Op :=
| OpInitialize (synthReady : bool)
| OpStartRecording (now : Q) (captureOk : bool)
| OpStopRecording (now : Q)
| OpDataAvailable (size : N)
| OpProcessRecordingDone (decoded : option AudioBuffer) (now : Q)
| OpProcessOverdubBegin (now : Q)
| OpProcessOverdubDone (currentPosition : Q)
                       (originalBuffer decoded : option AudioBuffer) (now : Q)
| OpTogglePlayback (now : Q)
| OpSetVolume (v : Q)
| OpClear (now : Q).

Definition run (op : Op) (s : LoopController) : LoopController :=
  match op with
  | OpInitialize r => initialize r s
  | OpStartRecording now ok => snd (startRecording now ok s)
  | OpStopRecording now => snd (stopRecording now s)
  | OpDataAvailable size => dataAvailable size s
  | OpProcessRecordingDone d now => processRecordingDone d now s
  | OpProcessOverdubBegin now => snd (processOverdubBegin now s)
  | OpProcessOverdubDone p o d now => processOverdubDone p o d now s
  | OpTogglePlayback now => snd (togglePlayback now s)
  | OpSetVolume v => setVolume v s
  | OpClear now => snd (clear now s)
  end.

Definition runAll (ops : list Op) (s : LoopController) : LoopController :=
  foldl (fun st op => run op st) s ops.

(** The states a loop controller can be in. *)
Inductive reachable : LoopController -> Prop :=
| reachable_new rate : reachable (new rate)
| reachable_run op s : reachable s -> reachable (run op s).

(** What every reachable state satisfies: playback has a source node and a
    buffer; a recorder set up for an overdub has a loop to dub over; the
    maximal duration is the one the constructor sets. *)
Definition invariant (s : LoopController) : Prop :=
  (isPlaying s = true ->
   is_Some (playbackSource s) /\ is_Some (recordedBuffer s)) /\
  (forall st, mediaRecorder s = Some (mkMediaRecorder ProcessOverdubRecording st) ->
              is_Some (recordedBuffer s)) /\
  maxLoopDuration s = 30.

(** The recording in progress is an overdub: the current recorder runs
    [processOverdubRecording] when it stops. *)
Definition isOverdubRecording (s : LoopController) : bool :=
  (isRecording s &&
   match mediaRecorder s with
   | Some (mkMediaRecorder ProcessOverdubRecording _) => true
   | _ => false
   end)%bool.

End Loop.

(** ** The specification's vocabulary *)

Module Spec.
Import JS.
Local Open Scope Q_scope.

(** [clamp(lo, hi, v)]. *)
Definition clamp (lo hi v : Q) : Q :=
  if Qltb v hi then (if Qltb lo v then v else lo) else hi.


(** The mathematical [a mod b] on numbers. *)
Definition qmod (a b : Q) : Q := a - b * inject_Z (Qfloor (a / b)).

(** The semitone offsets of the seven octave anchors. *)
Definition semitoneOffsets : list Z := [-24; -12; -6; 0; 6; 12; 24]%Z.


(** Semitones above C0 for pitch class [k], octave band [b] and anchor
    offset [off]. *)
Definition semitonesOf (interval band off : Z) : Z :=
  (interval + 12 * (band + 2) + off)%Z.

(** The 5 x 2 x 7 combinations of pitch class, band and anchor. *)
Definition combinations : list Z :=
  interval ← [0; 2; 4; 7; 9]%Z;
  band ← [0; 1]%Z;
  off ← semitoneOffsets;
  [semitonesOf interval band off].

Definition hertzZ (semitones : Z) : R := Synth.hertz (inject_Z semitones).

(** One input [(x, y, octaveParam)] for each combination, in the order of
    [combinations]. *)
Definition grid : list (Q * Q * Q) :=
  x ← [0; 1#5; 2#5; 3#5; 4#5];
  y ← [0; 1#2];
  octaveParam ← Synth.octaveSteps;
  [(x, y, octaveParam)].

(** The input lies in the domain and is mapped to [z] semitones. *)
Definition reaches (input : Q * Q * Q) (z : Z) : Prop :=
  let '(x, y, octaveParam) := input in
  (0 <= x < 1 /\ 0 <= y < 1 /\ 0 <= octaveParam <= 1) /\
  exists s,
    Synth.semitonesFromC0 (Some octaveParam) x y = Some s /\ s == inject_Z z.


(** The effect values a parameter value [v] stands for, row by row of the
    mapping table; the delay time is in seconds, as the delay node has it. *)
Definition derived (name : string) (v : Q) : list Q :=
  if decide (name = "grime") then [20 + 200 * v; v; 1 - v]
  else if decide (name = "flow")
       then [(50 + 450 * v) * (1#1000); (8#10) * v; (85#100) * v]
  else if decide (name = "shimmer") then [(8#10) * v; (1#100) * v]
  else if decide (name = "depth") then [(5#10) * v]
  else [].

(** The effect values in force, in the same order. *)
Definition applied (name : string) (n : Synth.EffectNodes) : list (option Q) :=
  if decide (name = "grime")
  then [Synth.distortion n; Synth.distortionWet n; Synth.distortionDry n]
  else if decide (name = "flow")
       then [Synth.delay n; Synth.delayGain n; Synth.delayFeedback n]
  else if decide (name = "shimmer")
       then [Synth.chorusGain n; Synth.chorusDepth n]
  else if decide (name = "depth") then [Synth.reverbGain n]
  else [].


Definition differs (o : option Q) (q : Q) : Prop :=
  exists value, o = Some value /\ ~ value == q.

(** "Copy the existing loop into the result": the first [n] samples,
    silence after them. *)
Definition copied (n : nat) (data : list Q) : list Q :=
  take n data ++ replicate (n - length data) 0.




End Spec.

(** ** Sample states *)

Module Examples.
Import Synth.
Local Open Scope Q_scope.

Definition touch (now : Q) : Op := OpStartVoice (1#2) (1#2) 1 now.

(** An initialized engine with default settings. *)
Definition ready : Synthesizer := initialize true (new (mkSettings None None)).

(** Five touches held down: the pool is full. *)
Definition fullPool : Synthesizer :=
  runAll [touch 0; touch 1; touch 2; touch 3; touch 4] ready.

(** The device is slowed down to three voices, ... *)
Definition shrunk : Synthesizer := setComplexity (3#5) fullPool.

(** ... a sixth touch arrives, and the complexity is set once more. *)
Definition refilled : Synthesizer :=
  setComplexity (3#5) (snd (startVoice (1#2) (1#2) 1 5 shrunk)).

(** A loop controller at 44.1 kHz, initialized, recording since [t = 2]. *)
Definition recordingNew : Loop.LoopController :=
  Loop.runAll [Loop.OpInitialize true; Loop.OpStartRecording 2 true]
              (Loop.new 44100).

(** A loop of one second and one channel is playing and an overdub has been
    recording since [t = 10]. *)
Definition recordingOverdub : Loop.LoopController :=
  Loop.runAll [Loop.OpInitialize true;
               Loop.OpStartRecording 2 true;
               Loop.OpDataAvailable 4096;
               Loop.OpStopRecording 3;
               Loop.OpProcessRecordingDone (Some [replicate (Z.to_nat 44100) 0]) 4;
               Loop.OpStartRecording 10 true]
              (Loop.new 44100).

End Examples.

(** ** The effect curves: [makeDistortionCurve], [createReverbImpulse] *)

Module Curve.

(** The number of points of the wave-shaper curve. *)
Definition samples : nat := Z.to_nat 44100.

Definition deg : R := (PI / 180)%R.

(** [curve[i]] of [makeDistortionCurve(amount)], over the reals. *)
Definition curveAt (amount : R) (i : nat) : R :=
  (let x := (INR i * 2) / INR samples - 1 in
   ((3 + amount) * x * 20 * deg) / (PI + amount * Rabs x))%R.

Definition makeDistortionCurve (amount : R) : list R :=
  curveAt amount <$> seq 0 samples.

(** The two halves of [curveAt]: the abscissa of index [i], and the curve
    as a function of the abscissa. *)
Definition position (i : nat) : R := ((INR i * 2) / INR samples - 1)%R.

Definition shape (amount x : R) : R :=
  (((3 + amount) * x * 20 * deg) / (PI + amount * Rabs x))%R.

(** The inner loop of [createReverbImpulse] for one channel, from index [i]
    on; [randoms] are the successive results of [Math.random()]. *)
Fixpoint impulseLoop (length : Q) (i : nat) (randoms : list Q) : list Q :=
  match randoms with
  | [] => []
  | random :: rest =>
      let decay := ((1 - inject_Z (Z.of_nat i) / length) ^ 2)%Q in
      ((random * 2 - 1) * decay)%Q :: impulseLoop length (S i) rest
  end.

(** The channel data [createReverbImpulse] writes for an integral sample
    rate: [length = sampleRate * 2] samples, one random draw each. *)
Definition impulseChannel (sampleRate : Z) (randoms : list Q) : list Q :=
  let length := (sampleRate * 2)%Z in
  impulseLoop (inject_Z length) O (take (Z.to_nat length) randoms).

End Curve.

(** ** The knob widget ([controls/knob-control.js]) *)

Module Knob.
Import JS.
Local Open Scope Q_scope.

Record Options := mkOptions {
  min : Q;
  max : Q;
  step : Q;
  initialValue : Q;
  sensitivity : Q;
  snapToCenter : bool
}.

(** The defaults of the constructor. *)
Definition defaults : Options :=
  {| min := 0; max := 1; step := 1#100; initialValue := 5#10;
     sensitivity := 5#1000; snapToCenter := false |}.

(** The state of a knob; [notified] lists the values handed to the
    [onChange] callbacks, oldest first. *)
Record KnobControl := mkKnobControl {
  options : Options;
  value : Q;
  isDragging : bool;
  startY : Q;
  startValue : Q;
  rotation : Q;
  notified : list Q
}.

(** [Math.round]: the nearest integer, halves upwards. *)
Definition Math_round (q : Q) : Z := Qfloor (q + (1#2)).

Definition valueToRotation (o : Options) (v : Q) : Q :=
  let normalizedValue := (v - min o) / (max o - min o) in
  -135 + normalizedValue * 270.

Definition new (o : Options) : KnobControl :=
  {| options := o; value := initialValue o; isDragging := false;
     startY := 0; startValue := 0;
     rotation := valueToRotation o (initialValue o); notified := [] |}.

(** The value [setValue] settles on: clamped, then moved to the step grid. *)
Definition steppedValueOf (o : Options) (v : Q) : Q :=
  let clampedValue := Math_max (min o) (Math_min (max o) v) in
  if Qltb 0 (step o)
  then
    let steps := Math_round ((clampedValue - min o) / step o) in
    min o + inject_Z steps * step o
  else clampedValue.

(** [setValue(value, notify)]. *)
Definition setValue (v : Q) (notify : bool) (k : KnobControl) : KnobControl :=
  let steppedValue := steppedValueOf (options k) v in
  if Qeq_bool steppedValue (value k) then k
  else
    mkKnobControl (options k) steppedValue (isDragging k) (startY k)
                  (startValue k) (valueToRotation (options k) steppedValue)
                  (if notify then notified k ++ [steppedValue] else notified k).

Definition getValue (k : KnobControl) : Q := value k.

Definition startDrag (clientY : Q) (k : KnobControl) : KnobControl :=
  mkKnobControl (options k) (value k) true clientY (value k) (rotation k)
                (notified k).

Definition updateFromDrag (clientY : Q) (k : KnobControl) : KnobControl :=
  let deltaY := startY k - clientY in
  let deltaValue := deltaY * sensitivity (options k) in
  let newValue := startValue k + deltaValue in
  setValue newValue true k.

Definition endDrag (k : KnobControl) : KnobControl :=
  let k1 := mkKnobControl (options k) (value k) false (startY k) (startValue k)
                          (rotation k) (notified k) in
  if snapToCenter (options k1)
  then
    let center := (min (options k1) + max (options k1)) / 2 in
    let snapThreshold := (max (options k1) - min (options k1)) * (5#100) in
    if Qltb (Math_abs (value k1 - center)) snapThreshold
    then setValue center true k1
    else k1
  else k1.

(** [onMouseMove] / [onTouchMove] and [onMouseUp] / [onTouchEnd]. *)
Definition onMove (clientY : Q) (k : KnobControl) : KnobControl :=
  if isDragging k then updateFromDrag clientY k else k.

Definition onUp (k : KnobControl) : KnobControl :=
  if isDragging k then endDrag k else k.

(** [increment(steps)]: [this.options.step || (max - min) / 100]. *)
Definition increment (steps : Q) (k : KnobControl) : KnobControl :=
  let o := options k in
  let stepSize := if Qeq_bool (step o) 0 then (max o - min o) / 100 else step o in
  setValue (value k + stepSize * steps) true k.

Definition decrement (steps : Q) (k : KnobControl) : KnobControl :=
  increment (- steps) k.

(** [reset()] and [onDoubleClick]. *)
Definition reset (k : KnobControl) : KnobControl :=
  setValue (initialValue (options k)) true k.

(** What a user does to a knob. *)
Inductive Op :=
| OpStartDrag (clientY : Q)
| OpMove (clientY : Q)
| OpUp
| OpSetValue (v : Q) (notify : bool)
| OpIncrement (steps : Q)
| OpDecrement (steps : Q)
| OpReset.

Definition run (op : Op) (k : KnobControl) : KnobControl :=
  match op with
  | OpStartDrag clientY => startDrag clientY k
  | OpMove clientY => onMove clientY k
  | OpUp => onUp k
  | OpSetValue v notify => setValue v notify k
  | OpIncrement steps => increment steps k
  | OpDecrement steps => decrement steps k
  | OpReset => reset k
  end.

Inductive reachable (o : Options) : KnobControl -> Prop :=
| reachable_new : reachable o (new o)
| reachable_run op k : reachable o k -> reachable o (run op k).

(** The step grid divides the range: [max = min + n * step]. *)
Definition gridFits (o : Options) (n : Z) : Prop :=
  0 < step o /\ (0 <= n)%Z /\ max o == min o + inject_Z n * step o.

(** [v] is the grid point of index [j]. *)
Definition onGrid (o : Options) (n : Z) (v : Q) : Prop :=
  exists j : Z, (0 <= j <= n)%Z /\ v == min o + inject_Z j * step o.

(** The options [main.js] gives to each of the five knobs. *)
Definition parameterOptions (initial : Q) : Options :=
  {| min := 0; max := 1; step := 1#100; initialValue := initial;
     sensitivity := 5#1000; snapToCenter := false |}.

End Knob.

(** ** The performance optimizer *)

Module Optimizer.
Import JS.
Local Open Scope Q_scope.

(** The state; [dispatched] lists the details of the [performance-optimize]
    events, oldest first, as pairs (visual quality, audio complexity). *)
Record PerformanceOptimizer := mkPerformanceOptimizer {
  isLowEndDevice : bool;
  audioLatency : Q;
  frameDropThreshold : Z;
  droppedFrames : Z;
  lastFrameTime : Q;
  targetFPS : Q;
  minFPS : Q;
  visualQuality : Q;
  audioComplexity : Q;
  dispatched : list (Q * Q)
}.

(** [detectLowEndDevice()], from what the browser reports: the device
    memory and core count ([None]: not reported), and the three tests. *)
Definition detectLowEndDevice (deviceMemory hardwareConcurrency : option Q)
           (slowConnection mobile canvasTest : bool) : bool :=
  let truthyBelow4 (o : option Q) :=
    match o with
    | Some v => if Qeq_bool v 0 then false else Qltb v 4
    | None => false
    end in
  let indicators := [truthyBelow4 deviceMemory; truthyBelow4 hardwareConcurrency;
                     slowConnection; mobile; canvasTest] in
  (2 <=? length (filter (fun b => b = true) indicators))%nat.

(** [measureAudioLatency()]; the arguments say whether the user agent
    string includes ['chrome'], ['firefox'], ['safari']. *)
Definition measureAudioLatency (lowEnd chrome firefox safari : bool) : Q :=
  if chrome then (if lowEnd then 64 else 32)
  else if firefox then (if lowEnd then 128 else 64)
  else if safari then (if lowEnd then 128 else 64)
  else (if lowEnd then 256 else 128).

Definition new (lowEnd chrome firefox safari : bool) : PerformanceOptimizer :=
  {| isLowEndDevice := lowEnd;
     audioLatency := measureAudioLatency lowEnd chrome firefox safari;
     frameDropThreshold := 5; droppedFrames := 0; lastFrameTime := 0;
     targetFPS := 60; minFPS := 30;
     visualQuality := if lowEnd then 5#10 else 1;
     audioComplexity := if lowEnd then 5#10 else 1;
     dispatched := [] |}.

(** [getOptimalAudioSettings()], as far as the synthesizer reads it. *)
Definition getOptimalAudioSettings (p : PerformanceOptimizer) : Synth.Settings :=
  Synth.mkSettings (Some (if isLowEndDevice p then 3 else 5)%Z)
                   (Some (audioLatency p)).

Definition optimizeForPerformance (p : PerformanceOptimizer) : PerformanceOptimizer :=
  let v := Math_max (25#100) (visualQuality p * (8#10)) in
  let a := Math_max (25#100) (audioComplexity p * (9#10)) in
  mkPerformanceOptimizer (isLowEndDevice p) (audioLatency p)
                         (frameDropThreshold p) (droppedFrames p)
                         (lastFrameTime p) (targetFPS p) (minFPS p) v a
                         (dispatched p ++ [(v, a)]).

Definition with_droppedFrames (d : Z) (p : PerformanceOptimizer) : PerformanceOptimizer :=
  mkPerformanceOptimizer (isLowEndDevice p) (audioLatency p)
                         (frameDropThreshold p) d (lastFrameTime p)
                         (targetFPS p) (minFPS p) (visualQuality p)
                         (audioComplexity p) (dispatched p).

Definition with_lastFrameTime (t : Q) (p : PerformanceOptimizer) : PerformanceOptimizer :=
  mkPerformanceOptimizer (isLowEndDevice p) (audioLatency p)
                         (frameDropThreshold p) (droppedFrames p) t
                         (targetFPS p) (minFPS p) (visualQuality p)
                         (audioComplexity p) (dispatched p).

(** [monitorFrame()] at time [now] ([performance.now()]). *)
Definition monitorFrame (now : Q) (p : PerformanceOptimizer) : PerformanceOptimizer :=
  let p1 :=
    if Qltb 0 (lastFrameTime p)
    then
      let frameDelta := now - lastFrameTime p in
      let expectedDelta := 1000 / targetFPS p in
      if Qltb (expectedDelta * (15#10)) frameDelta
      then
        let p2 := with_droppedFrames (droppedFrames p + 1) p in
        if (frameDropThreshold p2 <=? droppedFrames p2)%Z
        then with_droppedFrames 0 (optimizeForPerformance p2)
        else p2
      else with_droppedFrames (Z.max 0 (droppedFrames p - 1)) p
    else p in
  with_lastFrameTime now p1.

(** [handleBatteryChange(battery)]; a [dischargingTime] of [None] is
    [Infinity]. *)
Definition handleBatteryChange (level : Q) (dischargingTime : option Q)
           (p : PerformanceOptimizer) : PerformanceOptimizer :=
  let soon := match dischargingTime with
              | Some t => Qltb t 3600
              | None => false
              end in
  if (Qltb level (2#10) || soon)%bool
  then mkPerformanceOptimizer (isLowEndDevice p) (audioLatency p)
                              (frameDropThreshold p) (droppedFrames p)
                              (lastFrameTime p) 30 (minFPS p)
                              (visualQuality p * (7#10))
                              (audioComplexity p * (8#10)) (dispatched p)
  else p.

(** [getAdaptiveQuality(currentFPS)]. *)
Definition getAdaptiveQuality (currentFPS : Q) (p : PerformanceOptimizer) : Q :=
  if Qle_bool (targetFPS p * (9#10)) currentFPS
  then Math_min 1 (visualQuality p * (11#10))
  else if Qltb currentFPS (minFPS p)
       then Math_max (25#100) (visualQuality p * (9#10))
       else visualQuality p.

Inductive Op :=
| OpMonitorFrame (now : Q)
| OpOptimizeForPerformance
| OpHandleBatteryChange (level : Q) (dischargingTime : option Q).

Definition run (op : Op) (p : PerformanceOptimizer) : PerformanceOptimizer :=
  match op with
  | OpMonitorFrame now => monitorFrame now p
  | OpOptimizeForPerformance => optimizeForPerformance p
  | OpHandleBatteryChange level t => handleBatteryChange level t p
  end.

Inductive reachable : PerformanceOptimizer -> Prop :=
| reachable_new lowEnd chrome firefox safari :
    reachable (new lowEnd chrome firefox safari)
| reachable_run op p : reachable p -> reachable (run op p).

End Optimizer.

(** ** The touch state of the oil surface *)

Module Surface.
Import JS.
Local Open Scope Q_scope.

(** A touch identifier: the number of a finger, or ['mouse']. *)
Abbreviation TouchId := (Z + unit)%type.

Record Touch := mkTouch {
  touch_x : Q;
  touch_y : Q;
  touch_intensity : Q;
  touch_startTime : Q
}.

Record OilSurface := mkOilSurface {
  touches : gmap TouchId Touch;
  touchHistory : list Touch;   (* x, y, intensity and time of each touch *)
  quality : Q;
  isRevealed : bool;
  revealCenter : Q * Q;
  revealStartTime : Q;
  revealDuration : Q;
  time : Q
}.

(** [constructor(canvas, settings)] when WebGL is there:
    [settings.shaderComplexity || 1.0]. *)
Definition new (shaderComplexity : option Q) : OilSurface :=
  {| touches := ∅; touchHistory := [];
     quality := match shaderComplexity with
                | Some q => if Qeq_bool q 0 then 1 else q
                | None => 1
                end;
     isRevealed := false; revealCenter := (5#10, 5#10);
     revealStartTime := 0; revealDuration := 4; time := 0 |}.

(** [addTouch(id, x, y, intensity)]; [width] and [height] are those of the
    canvas rectangle. *)
Definition addTouch (id : TouchId) (x y intensity width height : Q)
           (s : OilSurface) : OilSurface :=
  let normalizedX := x / width in
  let normalizedY := 1 - y / height in
  let revealed := isRevealed s in
  let history :=
    touchHistory s ++ [mkTouch normalizedX normalizedY intensity (time s)] in
  mkOilSurface
    (<[id := mkTouch normalizedX normalizedY intensity (time s)]> (touches s))
    (if (50 <? length history)%nat then drop 1 history else history)
    (quality s)
    true
    (if revealed then revealCenter s else (normalizedX, normalizedY))
    (if revealed then revealStartTime s else time s)
    (revealDuration s) (time s).

(** [updateTouch(id, x, y, intensity)]. *)
Definition updateTouch (id : TouchId) (x y intensity width height : Q)
           (s : OilSurface) : OilSurface :=
  match touches s !! id with
  | Some touch =>
      mkOilSurface
        (<[id := mkTouch (x / width) (1 - y / height) intensity
                         (touch_startTime touch)]> (touches s))
        (touchHistory s) (quality s) (isRevealed s) (revealCenter s)
        (revealStartTime s) (revealDuration s) (time s)
  | None => s
  end.

Definition removeTouch (id : TouchId) (s : OilSurface) : OilSurface :=
  mkOilSurface (delete id (touches s)) (touchHistory s) (quality s)
               (isRevealed s) (revealCenter s) (revealStartTime s)
               (revealDuration s) (time s).

(** The animation frame: [this.time = timestamp * 0.001]. *)
Definition animate (timestamp : Q) (s : OilSurface) : OilSurface :=
  mkOilSurface (touches s) (touchHistory s) (quality s) (isRevealed s)
               (revealCenter s) (revealStartTime s) (revealDuration s)
               (timestamp * (1#1000)).

Definition setQuality (q : Q) (s : OilSurface) : OilSurface :=
  mkOilSurface (touches s) (touchHistory s)
               (Math_max (1#10) (Math_min 1 q)) (isRevealed s)
               (revealCenter s) (revealStartTime s) (revealDuration s) (time s).

(** [destroy()]. *)
Definition destroy (s : OilSurface) : OilSurface :=
  mkOilSurface ∅ [] (quality s) (isRevealed s) (revealCenter s)
               (revealStartTime s) (revealDuration s) (time s).



Inductive Op :=
| OpAddTouch (id : TouchId) (x y intensity width height : Q)
| OpUpdateTouch (id : TouchId) (x y intensity width height : Q)
| OpRemoveTouch (id : TouchId)
| OpAnimate (timestamp : Q)
| OpSetQuality (q : Q).

Definition run (op : Op) (s : OilSurface) : OilSurface :=
  match op with
  | OpAddTouch id x y i w h => addTouch id x y i w h s
  | OpUpdateTouch id x y i w h => updateTouch id x y i w h s
  | OpRemoveTouch id => removeTouch id s
  | OpAnimate t => animate t s
  | OpSetQuality q => setQuality q s
  end.

Definition runAll (ops : list Op) (s : OilSurface) : OilSurface :=
  foldl (fun st op => run op st) s ops.

Inductive reachable : OilSurface -> Prop :=
| reachable_new c : reachable (new c)
| reachable_run op s : reachable s -> reachable (run op s).

End Surface.

(** ** The loop buttons and the loop volume knob ([controls/loop-controls.js]) *)

Module Controls.
Import JS.
Local Open Scope Q_scope.

(** The controls with the controller they drive; [strokeDashoffset] is the
    offset last given to the progress ring ([None]: never set). *)
Record LoopControls := mkLoopControls {
  loopController : Loop.LoopController;
  isDraggingVolume : bool;
  volumeStartY : Q;
  volumeStartValue : Q;
  volumeRotation : Q;
  strokeDashoffset : option Q
}.

Definition new (c : Loop.LoopController) : LoopControls :=
  {| loopController := c; isDraggingVolume := false; volumeStartY := 0;
     volumeStartValue := 0; volumeRotation := 0; strokeDashoffset := None |}.

Definition with_loopController (c : Loop.LoopController) (u : LoopControls)
  : LoopControls :=
  mkLoopControls c (isDraggingVolume u) (volumeStartY u) (volumeStartValue u)
                 (volumeRotation u) (strokeDashoffset u).

(** [updateVolumeKnob(volume)]. *)
Definition updateVolumeKnob (volume : Q) (u : LoopControls) : LoopControls :=
  mkLoopControls (loopController u) (isDraggingVolume u) (volumeStartY u)
                 (volumeStartValue u) ((volume - (5#10)) * 270)
                 (strokeDashoffset u).

Definition circumference : Q := 11310 # 100.

(** The offset [updateProgressCircle(position)] computes. *)
Definition progressOffset (position : Q) : Q :=
  let normalizedPosition := fmod position 1 in
  circumference - normalizedPosition * circumference.

Definition updateProgressCircle (position : Q) (u : LoopControls) : LoopControls :=
  mkLoopControls (loopController u) (isDraggingVolume u) (volumeStartY u)
                 (volumeStartValue u) (volumeRotation u)
                 (Some (progressOffset position)).

(** [updateUI()] at audio time [now]. *)
Definition updateUI (now : Q) (u : LoopControls) : LoopControls :=
  let state := Loop.getState (loopController u) in
  let u1 :=
    if (Loop.st_isPlaying state && Loop.st_hasLoop state)%bool
    then updateProgressCircle
           (Loop.getPlaybackPosition now (loopController u)) u
    else u in
  updateVolumeKnob (Loop.st_volume state) u1.

(** [handleRecord()]. *)
Definition handleRecord (now : Q) (captureOk : bool) (u : LoopControls)
  : LoopControls :=
  let state := Loop.getState (loopController u) in
  let c :=
    if Loop.st_isRecording state
    then snd (Loop.stopRecording now (loopController u))
    else snd (Loop.startRecording now captureOk (loopController u)) in
  updateUI now (with_loopController c u).

Definition handlePlayPause (now : Q) (u : LoopControls) : LoopControls :=
  let state := Loop.getState (loopController u) in
  if negb (Loop.st_hasLoop state) then u
  else
    updateUI now
      (with_loopController (snd (Loop.togglePlayback now (loopController u))) u).

Definition handleClear (now : Q) (u : LoopControls) : LoopControls :=
  updateUI now (with_loopController (snd (Loop.clear now (loopController u))) u).

Definition startVolumeInteraction (clientY : Q) (u : LoopControls) : LoopControls :=
  mkLoopControls (loopController u) true clientY
                 (Loop.volume (loopController u)) (volumeRotation u)
                 (strokeDashoffset u).

Definition handleVolumeMove (clientY : Q) (u : LoopControls) : LoopControls :=
  if negb (isDraggingVolume u) then u
  else
    let deltaY := volumeStartY u - clientY in
    let sensitivity := 5#1000 in
    let newValue :=
      Math_max 0 (Math_min 1 (volumeStartValue u + deltaY * sensitivity)) in
    updateVolumeKnob newValue
      (with_loopController (Loop.setVolume newValue (loopController u)) u).

Definition endVolumeInteraction (u : LoopControls) : LoopControls :=
  mkLoopControls (loopController u) false (volumeStartY u) (volumeStartValue u)
                 (volumeRotation u) (strokeDashoffset u).

(** What happens to the controls: the user's gestures, the animation frame,
    and whatever happens to the controller behind them. *)
Inductive Op :=
| OpHandleRecord (now : Q) (captureOk : bool)
| OpHandlePlayPause (now : Q)
| OpHandleClear (now : Q)
| OpStartVolumeInteraction (clientY : Q)
| OpHandleVolumeMove (clientY : Q)
| OpEndVolumeInteraction
| OpUpdateUI (now : Q)
| OpController (op : Loop.Op).

Definition run (op : Op) (u : LoopControls) : LoopControls :=
  match op with
  | OpHandleRecord now ok => handleRecord now ok u
  | OpHandlePlayPause now => handlePlayPause now u
  | OpHandleClear now => handleClear now u
  | OpStartVolumeInteraction y => startVolumeInteraction y u
  | OpHandleVolumeMove y => handleVolumeMove y u
  | OpEndVolumeInteraction => endVolumeInteraction u
  | OpUpdateUI now => updateUI now u
  | OpController op' => with_loopController (Loop.run op' (loopController u)) u
  end.

Inductive reachable : LoopControls -> Prop :=
| reachable_new c : Loop.reachable c -> reachable (new c)
| reachable_run op u : reachable u -> reachable (run op u).

End Controls.

(** ** The touch path of the application ([controls/touch-handler.js],
       [main.js]) *)

Module App.
Import JS.
Local Open Scope Q_scope.

Abbreviation TouchId := Surface.TouchId.

(** ['mouse']. *)
Definition mouseId : TouchId := inr tt.

(** What the browser supplies with an event: the rectangle of the canvas,
    [performance.now()] and [audioContext.currentTime]. *)
Record Env := mkEnv {
  rect_left : Q;
  rect_top : Q;
  rect_width : Q;
  rect_height : Q;
  performanceNow : Q;
  currentTime : Q
}.

(** An entry of [event.changedTouches]. *)
Record BrowserTouch := mkBrowserTouch {
  identifier : Z;
  clientX : Q;
  clientY : Q;
  force : Q
}.

Record TouchData := mkTouchData {
  td_x : Q;
  td_y : Q;
  td_intensity : Q;
  td_startTime : Q
}.

Record TouchHandler := mkTouchHandler {
  touches : gmap TouchId TouchData;
  mouseDown : bool
}.

Record OilSynth := mkOilSynth {
  synthesizer : Synth.Synthesizer;
  oilSurface : Surface.OilSurface;
  touchHandler : TouchHandler;
  activeVoices : gmap TouchId nat;
  hasStarted : bool
}.

Definition with_touchHandler (h : TouchHandler) (a : OilSynth) : OilSynth :=
  mkOilSynth (synthesizer a) (oilSurface a) h (activeVoices a) (hasStarted a).

Definition with_touches (t : gmap TouchId TouchData) (a : OilSynth) : OilSynth :=
  with_touchHandler (mkTouchHandler t (mouseDown (touchHandler a))) a.

Definition with_mouseDown (b : bool) (a : OilSynth) : OilSynth :=
  with_touchHandler (mkTouchHandler (touches (touchHandler a)) b) a.

(** The application once [initializeComponents()] has run: a synthesizer
    with the optimizer's settings, initialized or not, and a fresh surface
    and touch handler. *)
Definition new (p : Optimizer.PerformanceOptimizer) (contextOk : bool) : OilSynth :=
  {| synthesizer :=
       Synth.initialize contextOk (Synth.new (Optimizer.getOptimalAudioSettings p));
     oilSurface := Surface.new (Some (Optimizer.visualQuality p));
     touchHandler := mkTouchHandler ∅ false;
     activeVoices := ∅;
     hasStarted := false |}.

(** [handleTouchStart(id, x, y, intensity)].  The first component is
    [false] when the handler throws: on the first touch it reads
    [this.synthesizer.audioContext.state], and the context is [null] when
    the synthesizer could not be initialized. *)
Definition handleTouchStart (env : Env) (id : TouchId) (x y intensity : Q)
           (a : OilSynth) : bool * OilSynth :=
  let first := negb (hasStarted a) in
  let a1 := mkOilSynth (synthesizer a) (oilSurface a) (touchHandler a)
                       (activeVoices a) true in
  if (first && negb (Synth.isInitialized (synthesizer a)))%bool then (false, a1)
  else
    let normalizedX := x / rect_width env in
    let normalizedY := y / rect_height env in
    let '(voice, synth) :=
      Synth.startVoice normalizedX normalizedY intensity (currentTime env)
                       (synthesizer a1) in
    let active := match voice with
                  | Some ref => <[id := ref]> (activeVoices a1)
                  | None => activeVoices a1
                  end in
    (true,
     mkOilSynth synth
                (Surface.addTouch id x y intensity (rect_width env)
                                  (rect_height env) (oilSurface a1))
                (touchHandler a1) active (hasStarted a1)).

Definition handleTouchMove (env : Env) (id : TouchId) (x y intensity : Q)
           (a : OilSynth) : OilSynth :=
  let normalizedX := x / rect_width env in
  let normalizedY := y / rect_height env in
  let synth := match activeVoices a !! id with
               | Some voice =>
                   Synth.updateVoicePosition voice normalizedX normalizedY
                                             (synthesizer a)
               | None => synthesizer a
               end in
  mkOilSynth synth
             (Surface.updateTouch id x y intensity (rect_width env)
                                  (rect_height env) (oilSurface a))
             (touchHandler a) (activeVoices a) (hasStarted a).

Definition handleTouchEnd (id : TouchId) (a : OilSynth) : OilSynth :=
  let '(synth, active) :=
    match activeVoices a !! id with
    | Some voice =>
        (Synth.stopVoice (Some voice) (synthesizer a), delete id (activeVoices a))
    | None => (synthesizer a, activeVoices a)
    end in
  mkOilSynth synth (Surface.removeTouch id (oilSurface a)) (touchHandler a)
             active (hasStarted a).

(** [touch.force || 1.0]. *)
Definition intensityOf (t : BrowserTouch) : Q :=
  if Qeq_bool (force t) 0 then 1 else force t.

(** [TouchHandler.onTouchStart]: the loop over [event.changedTouches]; an
    exception of the callback ends it. *)
Fixpoint onTouchStart (env : Env) (changedTouches : list BrowserTouch)
         (a : OilSynth) : OilSynth :=
  match changedTouches with
  | [] => a
  | touch :: rest =>
      let id : TouchId := inl (identifier touch) in
      let x := clientX touch - rect_left env in
      let y := clientY touch - rect_top env in
      let intensity := intensityOf touch in
      let a1 :=
        with_touches (<[id := mkTouchData x y intensity (performanceNow env)]>
                        (touches (touchHandler a))) a in
      match handleTouchStart env id x y intensity a1 with
      | (true, a2) => onTouchStart env rest a2
      | (false, a2) => a2
      end
  end.

Fixpoint onTouchMove (env : Env) (changedTouches : list BrowserTouch)
         (a : OilSynth) : OilSynth :=
  match changedTouches with
  | [] => a
  | touch :: rest =>
      let id : TouchId := inl (identifier touch) in
      match touches (touchHandler a) !! id with
      | None => onTouchMove env rest a
      | Some touchData =>
          let x := clientX touch - rect_left env in
          let y := clientY touch - rect_top env in
          let intensity := intensityOf touch in
          let a1 :=
            with_touches (<[id := mkTouchData x y intensity
                                              (td_startTime touchData)]>
                            (touches (touchHandler a))) a in
          onTouchMove env rest (handleTouchMove env id x y intensity a1)
      end
  end.

(** [TouchHandler.onTouchEnd], for [touchend] and [touchcancel]. *)
Fixpoint onTouchEnd (changedTouches : list BrowserTouch) (a : OilSynth)
  : OilSynth :=
  match changedTouches with
  | [] => a
  | touch :: rest =>
      let id : TouchId := inl (identifier touch) in
      match touches (touchHandler a) !! id with
      | None => onTouchEnd rest a
      | Some _ =>
          let a1 := handleTouchEnd id a in
          onTouchEnd rest
            (with_touches (delete id (touches (touchHandler a1))) a1)
      end
  end.

Definition onMouseDown (env : Env) (cx cy : Q) (a : OilSynth) : OilSynth :=
  if mouseDown (touchHandler a) then a
  else
    let x := cx - rect_left env in
    let y := cy - rect_top env in
    let a1 :=
      with_touchHandler
        (mkTouchHandler
           (<[mouseId := mkTouchData x y 1 (performanceNow env)]>
              (touches (touchHandler a)))
           true) a in
    snd (handleTouchStart env mouseId x y 1 a1).

Definition onMouseMove (env : Env) (cx cy : Q) (a : OilSynth) : OilSynth :=
  if negb (mouseDown (touchHandler a)) then a
  else
    match touches (touchHandler a) !! mouseId with
    | None => a
    | Some touchData =>
        let x := cx - rect_left env in
        let y := cy - rect_top env in
        let a1 :=
          with_touches (<[mouseId := mkTouchData x y 1 (td_startTime touchData)]>
                          (touches (touchHandler a))) a in
        handleTouchMove env mouseId x y 1 a1
    end.

(** [TouchHandler.onMouseUp], for [mouseup] and [mouseleave]. *)
Definition onMouseUp (a : OilSynth) : OilSynth :=
  if negb (mouseDown (touchHandler a)) then a
  else
    let a1 := with_mouseDown false a in
    match touches (touchHandler a1) !! mouseId with
    | None => a1
    | Some _ =>
        let a2 := handleTouchEnd mouseId a1 in
        with_touches (delete mouseId (touches (touchHandler a2))) a2
    end.

(** The callback [setupKnobControls()] gives to the knob of a parameter. *)
Definition onKnobChange (paramName : string) (value : Q) (a : OilSynth) : OilSynth :=
  mkOilSynth (Synth.setParameter paramName value (synthesizer a)) (oilSurface a)
             (touchHandler a) (activeVoices a) (hasStarted a).

(** The listener of [performance-optimize]. *)
Definition onPerformanceOptimize (visualQuality audioComplexity : Q)
           (a : OilSynth) : OilSynth :=
  mkOilSynth (Synth.setComplexity audioComplexity (synthesizer a))
             (Surface.setQuality visualQuality (oilSurface a))
             (touchHandler a) (activeVoices a) (hasStarted a).

(** [destroy()], as far as these components go. *)
Definition destroy (a : OilSynth) : OilSynth :=
  mkOilSynth (Synth.stopAllVoices (synthesizer a))
             (Surface.destroy (oilSurface a))
             (mkTouchHandler ∅ false) ∅ (hasStarted a).

(** The touches of an event are new: the browser gives every active touch
    point an identifier of its own. *)
Definition freshTouches (changedTouches : list BrowserTouch) (a : OilSynth) : Prop :=
  NoDup (identifier <$> changedTouches) /\
  Forall (fun touch => touches (touchHandler a) !! inl (identifier touch) = None)
         changedTouches.

(** The states of the running application. *)
Inductive reachable : OilSynth -> Prop :=
| reachable_new p contextOk : reachable (new p contextOk)
| reachable_touchStart env changedTouches a :
    reachable a -> freshTouches changedTouches a ->
    reachable (onTouchStart env changedTouches a)
| reachable_touchMove env changedTouches a :
    reachable a -> reachable (onTouchMove env changedTouches a)
| reachable_touchEnd changedTouches a :
    reachable a -> reachable (onTouchEnd changedTouches a)
| reachable_mouseDown env cx cy a :
    reachable a -> reachable (onMouseDown env cx cy a)
| reachable_mouseMove env cx cy a :
    reachable a -> reachable (onMouseMove env cx cy a)
| reachable_mouseUp a :
    reachable a -> reachable (onMouseUp a)
| reachable_knobChange paramName value a :
    reachable a -> reachable (onKnobChange paramName value a)
| reachable_performanceOptimize visualQuality audioComplexity a :
    reachable a -> reachable (onPerformanceOptimize visualQuality audioComplexity a)
| reachable_animate timestamp a :
    reachable a ->
    reachable (mkOilSynth (synthesizer a)
                          (Surface.animate timestamp (oilSurface a))
                          (touchHandler a) (activeVoices a) (hasStarted a))
| reachable_destroy a :
    reachable a -> reachable (destroy a).

(** What the touch path keeps: every sounding voice belongs to a touch that
    is down, the handles of the active touches are those of distinct voices,
    and the mouse is only a touch while its button is down. *)
Definition invariant (a : OilSynth) : Prop :=
  (forall ref, Synth.isPlaying (synthesizer a) ref = true ->
               exists id, activeVoices a !! id = Some ref) /\
  (forall id, is_Some (activeVoices a !! id) ->
              is_Some (touches (touchHandler a) !! id)) /\
  (mouseDown (touchHandler a) = false ->
   touches (touchHandler a) !! mouseId = None).

End App.

(** * Proof automation *)


(** Decide the comparisons of a parameter name with the literal names. *)
Ltac decide_names :=
  repeat match goal with
         | H : context [decide (?a = ?b)] |- _ =>
             destruct (decide (a = b)); [try discriminate | try congruence]
         | |- context [decide (?a = ?b)] =>
             destruct (decide (a = b)); [try discriminate | try congruence]
         end.

(** Split the loop invariant and close its parts from the hypotheses. *)
Ltac crush_invariant :=
  unfold Loop.invariant in *; cbn in *;
  repeat match goal with
         | H : _ /\ _ |- _ => destruct H
         | |- _ /\ _ => split
         | |- _ -> _ => intro
         | |- forall _, _ => intro
         end;
  try solve [eauto | congruence | discriminate
             | simplify_eq;
               match goal with H : _ |- _ => solve [eapply H; eauto] end].


(** * Properties *)

(** ** Numerics *)

Section Numerics.
Import JS.
Local Open Scope Q_scope.

Lemma Qltb_lt (a b : Q) : Qltb a b = true <-> a < b.
Proof. unfold Qltb, Qlt. apply Z.ltb_lt. Qed.

Lemma Qltb_ge (a b : Q) : Qltb a b = false <-> b <= a.
Proof. unfold Qltb, Qle. apply Z.ltb_ge. Qed.


Lemma clamp_bounds (lo hi v : Q) :
  lo <= hi -> lo <= Spec.clamp lo hi v <= hi.
Proof.
  intros Hlh. unfold Spec.clamp.
  destruct (Qltb v hi) eqn:E1; [destruct (Qltb lo v) eqn:E2|].
  - apply Qltb_lt in E1, E2. split; apply Qlt_le_weak; assumption.
  - split; [apply Qle_refl | assumption].
  - split; [assumption | apply Qle_refl].
Qed.

Lemma clamp_inside (lo hi v : Q) :
  lo <= v <= hi -> Spec.clamp lo hi v == v.
Proof.
  intros [H1 H2]. unfold Spec.clamp.
  destruct (Qltb v hi) eqn:E1; [destruct (Qltb lo v) eqn:E2|].
  - reflexivity.
  - apply Qltb_ge in E2. apply Qle_antisym; assumption.
  - apply Qltb_ge in E1. apply Qle_antisym; assumption.
Qed.

Lemma clamp_below (lo hi v : Q) : lo <= hi -> v <= lo -> Spec.clamp lo hi v == lo.
Proof.
  intros Hlh Hv. unfold Spec.clamp.
  destruct (Qltb v hi) eqn:E1; [destruct (Qltb lo v) eqn:E2|].
  - apply Qltb_lt in E2. exfalso. apply (Qlt_irrefl lo).
    eapply Qlt_le_trans; eassumption.
  - reflexivity.
  - apply Qltb_ge in E1. lra.
Qed.

Lemma clamp_above (lo hi v : Q) : hi <= v -> Spec.clamp lo hi v == hi.
Proof.
  intros Hv. unfold Spec.clamp.
  destruct (Qltb v hi) eqn:E1; [|reflexivity].
  apply Qltb_lt in E1. exfalso. apply (Qlt_irrefl v).
  eapply Qlt_le_trans; eassumption.
Qed.

(** [Math.max(0, Math.min(1, v))] is [min(1, max(0, v))]. *)
Lemma clamp01_minmax (v : Q) :
  Math_max 0 (Math_min 1 v) == Qmin 1 (Qmax 0 v).
Proof.
  unfold Math_max, Math_min.
  destruct (Qltb v 1) eqn:E1.
  - apply Qltb_lt in E1. destruct (Qltb 0 v) eqn:E2.
    + apply Qltb_lt in E2. rewrite Q.max_r, Q.min_r; auto using Qlt_le_weak.
      reflexivity.
    + apply Qltb_ge in E2. rewrite Q.max_l, Q.min_r by (auto; discriminate).
      reflexivity.
  - apply Qltb_ge in E1. cbn.
    rewrite Q.max_r by (eapply Qle_trans; [|exact E1]; discriminate).
    rewrite Q.min_l by assumption. reflexivity.
Qed.

Lemma clamp01_range (v : Q) :
  0 <= Math_max 0 (Math_min 1 v) <= 1.
Proof.
  unfold Math_max, Math_min.
  destruct (Qltb v 1) eqn:E1.
  - apply Qltb_lt in E1. destruct (Qltb 0 v) eqn:E2.
    + apply Qltb_lt in E2. split; apply Qlt_le_weak; assumption.
    + split; discriminate.
  - cbn. split; discriminate.
Qed.

Lemma clamp01_id (v : Q) :
  0 <= v <= 1 -> Math_max 0 (Math_min 1 v) == v.
Proof.
  intros [H0 H1]. unfold Math_max, Math_min.
  destruct (Qltb v 1) eqn:E1.
  - destruct (Qltb 0 v) eqn:E2; [reflexivity|].
    apply Qltb_ge in E2. apply Qle_antisym; assumption.
  - apply Qltb_ge in E1. cbn. apply Qle_antisym; assumption.
Qed.

Lemma Qfloor_range (q : Q) (n : Z) :
  0 <= q -> q < inject_Z n -> (0 <= Qfloor q < n)%Z.
Proof.
  intros H0 Hn. split.
  - change 0%Z with (Qfloor (inject_Z 0)). apply Qfloor_resp_le. exact H0.
  - pose proof (Qfloor_le q) as Hf.
    assert (inject_Z (Qfloor q) < inject_Z n) as Hlt
      by (eapply Qle_lt_trans; eassumption).
    rewrite <- Zlt_Qlt in Hlt. exact Hlt.
Qed.

End Numerics.

(** ** Scale mapper *)

Section ScaleMapper.
Import JS Synth.
Local Open Scope Q_scope.

(** The loop keeps the first index of minimal distance among the steps
    it has seen. *)
Lemma closestLoop_first_minimal (octave : Q) (steps : list Q) :
  forall (seen : list Q) (minDistance : Q) (closest : nat) (a : Q),
    seen !! closest = Some a ->
    minDistance = Qabs (octave - a) ->
    (forall j b, seen !! j = Some b -> minDistance <= Qabs (octave - b)) ->
    (forall j b, (j < closest)%nat -> seen !! j = Some b ->
                 minDistance < Qabs (octave - b)) ->
    exists a',
      (seen ++ steps) !! closestLoop octave steps (length seen) minDistance closest
        = Some a' /\
      (forall j b, (seen ++ steps) !! j = Some b ->
                   Qabs (octave - a') <= Qabs (octave - b)) /\
      (forall j b,
          (j < closestLoop octave steps (length seen) minDistance closest)%nat ->
          (seen ++ steps) !! j = Some b ->
          Qabs (octave - a') < Qabs (octave - b)).
Proof.
  induction steps as [|step rest IH]; intros seen d c a Hc Hd Hmin Hfirst.
  - cbn [closestLoop]. rewrite app_nil_r. exists a. subst d. auto.
  - cbn [closestLoop]. unfold Math_abs.
    replace (seen ++ step :: rest) with ((seen ++ [step]) ++ rest)
      by (rewrite <- app_assoc; reflexivity).
    replace (S (length seen)) with (length (seen ++ [step]))
      by (rewrite length_app; cbn; lia).
    destruct (Qltb (Qabs (octave - step)) d) eqn:Hlt.
    + apply Qltb_lt in Hlt.
      apply (IH (seen ++ [step]) _ _ step).
      * rewrite lookup_app_r by lia. rewrite Nat.sub_diag. reflexivity.
      * reflexivity.
      * intros j b Hj. apply lookup_app_Some in Hj as [Hj | [Hge Hj]].
        -- specialize (Hmin j b Hj). lra.
        -- apply list_lookup_singleton_Some in Hj as [_ <-]. lra.
      * intros j b Hlen Hj. rewrite lookup_app_l in Hj by lia.
        specialize (Hmin j b Hj). lra.
    + apply Qltb_ge in Hlt.
      apply (IH (seen ++ [step]) _ _ a).
      * apply lookup_app_l_Some. exact Hc.
      * exact Hd.
      * intros j b Hj. apply lookup_app_Some in Hj as [Hj | [Hge Hj]].
        -- exact (Hmin j b Hj).
        -- apply list_lookup_singleton_Some in Hj as [_ <-]. exact Hlt.
      * intros j b Hjc Hj.
        apply lookup_lt_Some in Hc.
        rewrite lookup_app_l in Hj by lia. exact (Hfirst j b Hjc Hj).
Qed.

Lemma closestIndexOf_first_minimal (octave : Q) :
  exists a,
    octaveSteps !! closestIndexOf octave = Some a /\
    (forall j b, octaveSteps !! j = Some b ->
                 Qabs (octave - a) <= Qabs (octave - b)) /\
    (forall j b, (j < closestIndexOf octave)%nat -> octaveSteps !! j = Some b ->
                 Qabs (octave - a) < Qabs (octave - b)).
Proof.
  unfold closestIndexOf, octaveSteps.
  apply (closestLoop_first_minimal octave _ [0] _ O 0).
  - reflexivity.
  - reflexivity.
  - intros [|j] b Hj; [|discriminate]. injection Hj as <-. apply Qle_refl.
  - intros j b Hj. lia.
Qed.


Lemma closestIndexOf_tables (octave : Q) :
  exists r z,
    octaveRanges !! closestIndexOf octave = Some r /\
    Spec.semitoneOffsets !! closestIndexOf octave = Some z /\
    r * 12 == inject_Z z.
Proof.
  destruct (closestIndexOf_first_minimal octave) as (a & Ha & _).
  destruct (closestIndexOf octave) as [|i].
  { eexists _, _. repeat split. }
  do 6 (destruct i as [|i]; [eexists _, _; repeat split|]).
  discriminate.
Qed.

Lemma semitonesFromC0_unfold (octave x y : Q) (r : Q) :
  octaveRanges !! closestIndexOf octave = Some r ->
  semitonesFromC0 (Some octave) x y =
    (interval ← index pentatonicIntervals (Qfloor (x * 5));
     Some (interval + (inject_Z (Qfloor (y * 2)) + (2 + r)) * 12)).
Proof.
  intros Hr. unfold semitonesFromC0. cbn [closestIndex]. rewrite Hr.
  reflexivity.
Qed.


End ScaleMapper.

(** ** The frequencies the scale mapper produces *)

Section Frequencies.
Import JS Synth.
Local Open Scope Q_scope.

Lemma hertz_pos (s : Q) : (0 < hertz s)%R.
Proof.
  unfold hertz. apply Rmult_lt_0_compat.
  - unfold c0Freq, Q2R. simpl. lra.
  - unfold Rpower. apply exp_pos.
Qed.

Lemma hertz_Qeq (s t : Q) : s == t -> hertz s = hertz t.
Proof. intros H. unfold hertz. rewrite (Qeq_eqR _ _ H). reflexivity. Qed.

Lemma Rpower2_inj (u v : R) : Rpower 2 u = Rpower 2 v -> u = v.
Proof.
  intros H. destruct (Rtotal_order u v) as [Hlt | [Heq | Hgt]].
  - apply (Rpower_lt 2) in Hlt; lra.
  - exact Heq.
  - apply (Rpower_lt 2) in Hgt; lra.
Qed.

Lemma hertzZ_inj (a b : Z) : Spec.hertzZ a = Spec.hertzZ b -> a = b.
Proof.
  unfold Spec.hertzZ, hertz. intros H.
  apply Rmult_eq_reg_l in H.
  2:{ unfold c0Freq, Q2R. simpl. lra. }
  apply Rpower2_inj in H.
  unfold Q2R, inject_Z in H. simpl in H.
  apply eq_IZR. lra.
Qed.

(** Inside the unit square the pitch-class index and the band are in
    range, so the semitone count is one of the combinations. *)
Lemma semitones_in_combinations (x y octaveParam : Q) :
  0 <= x < 1 -> 0 <= y < 1 ->
  exists s z,
    semitonesFromC0 (Some octaveParam) x y = Some s /\
    s == inject_Z z /\ z ∈ Spec.combinations.
Proof.
  intros [Hx0 Hx1] [Hy0 Hy1].
  destruct (closestIndexOf_tables octaveParam) as (r & off & Hr & Hoff & Hroff).
  rewrite (semitonesFromC0_unfold _ _ _ _ Hr).
  assert (0 <= Qfloor (x * 5) < 5)%Z as Hk
    by (apply Qfloor_range; change (inject_Z 5) with 5; lra).
  assert (0 <= Qfloor (y * 2) < 2)%Z as Hb
    by (apply Qfloor_range; change (inject_Z 2) with 2; lra).
  set (k := Qfloor (x * 5)) in *. set (band := Qfloor (y * 2)) in *.
  clearbody k band.
  assert (exists interval : Z,
             index pentatonicIntervals k = Some (inject_Z interval) /\
             interval ∈ [0; 2; 4; 7; 9]%Z) as (interval & Hi & Hin).
  { assert (k = 0 \/ k = 1 \/ k = 2 \/ k = 3 \/ k = 4)%Z
      as [-> | [-> | [-> | [-> | ->]]]] by lia;
      eexists; (split; [reflexivity | repeat constructor]). }
  rewrite Hi. cbn [mbind option_bind].
  eexists _, (Spec.semitonesOf interval band off).
  split; [reflexivity|]. split.
  - unfold Spec.semitonesOf.
    rewrite !inject_Z_plus, inject_Z_mult, inject_Z_plus.
    change (inject_Z 12) with 12. change (inject_Z 2) with 2. lra.
  - unfold Spec.combinations.
    apply list_elem_of_bind. exists interval. split; [|exact Hin].
    apply list_elem_of_bind. exists band. split.
    2:{ assert (band = 0 \/ band = 1)%Z as [-> | ->] by lia;
          repeat constructor. }
    apply list_elem_of_bind. exists off. split; [constructor|].
    eapply list_elem_of_lookup_2. exact Hoff.
Qed.

Lemma grid_reaches_combinations : Forall2 Spec.reaches Spec.grid Spec.combinations.
Proof.
  unfold Spec.grid, Spec.combinations, octaveSteps, Spec.semitoneOffsets.
  cbn [mbind list_bind app].
  repeat (constructor;
          [ split; [lra | eexists; split; [vm_compute; reflexivity | reflexivity]]
          | ]).
  constructor.
Qed.

Lemma frequencyOf_semitones (x y octaveParam s : Q) (z : Z) :
  semitonesFromC0 (Some octaveParam) x y = Some s -> s == inject_Z z ->
  frequencyOf x y octaveParam = Some (Spec.hertzZ z).
Proof.
  intros Hs Hz. unfold frequencyOf, Spec.hertzZ. rewrite Hs. cbn.
  f_equal. apply hertz_Qeq. exact Hz.
Qed.

(** C2, as the code has it: inside the unit square (right and top edge
    excluded) the frequency is defined, positive, and belongs to one of the
    5 x 2 x 7 = 70 combinations of pitch class, octave band and anchor;
    every combination is produced by some input; the combinations give
    45 distinct frequencies, because neighbouring bands and anchors meet
    on the same octave. *)
Theorem scale_mapper_frequencies (x y octaveParam : Q)
        (Hx : 0 <= x < 1) (Hy : 0 <= y < 1) :
  (exists z, z ∈ Spec.combinations /\
             frequencyOf x y octaveParam = Some (Spec.hertzZ z) /\
             (0 < Spec.hertzZ z)%R) /\
  length Spec.combinations = 70%nat /\
  (forall z, z ∈ Spec.combinations ->
             exists x' y' o', 0 <= x' < 1 /\ 0 <= y' < 1 /\ 0 <= o' <= 1 /\
                              frequencyOf x' y' o' = Some (Spec.hertzZ z)) /\
  NoDup (Spec.hertzZ <$> remove_dups Spec.combinations) /\
  length (Spec.hertzZ <$> remove_dups Spec.combinations) = 45%nat /\
  (forall f, f ∈ Spec.hertzZ <$> Spec.combinations <->
             f ∈ Spec.hertzZ <$> remove_dups Spec.combinations).
Proof.
  split; [|split; [|split; [|split; [|split]]]].
  - destruct (semitones_in_combinations x y octaveParam Hx Hy)
      as (s & z & Hs & Hz & Hin).
    exists z. split; [exact Hin|]. split.
    + exact (frequencyOf_semitones _ _ _ _ _ Hs Hz).
    + apply hertz_pos.
  - reflexivity.
  - intros z Hin. apply list_elem_of_lookup_1 in Hin as [i Hi].
    destruct (Forall2_lookup_r _ _ _ _ _ grid_reaches_combinations Hi)
      as ([[x' y'] o'] & _ & (Hdom & s & Hs & Hz)).
    exists x', y', o'. destruct Hdom as (? & ? & ?).
    repeat split; try tauto.
    exact (frequencyOf_semitones _ _ _ _ _ Hs Hz).
  - apply NoDup_fmap_2; [exact hertzZ_inj | apply NoDup_remove_dups].
  - rewrite length_fmap. vm_compute. reflexivity.
  - intros f. rewrite !list_elem_of_fmap.
    split; intros (z & -> & Hz); exists z; (split; [reflexivity|]);
      apply elem_of_remove_dups; exact Hz.
Qed.

Lemma scale_mapper_frequencies_witness :
  exists z, z ∈ Spec.combinations /\
            frequencyOf (1#2) (1#4) (1#2) = Some (Spec.hertzZ z) /\
            (0 < Spec.hertzZ z)%R.
Proof.
  apply (proj1 (scale_mapper_frequencies (1#2) (1#4) (1#2)
                  (conj (Qle_bool_imp_le 0 (1#2) eq_refl) eq_refl)
                  (conj (Qle_bool_imp_le 0 (1#4) eq_refl) eq_refl))).
Defined.

(** C2 fails as stated: on the right edge [x = 1] the pitch-class index is
    5, past the end of the interval table, and the frequency is [NaN];
    and two different combinations of band and anchor give one frequency. *)
Lemma scale_mapper_counterexample :
  frequencyOf 1 0 (1#2) = None /\
  frequencyOf 0 (1#2) 0 = frequencyOf 0 0 (2#10) /\
  length (remove_dups Spec.combinations) = 45%nat.
Proof.
  split; [|split].
  - unfold frequencyOf.
    replace (semitonesFromC0 (Some (1#2)) 1 0) with (@None Q)
      by (vm_compute; reflexivity).
    reflexivity.
  - rewrite (frequencyOf_semitones 0 (1#2) 0 _ 12 eq_refl)
      by reflexivity.
    rewrite (frequencyOf_semitones 0 0 (2#10) _ 12 eq_refl)
      by reflexivity.
    reflexivity.
  - vm_compute. reflexivity.
Qed.

End Frequencies.

(** ** Voice pool *)

Section VoicePool.
Import JS Synth.

Lemma isPlaying_lookup (s : Synthesizer) (ref : nat) :
  isPlaying s ref = match heap s !! ref with
                    | Some v => playing v
                    | None => false
                    end.
Proof.
  unfold isPlaying, isFree. destruct (heap s !! ref) as [v|]; [|reflexivity].
  apply negb_involutive.
Qed.

Lemma isPlaying_lt (s : Synthesizer) (ref : nat) :
  isPlaying s ref = true -> (ref < length (heap s))%nat.
Proof.
  rewrite isPlaying_lookup. destruct (heap s !! ref) eqn:E; [|discriminate].
  intros _. eapply lookup_lt_Some. exact E.
Qed.

(** What [stopVoice] leaves alone. *)
Lemma stopVoice_frame (voice : option nat) (s : Synthesizer) :
  isInitialized (stopVoice voice s) = isInitialized s /\
  maxVoices (stopVoice voice s) = maxVoices s /\
  voices (stopVoice voice s) = voices s /\
  params (stopVoice voice s) = params s /\
  nodes (stopVoice voice s) = nodes s /\
  length (heap (stopVoice voice s)) = length (heap s).
Proof.
  unfold stopVoice. destruct voice as [ref|]; [|tauto].
  destruct (heap s !! ref) as [v|]; [|tauto].
  destruct (playing v); [|tauto].
  cbn. rewrite length_insert. tauto.
Qed.

(** [stopVoice] silences the voice it is given and no other. *)
Lemma isPlaying_stopVoice (r : nat) (s : Synthesizer) (ref : nat) :
  isPlaying (stopVoice (Some r) s) ref =
    (isPlaying s ref && negb (ref =? r)%nat)%bool.
Proof.
  rewrite !isPlaying_lookup. unfold stopVoice.
  destruct (Nat.eqb_spec ref r) as [-> | Hne].
  - destruct (heap s !! r) as [v|] eqn:E; [|rewrite E; reflexivity].
    destruct (playing v) eqn:P.
    + cbn. rewrite list_lookup_insert_eq by (eapply lookup_lt_Some; exact E).
      reflexivity.
    + rewrite E, P. reflexivity.
  - rewrite andb_true_r.
    destruct (heap s !! r) as [v|] eqn:E; [|reflexivity].
    destruct (playing v); [|reflexivity].
    cbn. rewrite list_lookup_insert_ne by congruence. reflexivity.
Qed.

Lemma stopVoices_frame (refs : list nat) :
  forall s,
    let s' := foldl (fun st ref => stopVoice (Some ref) st) s refs in
    isInitialized s' = isInitialized s /\
    maxVoices s' = maxVoices s /\
    voices s' = voices s /\
    params s' = params s /\
    nodes s' = nodes s /\
    length (heap s') = length (heap s).
Proof.
  induction refs as [|r refs IH]; intros s; cbn; [tauto|].
  specialize (IH (stopVoice (Some r) s)). cbn in IH.
  destruct (stopVoice_frame (Some r) s) as (<- & <- & <- & <- & <- & <-).
  exact IH.
Qed.

(** Releasing a list of voices, first to last, silences exactly those. *)
Lemma isPlaying_stopVoices (refs : list nat) :
  forall s ref,
    isPlaying (foldl (fun st r => stopVoice (Some r) st) s refs) ref =
      (isPlaying s ref && negb (bool_decide (ref ∈ refs)))%bool.
Proof.
  induction refs as [|r refs IH]; intros s ref; cbn [foldl].
  - rewrite bool_decide_eq_false_2 by apply not_elem_of_nil.
    rewrite andb_true_r. reflexivity.
  - rewrite IH, isPlaying_stopVoice.
    destruct (isPlaying s ref); [|reflexivity]. cbn.
    destruct (Nat.eqb_spec ref r) as [-> | Hne].
    + rewrite (bool_decide_eq_true_2 (r ∈ r :: refs)) by constructor.
      reflexivity.
    + cbn. f_equal. apply bool_decide_ext. rewrite elem_of_cons. tauto.
Qed.

Lemma findIndex_Some {A} (p : A -> bool) (l : list A) (i : nat) :
  findIndex p l = Some i ->
  exists a, l !! i = Some a /\ p a = true /\
            forall j b, (j < i)%nat -> l !! j = Some b -> p b = false.
Proof.
  revert i. induction l as [|a l IH]; intros i H; [discriminate|].
  cbn in H. destruct (p a) eqn:Pa.
  - injection H as <-. exists a. repeat split; [exact Pa|]. intros; lia.
  - destruct (findIndex p l) as [k|] eqn:E; [|discriminate].
    injection H as <-. destruct (IH k eq_refl) as (b & Hb & Pb & Hfirst).
    exists b. repeat split; [exact Hb | exact Pb |].
    intros [|j] c Hj Hc.
    + injection Hc as <-. exact Pa.
    + apply (Hfirst j c); [lia | exact Hc].
Qed.

Lemma findIndex_None {A} (p : A -> bool) (l : list A) :
  findIndex p l = None <-> Forall (fun a => p a = false) l.
Proof.
  induction l as [|a l IH]; cbn.
  - split; [constructor | reflexivity].
  - destruct (p a) eqn:Pa.
    + split; [discriminate|]. intros H. inversion H; congruence.
    + destruct (findIndex p l); cbn.
      * split; [discriminate|]. intros H. inversion H; subst.
        apply IH in H3. discriminate.
      * split; [|reflexivity]. intros _. constructor; [exact Pa|].
        apply IH. reflexivity.
Qed.



Lemma filter_playing_none (s : Synthesizer) (l : list nat) :
  Forall (fun ref => isPlaying s ref = false) l ->
  filter (fun ref => isPlaying s ref = true) l = [].
Proof.
  induction 1 as [|r l Hr Hl IH]; [reflexivity|].
  rewrite filter_cons_False by congruence. exact IH.
Qed.

(** Allocating a voice object leaves the older ones as they are. *)
Lemma isPlaying_alloc (vs : list nat) (v : Voice) (s : Synthesizer) (ref : nat) :
  isPlaying (with_voices vs (with_heap (heap s ++ [v]) s)) ref =
    if (ref <? length (heap s))%nat then isPlaying s ref
    else ((ref =? length (heap s))%nat && playing v)%bool.
Proof.
  rewrite !isPlaying_lookup. unfold with_voices, with_heap. cbn [heap].
  destruct (Nat.ltb_spec ref (length (heap s))) as [Hlt | Hge].
  - rewrite lookup_app_l by exact Hlt. reflexivity.
  - rewrite lookup_app_r by exact Hge.
    destruct (Nat.eqb_spec ref (length (heap s))) as [-> | Hne].
    + rewrite Nat.sub_diag. reflexivity.
    + destruct (ref - length (heap s))%nat as [|k] eqn:E; [lia|].
      reflexivity.
Qed.


(** A free slot is reused and nothing is released. *)
Lemma startVoice_free (x y intensity now : Q) (s : Synthesizer) (i : nat) :
  isInitialized s = true ->
  findIndex (isFree (heap s)) (voices s) = Some i ->
  startVoice x y intensity now s =
    (Some (length (heap s)),
     with_voices (<[i := length (heap s)]> (voices s))
       (with_heap
          (heap s ++ [createVoice (positionToFrequency s x y) intensity x y now])
          s)).
Proof.
  intros Hinit Hfind. unfold startVoice. rewrite Hinit, Hfind. cbn [negb].
  destruct (findIndex_Some _ _ _ Hfind) as (a & Ha & _).
  apply lookup_lt_Some in Ha. unfold assign.
  destruct (Nat.ltb_spec i (length (voices s))); [reflexivity | lia].
Qed.

(** With no free slot and room left, the pool grows by one slot. *)
Lemma startVoice_grow (x y intensity now : Q) (s : Synthesizer) :
  isInitialized s = true ->
  findIndex (isFree (heap s)) (voices s) = None ->
  (Z.of_nat (length (voices s)) < maxVoices s)%Z ->
  startVoice x y intensity now s =
    (Some (length (heap s)),
     with_voices (voices s ++ [length (heap s)])
       (with_heap
          (heap s ++ [createVoice (positionToFrequency s x y) intensity x y now])
          s)).
Proof.
  intros Hinit Hfind Hroom. unfold startVoice. rewrite Hinit, Hfind. cbn [negb].
  destruct (Z.ltb_spec (Z.of_nat (length (voices s))) (maxVoices s)); [|lia].
  unfold assign. rewrite Nat.ltb_irrefl. reflexivity.
Qed.

(** With no free slot and the pool at capacity, slot 0 is released and
    then overwritten. *)
Lemma startVoice_steal (x y intensity now : Q) (s : Synthesizer)
      (r0 : nat) (rest : list nat) :
  isInitialized s = true ->
  findIndex (isFree (heap s)) (voices s) = None ->
  (maxVoices s <= Z.of_nat (length (voices s)))%Z ->
  voices s = r0 :: rest ->
  startVoice x y intensity now s =
    (Some (length (heap s)),
     with_voices (length (heap s) :: rest)
       (with_heap
          (heap (stopVoice (Some r0) s) ++
             [createVoice (positionToFrequency s x y) intensity x y now])
          (stopVoice (Some r0) s))).
Proof.
  intros Hinit Hfind Hfull Hvoices. unfold startVoice.
  rewrite Hinit, Hfind. cbn [negb].
  destruct (Z.ltb_spec (Z.of_nat (length (voices s))) (maxVoices s)); [lia|].
  rewrite Hvoices. cbn [lookup list_lookup].
  destruct (stopVoice_frame (Some r0) s) as (_ & _ & Hv & Hp & _ & Hlen).
  rewrite Hv, Hvoices, Hlen. unfold positionToFrequency. rewrite Hp.
  reflexivity.
Qed.

(** What [startVoice] leaves alone, and the shape of what it changes. *)
Lemma startVoice_frame (x y intensity now : Q) (s : Synthesizer) :
  let s' := snd (startVoice x y intensity now s) in
  isInitialized s' = isInitialized s /\
  maxVoices s' = maxVoices s /\
  params s' = params s /\
  nodes s' = nodes s /\
  (isInitialized s = true ->
   exists idx,
     voices s' = assign (voices s) idx (length (heap s)) /\
     length (heap s') = S (length (heap s))).
Proof.
  unfold startVoice. destruct (isInitialized s) eqn:Hinit; cbn [negb snd].
  2:{ rewrite Hinit. repeat split. discriminate. }
  destruct (findIndex (isFree (heap s)) (voices s)) as [i|].
  { cbn. rewrite Hinit. repeat split. intros _. exists i. split; [reflexivity|].
    rewrite length_app. cbn. lia. }
  destruct (_ <? _)%Z.
  { cbn. rewrite Hinit. repeat split. intros _. eexists. split; [reflexivity|].
    rewrite length_app. cbn. lia. }
  destruct (stopVoice_frame (voices s !! O) s) as (Hi & Hm & Hv & Hp & Hn & Hlen).
  cbn. rewrite Hi, Hm, Hv, Hp, Hn, Hlen, Hinit. repeat split.
  intros _. exists O. split; [reflexivity|].
  rewrite length_app, Hlen. cbn. lia.
Qed.

Lemma assign_fresh (l : list nat) (i n : nat) :
  NoDup l -> Forall (fun ref => (ref < n)%nat) l ->
  NoDup (assign l i n) /\ Forall (fun ref => (ref < S n)%nat) (assign l i n).
Proof.
  intros Hnd Hlt.
  assert (Forall (fun ref => (ref < S n)%nat) l) as Hlt'
    by (eapply Forall_impl; [exact Hlt | cbn; intros; lia]).
  assert (n ∉ l) as Hfresh.
  { intros Hin. rewrite Forall_forall in Hlt. specialize (Hlt n Hin). lia. }
  unfold assign. destruct (Nat.ltb_spec i (length l)) as [Hi | Hi]; split.
  - apply NoDup_alt. intros j k z Hj Hk.
    apply list_lookup_insert_Some in Hj as [(-> & <- & _) | (Hij & Hj)];
      apply list_lookup_insert_Some in Hk as [(Hik & Hz & _) | (Hik & Hk)].
    + exact Hik.
    + exfalso. apply Hfresh. eapply list_elem_of_lookup_2. exact Hk.
    + exfalso. apply Hfresh. subst z. eapply list_elem_of_lookup_2. exact Hj.
    + rewrite NoDup_alt in Hnd. exact (Hnd j k z Hj Hk).
  - apply Forall_insert; [exact Hlt' | lia].
  - apply NoDup_app. repeat split; [exact Hnd | | apply NoDup_singleton].
    intros z Hz Hz'. apply list_elem_of_singleton in Hz'. subst z. tauto.
  - apply Forall_app. split; [exact Hlt' | repeat constructor].
Qed.

Lemma wellFormed_same (s s' : Synthesizer) :
  voices s' = voices s -> length (heap s') = length (heap s) ->
  wellFormed s -> wellFormed s'.
Proof. unfold wellFormed. intros -> ->. tauto. Qed.

Lemma setParameter_frame (param : string) (value : Q) (s : Synthesizer) :
  isInitialized (setParameter param value s) = isInitialized s /\
  maxVoices (setParameter param value s) = maxVoices s /\
  voices (setParameter param value s) = voices s /\
  heap (setParameter param value s) = heap s /\
  params (setParameter param value s) =
    <[param := Math_max 0 (Math_min 1 value)]> (params s).
Proof.
  unfold setParameter. repeat case_decide; repeat split.
Qed.

Lemma updateVoicePosition_frame (ref : nat) (x y : Q) (s : Synthesizer) :
  isInitialized (updateVoicePosition ref x y s) = isInitialized s /\
  maxVoices (updateVoicePosition ref x y s) = maxVoices s /\
  voices (updateVoicePosition ref x y s) = voices s /\
  nodes (updateVoicePosition ref x y s) = nodes s /\
  length (heap (updateVoicePosition ref x y s)) = length (heap s).
Proof.
  unfold updateVoicePosition. destruct (heap s !! ref) as [v|]; [|tauto].
  destruct (playing v); [|tauto]. cbn. rewrite length_insert. tauto.
Qed.

Lemma setComplexity_frame (c : Q) (s : Synthesizer) :
  isInitialized (setComplexity c s) = isInitialized s /\
  maxVoices (setComplexity c s) = Math_ceil (5 * c) /\
  voices (setComplexity c s) = voices s /\
  params (setComplexity c s) = params s /\
  nodes (setComplexity c s) = nodes s /\
  length (heap (setComplexity c s)) = length (heap s).
Proof.
  unfold setComplexity. cbn [maxVoices with_maxVoices].
  destruct (_ <? _)%Z; [|cbn; tauto].
  apply (stopVoices_frame _ (with_maxVoices (Math_ceil (5 * c)) s)).
Qed.

(** In every reachable state the slots of the pool hold distinct
    references to existing voice objects. *)
Lemma reachable_wellFormed (s : Synthesizer) : reachable s -> wellFormed s.
Proof.
  induction 1 as [st | op s Hs IH].
  - split; constructor.
  - destruct op as [ok | x y it now | ref | ref x y | param value | c |]; cbn [run].
    + unfold initialize. destruct (isInitialized s), ok; exact IH.
    + destruct (startVoice_frame x y it now s) as (_ & _ & _ & _ & Hshape).
      destruct (isInitialized s) eqn:Hinit.
      * destruct (Hshape eq_refl) as (idx & Hv & Hlen).
        destruct IH as [Hnd Hlt]. unfold wellFormed. rewrite Hv, Hlen.
        apply assign_fresh; assumption.
      * unfold startVoice. rewrite Hinit. exact IH.
    + destruct (stopVoice_frame (Some ref) s) as (_ & _ & Hv & _ & _ & Hlen).
      exact (wellFormed_same _ _ Hv Hlen IH).
    + destruct (updateVoicePosition_frame ref x y s) as (_ & _ & Hv & _ & Hlen).
      exact (wellFormed_same _ _ Hv Hlen IH).
    + destruct (setParameter_frame param value s) as (_ & _ & Hv & Hh & _).
      apply (wellFormed_same _ _ Hv); [rewrite Hh; reflexivity | exact IH].
    + destruct (setComplexity_frame c s) as (_ & _ & Hv & _ & _ & Hlen).
      exact (wellFormed_same _ _ Hv Hlen IH).
    + split; constructor.
Qed.

Lemma reachable_runAll (ops : list Op) :
  forall s, reachable s -> reachable (runAll ops s).
Proof.
  induction ops as [|op ops IH]; intros s Hs; [exact Hs|].
  apply (IH (run op s)). constructor. exact Hs.
Qed.


Lemma playingCount_le_length (s : Synthesizer) :
  (playingCount s <= length (voices s))%nat.
Proof. unfold playingCount. apply length_filter. Qed.

Lemma startVoice_placement (x y intensity now : Q) (s : Synthesizer) :
  isInitialized s = true ->
  fst (startVoice x y intensity now s) = Some (length (heap s)) /\
  isPlaying (snd (startVoice x y intensity now s)) (length (heap s)) = true /\
  Placement s (length (heap s)) (snd (startVoice x y intensity now s)).
Proof.
  intros Hinit.
  destruct (findIndex (isFree (heap s)) (voices s)) as [i|] eqn:Hfind.
  { rewrite (startVoice_free _ _ _ _ _ _ Hinit Hfind). cbn [fst snd].
    split; [reflexivity|]. split.
    - rewrite isPlaying_alloc, Nat.ltb_irrefl, Nat.eqb_refl. reflexivity.
    - destruct (findIndex_Some _ _ _ Hfind) as (r & Hr & Hfree & Hfirst).
      apply (PlaceFree _ _ _ i r); try assumption; try reflexivity.
      + unfold isPlaying. rewrite Hfree. reflexivity.
      + intros j q Hj Hq. unfold isPlaying. rewrite (Hfirst j q Hj Hq).
        reflexivity.
      + intros ref Href. rewrite isPlaying_alloc.
        destruct (Nat.ltb_spec ref (length (heap s))); [reflexivity | lia]. }
  destruct (Z.ltb_spec (Z.of_nat (length (voices s))) (maxVoices s)) as [Hroom | Hcap].
  { rewrite (startVoice_grow _ _ _ _ _ Hinit Hfind Hroom). cbn [fst snd].
    split; [reflexivity|]. split.
    - rewrite isPlaying_alloc, Nat.ltb_irrefl, Nat.eqb_refl. reflexivity.
    - apply PlaceGrow; try assumption; try reflexivity.
      intros ref Href. rewrite isPlaying_alloc.
      destruct (Nat.ltb_spec ref (length (heap s))); [reflexivity | lia]. }
  assert (voices s = [] \/ exists r0 rest, voices s = r0 :: rest)
    as [Hvoices | (r0 & rest & Hvoices)]
    by (destruct (voices s); eauto).
  { rewrite Hvoices in Hcap. simpl in Hcap.
    unfold startVoice. rewrite Hinit, Hvoices. cbn [negb findIndex length].
    destruct (Z.ltb_spec (Z.of_nat 0) (maxVoices s)) as [Hlt | Hge].
    { simpl in Hlt. lia. }
    cbn [lookup list_lookup stopVoice fst snd assign Nat.ltb Nat.leb length app].
    split; [reflexivity|]. split.
    - rewrite isPlaying_alloc, Nat.ltb_irrefl, Nat.eqb_refl. reflexivity.
    - apply PlaceEmpty; try assumption.
      + unfold with_voices. cbn [voices]. rewrite Hvoices. reflexivity.
      + intros ref Href. rewrite isPlaying_alloc.
        destruct (Nat.ltb_spec ref (length (heap s))); [reflexivity | lia]. }
  assert (isPlaying s r0 = true) as Hr0.
  { pose proof Hfind as Hall. apply findIndex_None in Hall.
    rewrite Hvoices in Hall.
    inversion Hall as [|? ? Hfree _]. unfold isPlaying. rewrite Hfree.
    reflexivity. }
  rewrite (startVoice_steal _ _ _ _ _ r0 rest Hinit Hfind Hcap Hvoices).
  cbn [fst snd].
  destruct (stopVoice_frame (Some r0) s) as (_ & _ & _ & _ & _ & Hlen).
  split; [reflexivity|]. split.
  - rewrite <- Hlen.
    rewrite isPlaying_alloc, Nat.ltb_irrefl, Nat.eqb_refl. reflexivity.
  - apply (PlaceSteal _ _ _ r0 rest); try assumption; try reflexivity.
    + rewrite <- Hlen at 1. rewrite isPlaying_alloc.
      pose proof (isPlaying_lt _ _ Hr0) as Hlt. rewrite Hlen.
      destruct (Nat.ltb_spec r0 (length (heap s))); [|lia].
      rewrite isPlaying_stopVoice, Nat.eqb_refl. apply andb_false_r.
    + intros ref Href Hne. rewrite <- Hlen at 1. rewrite isPlaying_alloc, Hlen.
      destruct (Nat.ltb_spec ref (length (heap s))); [|lia].
      rewrite isPlaying_stopVoice.
      destruct (Nat.eqb_spec ref r0); [contradiction|]. apply andb_true_r.
Qed.



Lemma slice_nonneg {A} (l : list A) (m : Z) :
  (0 <= m)%Z -> slice l m = drop (Z.to_nat m) l.
Proof.
  intros Hm. unfold slice.
  destruct (Z.ltb_spec m 0) as [|_]; [lia|].
  destruct (Z.le_ge_cases m (Z.of_nat (length l))) as [Hle | Hge].
  - rewrite Z.min_l by exact Hle. reflexivity.
  - rewrite Z.min_r by exact Hge. rewrite Nat2Z.id.
    rewrite !drop_ge by lia. reflexivity.
Qed.

(** C6, as the code has it: [setComplexity(c)] sets the maximum to
    [ceil(5c)] and never removes a slot.  When this lowers the maximum, the
    voices in the slots from index [ceil(5c)] on are released, in slot
    order, every other voice is left as it is, and at most [ceil(5c)] voices
    of the pool are playing afterwards; otherwise no voice is touched. *)
Theorem setComplexity_release (s : Synthesizer) (c : Q) (Hc : (0 <= c)%Q) :
  let s' := setComplexity c s in
  let m := Math_ceil (5 * c) in
  maxVoices s' = m /\
  voices s' = voices s /\
  ((maxVoices s <= m)%Z -> s' = with_maxVoices m s) /\
  ((m < maxVoices s)%Z ->
   s' = foldl (fun st ref => stopVoice (Some ref) st) (with_maxVoices m s)
              (drop (Z.to_nat m) (voices s)) /\
   (forall i ref, (Z.to_nat m <= i)%nat -> voices s !! i = Some ref ->
                  isPlaying s' ref = false) /\
   (forall ref, ref ∉ drop (Z.to_nat m) (voices s) ->
                isPlaying s' ref = isPlaying s ref) /\
   (Z.of_nat (playingCount s') <= m)%Z).
Proof.
  intros s' m.
  assert (0 <= m)%Z as Hm.
  { unfold m, Math_ceil. change 0%Z with (Qceiling 0).
    apply Qceiling_resp_le. lra. }
  destruct (setComplexity_frame c s) as (_ & Hmax & Hv & _).
  split; [exact Hmax|]. split; [exact Hv|]. split.
  - intros Hge. unfold s', setComplexity. cbn [maxVoices with_maxVoices].
    fold m. destruct (Z.ltb_spec m (maxVoices s)); [lia | reflexivity].
  - intros Hlt.
    assert (s' = foldl (fun st ref => stopVoice (Some ref) st)
                       (with_maxVoices m s) (drop (Z.to_nat m) (voices s)))
      as Heq.
    { unfold s', setComplexity. cbn [maxVoices with_maxVoices voices].
      fold m. destruct (Z.ltb_spec m (maxVoices s)); [|lia].
      rewrite slice_nonneg by exact Hm. reflexivity. }
    assert (forall ref, isPlaying s' ref =
              (isPlaying s ref &&
               negb (bool_decide (ref ∈ drop (Z.to_nat m) (voices s))))%bool)
      as Hplay.
    { intros ref. rewrite Heq, isPlaying_stopVoices. reflexivity. }
    split; [exact Heq|]. split; [|split].
    + intros i ref Hi Hlook. rewrite Hplay.
      rewrite bool_decide_eq_true_2; [apply andb_false_r|].
      apply list_elem_of_lookup. exists (i - Z.to_nat m)%nat.
      rewrite lookup_drop. rewrite <- Hlook. f_equal. lia.
    + intros ref Hout. rewrite Hplay.
      rewrite bool_decide_eq_false_2 by exact Hout. apply andb_true_r.
    + unfold playingCount. fold s' in Hv. rewrite Hv.
      rewrite <- (take_drop (Z.to_nat m) (voices s)) at 1.
      rewrite filter_app, length_app.
      rewrite (filter_playing_none s' (drop (Z.to_nat m) (voices s))).
      * pose proof (length_filter (fun ref => isPlaying s' ref = true)
                                  (take (Z.to_nat m) (voices s))) as Hle.
        rewrite length_take in Hle. cbn [length]. lia.
      * apply Forall_forall. intros ref Hin. rewrite Hplay.
        rewrite bool_decide_eq_true_2 by exact Hin. apply andb_false_r.
Qed.

Lemma setComplexity_release_witness :
  maxVoices Examples.shrunk = 3%Z /\
  (Z.of_nat (playingCount Examples.shrunk) <= 3)%Z.
Proof.
  destruct (setComplexity_release Examples.fullPool (3#5)
              ltac:(discriminate)) as (Hmax & _ & _ & Hshrink).
  split; [exact Hmax|].
  destruct (Hshrink ltac:(reflexivity)) as (_ & _ & _ & Hcount).
  exact Hcount.
Defined.

(** C6 fails as stated.  After the pool of five is cut to three, the pool
    still has five slots; the voices released are those of the last slots,
    3 and 4, while the voice of slot 0 plays on; the sixth touch reuses the
    released slot 3, and four voices play although the maximum is three;
    setting the same complexity again releases nothing, so the count read
    right after [setComplexity(0.6)] is 4 > 3 = ceil(5 * 0.6). *)
Lemma setComplexity_counterexample :
  (length (voices Examples.shrunk) = 5%nat /\ maxVoices Examples.shrunk = 3%Z) /\
  (voices Examples.shrunk = [0; 1; 2; 3; 4]%nat /\
   isPlaying Examples.shrunk 0 = true /\
   isPlaying Examples.shrunk 3 = false /\
   isPlaying Examples.shrunk 4 = false) /\
  (Math_ceil (5 * (3#5)) = 3%Z /\
   maxVoices Examples.refilled = 3%Z /\
   playingCount Examples.refilled = 4%nat).
Proof. repeat split. Qed.

End VoicePool.

(** ** Parameters and the effect chain *)

Section Parameters.
Import JS Synth.
Local Open Scope Q_scope.





Lemma setParameter_nodes (param : string) (value : Q) (s : Synthesizer) :
  nodes (setParameter param value s) =
    if decide (param = "grime") then setGrime value (nodes s)
    else if decide (param = "flow") then setFlow value (nodes s)
    else if decide (param = "shimmer") then setShimmer value (nodes s)
    else if decide (param = "depth") then setDepth value (nodes s)
    else nodes s.
Proof. unfold setParameter. repeat case_decide; reflexivity. Qed.


(** The stored value is the clamped one. *)
Lemma setParameter_stored (param : string) (value : Q) (s : Synthesizer) :
  exists stored,
    getParameter param (setParameter param value s) = Some stored /\
    stored == Qmin 1 (Qmax 0 value) /\
    0 <= stored <= 1 /\
    (0 <= value <= 1 -> stored == value).
Proof.
  exists (Math_max 0 (Math_min 1 value)). unfold getParameter.
  destruct (setParameter_frame param value s) as (_ & _ & _ & _ & ->).
  rewrite lookup_insert_eq. split; [reflexivity|].
  split; [apply clamp01_minmax|]. split; [apply clamp01_range|].
  apply clamp01_id.
Qed.








End Parameters.

(** ** Loop controller: recording, playback and clearing *)

Section LoopStates.
Import JS Loop.
Local Open Scope Q_scope.

Lemma invariant_startPlaybackAtPosition (position now : Q) (s : LoopController) :
  invariant s -> invariant (snd (startPlaybackAtPosition position now s)).
Proof.
  intros Hinv. unfold startPlaybackAtPosition.
  destruct s as [ini rec pl buf dur rst pst src mr ch og vol mx ost rd od rate].
  cbn. destruct buf as [b|]; [|exact Hinv].
  destruct pl; [exact Hinv|]. cbn.
  destruct (Qltb _ 0); crush_invariant.
Qed.

Lemma invariant_stopPlayback (s : LoopController) :
  invariant s -> invariant (snd (stopPlayback s)).
Proof.
  intros Hinv. unfold stopPlayback.
  destruct s as [ini rec pl buf dur rst pst src mr ch og vol mx ost rd od rate].
  cbn. destruct pl; [|exact Hinv]. destruct src; [|exact Hinv].
  crush_invariant.
Qed.

Lemma stopPlayback_stops (s : LoopController) :
  invariant s -> isPlaying (snd (stopPlayback s)) = false.
Proof.
  intros (Hplay & _). unfold stopPlayback.
  destruct (isPlaying s) eqn:Hp; [|exact Hp].
  destruct (Hplay eq_refl) as [[src ->] _]. reflexivity.
Qed.

Lemma invariant_stopRecording (now : Q) (s : LoopController) :
  invariant s -> invariant (snd (stopRecording now s)).
Proof.
  intros Hinv. unfold stopRecording, stopRecorder.
  destruct s as [ini rec pl buf dur rst pst src mr ch og vol mx ost rd od rate].
  cbn. destruct rec; [|exact Hinv]. cbn.
  destruct mr as [[kind [|]]|]; cbn; destruct buf; crush_invariant.
Qed.

Lemma invariant_startRecording (now : Q) (ok : bool) (s : LoopController) :
  invariant s -> invariant (snd (startRecording now ok s)).
Proof.
  intros Hinv. unfold startRecording.
  destruct s as [ini rec pl buf dur rst pst src mr ch og vol mx ost rd od rate].
  cbn. destruct ini; [|exact Hinv]. cbn.
  destruct pl, ok; crush_invariant.
  all: match goal with H : true = true -> _ |- _ => destruct (H eq_refl); eauto end.
Qed.

Lemma invariant_clear (now : Q) (s : LoopController) :
  invariant s -> invariant (snd (clear now s)).
Proof.
  intros Hinv. unfold clear.
  set (s1 := if isRecording s then _ else s).
  assert (invariant s1) as H1
    by (unfold s1; destruct (isRecording s);
        [apply invariant_stopRecording|]; exact Hinv).
  set (s2 := if isPlaying s1 then _ else s1).
  assert (invariant s2 /\ isPlaying s2 = false) as [H2 Hstop].
  { unfold s2. destruct (isPlaying s1) eqn:Hp.
    - split; [apply invariant_stopPlayback | apply stopPlayback_stops]; exact H1.
    - split; assumption. }
  clearbody s2. clear s1 H1 Hinv.
  destruct s2 as [ini rec pl buf dur rst pst src mr ch og vol mx ost rd od rate].
  cbn in Hstop. subst pl. unfold stopRecorder. cbn.
  destruct mr as [[kind [|]]|], rd, od; crush_invariant.
Qed.

(** Every reachable state satisfies the invariant. *)
Lemma reachable_invariant (s : LoopController) : reachable s -> invariant s.
Proof.
  induction 1 as [rate | op s Hs IH].
  - unfold invariant. cbn. repeat split; intros; discriminate.
  - destruct op; cbn [run].
    + unfold initialize.
      destruct (isInitialized s || negb synthReady)%bool; [exact IH|].
      destruct s. crush_invariant.
    + apply invariant_startRecording. exact IH.
    + apply invariant_stopRecording. exact IH.
    + unfold dataAvailable. destruct (0 <? size)%N; [|exact IH].
      destruct s. crush_invariant.
    + unfold processRecordingDone. destruct decoded as [b|]; [|exact IH].
      apply invariant_startPlaybackAtPosition.
      destruct s. crush_invariant.
    + unfold processOverdubBegin. destruct (recordedChunks s); [exact IH|].
      cbn [snd]. apply invariant_stopPlayback. exact IH.
    + unfold processOverdubDone.
      destruct originalBuffer as [ob|]; [|exact IH].
      destruct decoded as [od|]; [|exact IH].
      destruct (mixOverdub _ _ _ _ _ _) as [mixedBuffer|]; [|exact IH].
      apply invariant_startPlaybackAtPosition.
      destruct s. crush_invariant.
    + unfold togglePlayback. destruct (isPlaying s).
      * apply invariant_stopPlayback. exact IH.
      * destruct (recordedBuffer s); [|exact IH].
        apply invariant_startPlaybackAtPosition. exact IH.
    + unfold setVolume. destruct s. cbn.
      destruct outputGain0; crush_invariant.
    + apply invariant_clear. exact IH.
Qed.

Lemma reachable_runAll_loop (ops : list Op) :
  forall s, reachable s -> reachable (runAll ops s).
Proof.
  induction ops as [|op ops IH]; intros s Hs; [exact Hs|].
  apply (IH (run op s)). constructor. exact Hs.
Qed.

(** The duration [stopRecording] commits when there is no loop yet. *)
Lemma stopRecording_new (now : Q) (s : LoopController) :
  isRecording s = true -> recordedBuffer s = None ->
  (1#10) <= maxLoopDuration s ->
  fst (stopRecording now s) = true /\
  isRecording (snd (stopRecording now s)) = false /\
  loopDuration (snd (stopRecording now s)) ==
    Spec.clamp (1#10) (maxLoopDuration s) (now - recordStartTime s).
Proof.
  intros Hrec Hbuf Hmax. unfold stopRecording, stopRecorder. rewrite Hrec.
  destruct s as [ini rec pl buf dur rst pst src mr ch og vol mx ost rd od rate].
  cbn in *. subst buf.
  assert (forall d,
             loopDuration
               (snd (true, set_loopDuration d
                       (mkLoopController ini false pl None dur rst pst src mr ch
                                         og vol mx ost rd od rate))) = d) as Hd
      by reflexivity.
  unfold Spec.clamp.
  destruct mr as [[kind [|]]|]; cbn;
    (split; [reflexivity|]; split; [reflexivity|]);
    destruct (Qltb (now - rst) (1#10)) eqn:E1;
    destruct (Qltb (now - rst) mx) eqn:E2;
    repeat match goal with
           | |- context [Qltb ?a ?b] => destruct (Qltb a b) eqn:?
           end;
    repeat match goal with
           | H : Qltb _ _ = true |- _ => apply Qltb_lt in H
           | H : Qltb _ _ = false |- _ => apply Qltb_ge in H
           end;
    lra.
Qed.

(** With a loop in place [stopRecording] leaves the duration alone. *)
Lemma stopRecording_existing (now : Q) (s : LoopController) :
  is_Some (recordedBuffer s) ->
  loopDuration (snd (stopRecording now s)) = loopDuration s.
Proof.
  intros [b Hb]. unfold stopRecording, stopRecorder.
  destruct s as [ini rec pl buf dur rst pst src mr ch og vol mx ost rd od rate].
  cbn in *. subst buf. destruct rec; [|reflexivity]. cbn.
  destruct mr as [[kind [|]]|]; reflexivity.
Qed.

(** C4: when [stopRecording] ends a recording made while no loop buffer
    exists, the committed duration is the elapsed time clamped to
    [0.1, maxLoopDuration], and [maxLoopDuration] is 30: less than 0.1 s
    commits 0.1, more than 30 s commits 30, anything between (5.0, say)
    commits itself; the same holds for a recording started at [t0] and
    stopped [t] later.  When it ends an overdub, the duration is not
    touched. *)
Theorem stopRecording_commits (s : LoopController) (now : Q)
        (Hreach : reachable s) :
  let elapsed := now - recordStartTime s in
  let s' := snd (stopRecording now s) in
  maxLoopDuration s = 30 /\
  (isRecording s = true -> recordedBuffer s = None ->
   fst (stopRecording now s) = true /\
   loopDuration s' == Spec.clamp (1#10) (maxLoopDuration s) elapsed /\
   (elapsed < 1#10 -> loopDuration s' == 1#10) /\
   (maxLoopDuration s < elapsed -> loopDuration s' == maxLoopDuration s) /\
   (1#10 <= elapsed <= maxLoopDuration s -> loopDuration s' == elapsed) /\
   (elapsed == 5 -> loopDuration s' == 5)) /\
  (forall t0 t,
      isInitialized s = true -> isPlaying s = false -> recordedBuffer s = None ->
      loopDuration (snd (stopRecording (t0 + t) (snd (startRecording t0 true s))))
      == Spec.clamp (1#10) 30 t) /\
  (isOverdubRecording s = true -> loopDuration s' = loopDuration s).
Proof.
  intros elapsed s'.
  destruct (reachable_invariant s Hreach) as (Hplay & Hover & Hmax).
  split; [exact Hmax|]. split; [|split].
  - intros Hrec Hbuf.
    destruct (stopRecording_new now s Hrec Hbuf) as (Hret & _ & Hdur).
    { rewrite Hmax. discriminate. }
    fold s' elapsed in Hdur. split; [exact Hret|]. split; [exact Hdur|].
    rewrite Hmax in *.
    repeat split; intros H; rewrite Hdur.
    + apply clamp_below; [discriminate | lra].
    + apply clamp_above. lra.
    + apply clamp_inside. exact H.
    + rewrite clamp_inside by lra. exact H.
  - intros t0 t Hinit Hnot Hbuf.
    assert (invariant (snd (startRecording t0 true s))) as (_ & _ & Hmax')
      by (apply invariant_startRecording, reachable_invariant; exact Hreach).
    destruct (stopRecording_new (t0 + t) (snd (startRecording t0 true s)))
      as (_ & _ & Hdur).
    + unfold startRecording. rewrite Hinit, Hnot. reflexivity.
    + unfold startRecording. rewrite Hinit, Hnot. exact Hbuf.
    + rewrite Hmax'. discriminate.
    + rewrite Hdur, Hmax'.
      assert (recordStartTime (snd (startRecording t0 true s)) = t0) as ->
        by (unfold startRecording; rewrite Hinit, Hnot; reflexivity).
      unfold Spec.clamp.
      assert (t0 + t - t0 == t) as Ht by ring.
      repeat match goal with
             | |- context [Qltb ?a ?b] => destruct (Qltb a b) eqn:?
             end;
        repeat match goal with
               | H : Qltb _ _ = true |- _ => apply Qltb_lt in H
               | H : Qltb _ _ = false |- _ => apply Qltb_ge in H
               end;
        lra.
  - intros Hoverdub. apply stopRecording_existing.
    unfold isOverdubRecording in Hoverdub.
    apply andb_true_iff in Hoverdub as [_ Hkind].
    destruct (mediaRecorder s) as [[[|] st]|] eqn:Hmr; try discriminate.
    exact (Hover st eq_refl).
Qed.

Lemma stopRecording_commits_witness :
  loopDuration (snd (stopRecording 7 Examples.recordingNew)) == 5 /\
  loopDuration (snd (stopRecording 12 Examples.recordingOverdub)) = 1.
Proof.
  split.
  - destruct (stopRecording_commits Examples.recordingNew 7
                (reachable_runAll_loop _ _ (reachable_new _)))
      as (_ & Hnew & _).
    destruct (Hnew eq_refl eq_refl) as (_ & _ & _ & _ & _ & Hfive).
    apply Hfive. reflexivity.
  - destruct (stopRecording_commits Examples.recordingOverdub 12
                (reachable_runAll_loop _ _ (reachable_new _)))
      as (_ & _ & _ & Hoverdub).
    rewrite Hoverdub; reflexivity.
Defined.

(** C8: in every reachable state [clear()] succeeds and leaves the engine
    not recording, not playing, without a loop and with duration 0 (the
    volume is kept); a second [clear()] succeeds and changes nothing. *)
Theorem clear_resets (s : LoopController) (now now' : Q)
        (Hreach : reachable s) :
  let s' := snd (clear now s) in
  fst (clear now s) = true /\
  getState s' = mkState false false false 0 (volume s) /\
  recordedBuffer s' = None /\
  fst (clear now' s') = true /\
  snd (clear now' s') = s'.
Proof.
  intros s'.
  pose proof (reachable_invariant s Hreach) as Hinv.
  unfold s', clear.
  set (s1 := if isRecording s then _ else s).
  assert (invariant s1 /\ isRecording s1 = false /\ volume s1 = volume s)
    as (H1 & Hrec & Hvol).
  { unfold s1. destruct (isRecording s) eqn:Hr.
    - split; [apply invariant_stopRecording; exact Hinv|].
      unfold stopRecording, stopRecorder. rewrite Hr.
      destruct s as [ini rec pl buf dur rst pst src mr ch og vol mx ost rd od rate].
      cbn. destruct mr as [[kind [|]]|], buf; cbn; split; reflexivity.
    - split; [exact Hinv | split; [exact Hr | reflexivity]]. }
  set (s2 := if isPlaying s1 then _ else s1).
  assert (isPlaying s2 = false /\ isRecording s2 = false /\ volume s2 = volume s)
    as (Hplay & Hrec2 & Hvol2).
  { unfold s2. destruct (isPlaying s1) eqn:Hp.
    - split; [apply stopPlayback_stops; exact H1|].
      unfold stopPlayback. rewrite Hp.
      destruct (playbackSource s1); cbn; split; assumption.
    - split; [exact Hp | split; assumption]. }
  clearbody s2. clear s1 H1 Hrec Hvol Hinv.
  destruct s2 as [ini rec pl buf dur rst pst src mr ch og vol mx ost rd od rate].
  cbn in Hplay, Hrec2, Hvol2. subst pl rec vol. unfold stopRecorder. cbn.
  destruct mr as [[kind [|]]|], rd, od; cbn; repeat split.
Qed.

Lemma clear_resets_witness :
  Loop.getState (snd (clear 12 Examples.recordingOverdub))
  = mkState false false false 0 (8#10).
Proof.
  destruct (clear_resets Examples.recordingOverdub 12 13
              (reachable_runAll_loop _ _ (reachable_new _)))
    as (_ & Hstate & _).
  exact Hstate.
Defined.

End LoopStates.

(** ** Overdub mixing *)

Section Mixing.
Import JS Loop.
Local Open Scope Q_scope.










(** The phase of the overdub within the loop. *)
Lemma fmod_qmod (a b : Q) : 0 <= a -> 0 < b -> fmod a b = Spec.qmod a b.
Proof.
  intros Ha Hb. unfold fmod, Spec.qmod, trunc.
  destruct (Qltb (a / b) 0) eqn:E; [|reflexivity].
  apply Qltb_lt in E. exfalso.
  assert (0 <= a / b) by (apply Qle_shift_div_l; [exact Hb | lra]).
  lra.
Qed.

Lemma qmod_range (a b : Q) : 0 < b -> 0 <= Spec.qmod a b < b.
Proof.
  intros Hb. unfold Spec.qmod.
  pose proof (Qfloor_le (a / b)) as Hlo.
  pose proof (Qlt_floor (a / b)) as Hhi.
  rewrite inject_Z_plus in Hhi. change (inject_Z 1) with 1 in Hhi.
  set (f := inject_Z (Qfloor (a / b))) in *. clearbody f.
  assert (b * (a / b) == a) as Hab by (field; lra).
  assert (b * f <= b * (a / b)) as H1
    by (rewrite !(Qmult_comm b); apply Qmult_le_compat_r; lra).
  assert (b * (a / b) < b * (f + 1)) as H2
    by (rewrite !(Qmult_comm b); apply Qmult_lt_compat_r; lra).
  rewrite Hab in H1, H2. split; lra.
Qed.








(** *** Wraparound *)











End Mixing.

(** ** The life of a voice *)

Section VoiceLifecycle.
Import JS Synth.
Local Open Scope Q_scope.

Lemma isPlaying_updateVoicePosition (r : nat) (x y : Q) (s : Synthesizer)
      (ref : nat) :
  isPlaying (updateVoicePosition r x y s) ref = isPlaying s ref.
Proof.
  rewrite !isPlaying_lookup. unfold updateVoicePosition.
  destruct (heap s !! r) as [v|] eqn:Hr; [|reflexivity].
  destruct (playing v) eqn:Hp; [|reflexivity].
  unfold with_heap; cbn [heap].
  destruct (decide (ref = r)) as [->|Hne].
  - rewrite list_lookup_insert_eq by (eapply lookup_lt_Some; eauto).
    rewrite Hr. cbn. now rewrite Hp.
  - rewrite list_lookup_insert_ne by congruence. reflexivity.
Qed.

Lemma isPlaying_setComplexity (c : Q) (s : Synthesizer) (ref : nat) :
  isPlaying (setComplexity c s) ref = true -> isPlaying s ref = true.
Proof.
  unfold setComplexity.
  destruct (_ <? _)%Z.
  - rewrite isPlaying_stopVoices. intros [H _]%andb_true_iff. exact H.
  - intros H. exact H.
Qed.

(** A voice that sounds is in the pool. *)
Lemma reachable_playing_pooled (s : Synthesizer) :
  reachable s -> forall ref, isPlaying s ref = true -> ref ∈ voices s.
Proof.
  induction 1 as [st | op s Hreach IH]; intros ref Hplay.
  - rewrite isPlaying_lookup in Hplay. cbn in Hplay. discriminate.
  - destruct op as [ok | x y intensity now | r | r x y | param value | c |];
      cbn [run] in *.
    + unfold initialize in *.
      destruct (isInitialized s); [auto|]. destruct ok; auto.
    + destruct (isInitialized s) eqn:Hinit.
      2:{ unfold startVoice in *. rewrite Hinit in *. cbn in *. auto. }
      destruct (startVoice_placement x y intensity now s Hinit)
        as (_ & _ & Hplace).
      destruct (startVoice_frame x y intensity now s) as (_ & _ & _ & _ & Hlen).
      destruct (Hlen Hinit) as (_ & _ & Hheap).
      pose proof (isPlaying_lt _ _ Hplay) as Hlt. rewrite Hheap in Hlt.
      set (s' := snd (startVoice x y intensity now s)) in *.
      destruct (decide (ref = length (heap s))) as [-> | Hne].
      * destruct Hplace as [i r Hfind Hr _ _ Hv _ | _ _ Hv _
                            | r0 rest _ _ _ Hv _ _ _ | _ _ Hv _]; rewrite Hv.
        -- apply lookup_lt_Some in Hr.
           apply list_elem_of_lookup. exists i.
           now apply list_lookup_insert_eq.
        -- apply elem_of_app. right. constructor.
        -- constructor.
        -- constructor.
      * assert (ref < length (heap s))%nat as Hlt' by lia.
        destruct Hplace as [i r Hfind Hr Hfree _ Hv Hsame | _ _ Hv Hsame
                            | r0 rest _ _ Hvs Hv _ Hr0 Hsame | Hvs _ Hv Hsame];
          rewrite Hv.
        -- rewrite Hsame in Hplay by exact Hlt'.
           pose proof (IH _ Hplay) as Hin.
           apply list_elem_of_lookup in Hin as [j Hj].
           assert (j <> i) by (intros ->; congruence).
           apply list_elem_of_lookup. exists j.
           rewrite list_lookup_insert_ne by congruence. exact Hj.
        -- rewrite Hsame in Hplay by exact Hlt'.
           apply elem_of_app. left. auto.
        -- assert (ref <> r0) by (intros ->; congruence).
           rewrite Hsame in Hplay by assumption.
           pose proof (IH _ Hplay) as Hin. rewrite Hvs in Hin.
           apply elem_of_cons in Hin as [? | Hin]; [congruence|].
           now constructor.
        -- rewrite Hsame in Hplay by exact Hlt'.
           pose proof (IH _ Hplay) as Hin. rewrite Hvs in Hin.
           inversion Hin.
    + destruct (stopVoice_frame (Some r) s) as (_ & _ & -> & _).
      rewrite isPlaying_stopVoice in Hplay.
      apply andb_true_iff in Hplay as [Hplay _]. auto.
    + destruct (updateVoicePosition_frame r x y s) as (_ & _ & -> & _).
      rewrite isPlaying_updateVoicePosition in Hplay. auto.
    + destruct (setParameter_frame param value s) as (_ & _ & -> & Hheap & _).
      apply IH. rewrite isPlaying_lookup in *. now rewrite Hheap in Hplay.
    + destruct (setComplexity_frame c s) as (_ & _ & -> & _).
      apply IH. eapply isPlaying_setComplexity; eauto.
    + exfalso. unfold stopAllVoices in Hplay.
      assert (isPlaying (foldl (fun st r => stopVoice (Some r) st) s (voices s)) ref
              = true) as Hplay' by exact Hplay.
      rewrite isPlaying_stopVoices in Hplay'.
      apply andb_true_iff in Hplay' as [Hp Hnot].
      apply IH in Hp. rewrite bool_decide_eq_true_2 in Hnot by exact Hp.
      discriminate.
Qed.

Lemma filter_without (p q : nat -> bool) (r : nat) (l : list nat) :
  r ∉ l -> (forall x, x <> r -> q x = p x) ->
  filter (fun x => q x = true) l = filter (fun x => p x = true) l.
Proof.
  intros Hnot Hq. induction l as [|a l IH]; [reflexivity|].
  apply not_elem_of_cons in Hnot as [Hne Hnot].
  rewrite !filter_cons. rewrite (Hq a) by congruence.
  rewrite IH by exact Hnot. reflexivity.
Qed.

Lemma filter_remove_one (p q : nat -> bool) (r : nat) (l : list nat) :
  NoDup l -> r ∈ l -> p r = true -> q r = false ->
  (forall x, x <> r -> q x = p x) ->
  S (length (filter (fun x => q x = true) l))
  = length (filter (fun x => p x = true) l).
Proof.
  intros Hnd Hin Hp Hq Hsame. induction l as [|a l IH]; [inversion Hin|].
  apply NoDup_cons in Hnd as [Hnot Hnd].
  rewrite !filter_cons.
  destruct (decide (a = r)) as [-> | Hne].
  - rewrite Hp, Hq.
    destruct (decide (true = true)) as [_|]; [|congruence].
    destruct (decide (false = true)) as [|_]; [discriminate|].
    cbn. f_equal. f_equal. now apply filter_without with (r := r).
  - apply elem_of_cons in Hin as [|Hin]; [congruence|].
    rewrite (Hsame a) by exact Hne.
    destruct (decide (p a = true)); cbn; rewrite <- (IH Hnd Hin); reflexivity.
Qed.

(** X1 -- [stopVoice] releases the voice behind the handle and no other,
    leaves the pool, the parameters and the effect nodes as they are, does
    nothing on [undefined] or on a voice that is already released (so
    stopping twice is stopping once), keeps the released voice's pitch and
    position, and lowers the number of sounding pool voices by exactly one
    when the voice was sounding. *)
Theorem stopVoice_releases_one (s : Synthesizer) (ref : nat)
        (Hreach : reachable s) :
  let s' := stopVoice (Some ref) s in
  isPlaying s' ref = false /\
  (forall other, other <> ref -> heap s' !! other = heap s !! other) /\
  (forall v, heap s !! ref = Some v -> heap s' !! ref = Some (released v) \/
                                        (playing v = false /\ s' = s)) /\
  (voices s' = voices s /\ params s' = params s /\ nodes s' = nodes s /\
   maxVoices s' = maxVoices s) /\
  stopVoice (Some ref) s' = s' /\
  stopVoice None s = s /\
  (isPlaying s ref = false -> s' = s) /\
  (isPlaying s ref = true -> S (playingCount s') = playingCount s).
Proof.
  intros s'.
  destruct (stopVoice_frame (Some ref) s) as (_ & Hmax & Hvoices & Hparams & Hnodes & _).
  assert (isPlaying s' ref = false) as Hoff.
  { subst s'. rewrite isPlaying_stopVoice. rewrite Nat.eqb_refl.
    now rewrite andb_false_r. }
  assert (forall t, isPlaying t ref = false -> stopVoice (Some ref) t = t) as Hnoop.
  { intros t Ht. rewrite isPlaying_lookup in Ht. unfold stopVoice.
    destruct (heap t !! ref) as [v|]; [|reflexivity].
    now rewrite Ht. }
  split; [exact Hoff|].
  split.
  { intros other Hne. subst s'. unfold stopVoice.
    destruct (heap s !! ref) as [v|]; [|reflexivity].
    destruct (playing v); [|reflexivity].
    unfold with_heap; cbn [heap].
    now rewrite list_lookup_insert_ne by congruence. }
  split.
  { intros v Hv. subst s'. unfold stopVoice. rewrite Hv.
    destruct (playing v) eqn:Hp; [left | right; auto].
    unfold with_heap; cbn [heap].
    apply list_lookup_insert_eq. eapply lookup_lt_Some; eauto. }
  split; [auto|].
  split; [apply Hnoop; exact Hoff|].
  split; [reflexivity|].
  split; [apply Hnoop|].
  intros Hplay. unfold playingCount. subst s'. rewrite Hvoices.
  apply filter_remove_one with (r := ref).
  - apply reachable_wellFormed; exact Hreach.
  - apply reachable_playing_pooled; assumption.
  - exact Hplay.
  - exact Hoff.
  - intros x Hx. rewrite isPlaying_stopVoice.
    destruct (Nat.eqb_spec x ref); [congruence|]. now rewrite andb_true_r.
Qed.

Lemma stopVoice_releases_one_witness :
  S (playingCount (stopVoice (Some 2%nat) Examples.fullPool))
  = playingCount Examples.fullPool.
Proof.
  assert (reachable Examples.fullPool) as Hreach.
  { apply reachable_runAll. apply (reachable_run (OpInitialize true)).
    apply reachable_new. }
  destruct (stopVoice_releases_one Examples.fullPool 2 Hreach)
    as (_ & _ & _ & _ & _ & _ & _ & Hcount).
  apply Hcount. reflexivity.
Defined.

End VoiceLifecycle.

(** ** Moving voices, silencing the pool, and the order of parameter calls *)

Section VoiceMoves.
Import JS Synth.
Local Open Scope Q_scope.

Lemma synthesizer_ext (s t : Synthesizer) :
  isInitialized s = isInitialized t -> maxVoices s = maxVoices t ->
  settings s = settings t -> heap s = heap t -> voices s = voices t ->
  params s = params t -> nodes s = nodes t -> s = t.
Proof.
  destruct s, t; cbn; intros; subst; reflexivity.
Qed.






(** X3 -- every sounding voice is in the pool, so that [stopAllVoices]
    silences the engine: afterwards the pool is empty and no voice sounds,
    wherever its handle is kept; the effect chain, the parameters and the
    voice limit are untouched; a second call changes nothing; and the next
    voice starts a new pool at slot 0. *)
Theorem stopAllVoices_silences (s : Synthesizer) (Hreach : reachable s) :
  let s' := stopAllVoices s in
  (forall ref, isPlaying s ref = true -> ref ∈ voices s) /\
  (playingCount s <= length (voices s))%nat /\
  voices s' = [] /\
  (forall ref, isPlaying s' ref = false) /\
  playingCount s' = O /\
  (isInitialized s' = isInitialized s /\ maxVoices s' = maxVoices s /\
   params s' = params s /\ nodes s' = nodes s /\
   length (heap s') = length (heap s)) /\
  stopAllVoices s' = s' /\
  (forall x y intensity now,
      isInitialized s = true ->
      voices (snd (startVoice x y intensity now s')) = [length (heap s)] /\
      playingCount (snd (startVoice x y intensity now s')) = 1%nat).
Proof.
  intros s'.
  pose proof (reachable_playing_pooled s Hreach) as Hpool.
  destruct (stopVoices_frame (voices s) s) as (Hi & Hm & _ & Hp & Hn & Hl).
  assert (forall ref, isPlaying s' ref = false) as Hsilent.
  { intros ref. subst s'. unfold stopAllVoices.
    destruct (isPlaying (with_voices [] _) ref) eqn:Hplay; [|reflexivity].
    exfalso.
    assert (isPlaying (foldl (fun st r => stopVoice (Some r) st) s (voices s)) ref
            = true) as Hplay' by exact Hplay.
    rewrite isPlaying_stopVoices in Hplay'.
    apply andb_true_iff in Hplay' as [Hon Hnot].
    apply Hpool in Hon. rewrite bool_decide_eq_true_2 in Hnot by exact Hon.
    discriminate. }
  split; [exact Hpool|].
  split; [apply playingCount_le_length|].
  split; [reflexivity|].
  split; [exact Hsilent|].
  split; [reflexivity|].
  split; [subst s'; unfold stopAllVoices; cbn; auto|].
  split; [reflexivity|].
  intros x y intensity now Hinit.
  assert (isInitialized s' = true) as Hinit'
      by (rewrite <- Hinit; exact Hi).
  assert (length (heap s') = length (heap s)) as Hlen
      by exact Hl.
  destruct (startVoice_placement x y intensity now s' Hinit')
    as (_ & Hon & Hplace).
  rewrite Hlen in *.
  assert (voices (snd (startVoice x y intensity now s')) = [length (heap s)])
    as Hvoices.
  { destruct Hplace as [i r Hfind _ _ _ _ _ | _ _ Hv _
                        | r0 rest _ _ Hvs _ _ _ _ | _ _ Hv _].
    - discriminate Hfind.
    - exact Hv.
    - discriminate Hvs.
    - exact Hv. }
  split; [exact Hvoices|].
  unfold playingCount. rewrite Hvoices.
  rewrite filter_cons, Hon.
  destruct (decide (true = true)); [reflexivity | congruence].
Qed.

Lemma stopAllVoices_silences_witness :
  playingCount Examples.fullPool = 5%nat /\
  playingCount (stopAllVoices Examples.fullPool) = O.
Proof.
  assert (reachable Examples.fullPool) as Hreach.
  { apply reachable_runAll. apply (reachable_run (OpInitialize true)).
    apply reachable_new. }
  split; [reflexivity|].
  destruct (stopAllVoices_silences Examples.fullPool Hreach)
    as (_ & _ & _ & _ & Hcount & _).
  exact Hcount.
Defined.

Lemma setGrime_setGrime (v w : Q) (n : EffectNodes) :
  setGrime w (setGrime v n) = setGrime w n.
Proof.
  unfold setGrime.
  destruct n as [[?|] [?|] [?|] ? ? ? ? ? ?]; reflexivity.
Qed.

Lemma setFlow_setFlow (v w : Q) (n : EffectNodes) :
  setFlow w (setFlow v n) = setFlow w n.
Proof.
  unfold setFlow.
  destruct n as [? ? ? [?|] [?|] [?|] ? ? ?]; reflexivity.
Qed.

Lemma setShimmer_setShimmer (v w : Q) (n : EffectNodes) :
  setShimmer w (setShimmer v n) = setShimmer w n.
Proof.
  unfold setShimmer.
  destruct n as [? ? ? ? ? ? [?|] [?|] ?]; reflexivity.
Qed.

Lemma setDepth_setDepth (v w : Q) (n : EffectNodes) :
  setDepth w (setDepth v n) = setDepth w n.
Proof.
  unfold setDepth.
  destruct n as [? ? ? ? ? ? ? ? [?|]]; reflexivity.
Qed.

(** The four effect updates write to disjoint nodes. *)
Lemma setGrime_setFlow (v w : Q) (n : EffectNodes) :
  setGrime v (setFlow w n) = setFlow w (setGrime v n).
Proof.
  unfold setGrime, setFlow.
  destruct n as [[?|] [?|] [?|] [?|] [?|] [?|] ? ? ?]; reflexivity.
Qed.

Lemma setGrime_setShimmer (v w : Q) (n : EffectNodes) :
  setGrime v (setShimmer w n) = setShimmer w (setGrime v n).
Proof.
  unfold setGrime, setShimmer.
  destruct n as [[?|] [?|] [?|] ? ? ? [?|] [?|] ?]; reflexivity.
Qed.

Lemma setGrime_setDepth (v w : Q) (n : EffectNodes) :
  setGrime v (setDepth w n) = setDepth w (setGrime v n).
Proof.
  unfold setGrime, setDepth.
  destruct n as [[?|] [?|] [?|] ? ? ? ? ? [?|]]; reflexivity.
Qed.

Lemma setFlow_setShimmer (v w : Q) (n : EffectNodes) :
  setFlow v (setShimmer w n) = setShimmer w (setFlow v n).
Proof.
  unfold setFlow, setShimmer.
  destruct n as [? ? ? [?|] [?|] [?|] [?|] [?|] ?]; reflexivity.
Qed.

Lemma setFlow_setDepth (v w : Q) (n : EffectNodes) :
  setFlow v (setDepth w n) = setDepth w (setFlow v n).
Proof.
  unfold setFlow, setDepth.
  destruct n as [? ? ? [?|] [?|] [?|] ? ? [?|]]; reflexivity.
Qed.

Lemma setShimmer_setDepth (v w : Q) (n : EffectNodes) :
  setShimmer v (setDepth w n) = setDepth w (setShimmer v n).
Proof.
  unfold setShimmer, setDepth.
  destruct n as [? ? ? ? ? ? [?|] [?|] [?|]]; reflexivity.
Qed.

Lemma setParameter_settings (param : string) (value : Q) (s : Synthesizer) :
  settings (setParameter param value s) = settings s.
Proof.
  unfold setParameter. decide_names; reflexivity.
Qed.

(** X4 -- the order of [setParameter] calls: a second call for the same
    parameter makes the first one invisible (the last write wins, for the
    stored value and for the effect nodes), and calls for different
    parameters commute, so that the state after a series of knob movements
    depends only on the last value given to each parameter. *)
Theorem setParameter_last_write (s : Synthesizer) (p q : string) (v w : Q) :
  setParameter p w (setParameter p v s) = setParameter p w s /\
  (p <> q ->
   setParameter p v (setParameter q w s) = setParameter q w (setParameter p v s)).
Proof.
  split.
  - destruct (setParameter_frame p w (setParameter p v s))
      as (Hi1 & Hm1 & Hv1 & Hh1 & Hp1).
    destruct (setParameter_frame p v s) as (Hi2 & Hm2 & Hv2 & Hh2 & Hp2).
    destruct (setParameter_frame p w s) as (Hi3 & Hm3 & Hv3 & Hh3 & Hp3).
    apply synthesizer_ext; try congruence.
    + now rewrite !setParameter_settings.
    + rewrite Hp1, Hp2, Hp3. apply insert_insert_eq.
    + rewrite !setParameter_nodes.
      decide_names; auto using setGrime_setGrime, setFlow_setFlow,
        setShimmer_setShimmer, setDepth_setDepth.
  - intros Hne.
    destruct (setParameter_frame p v (setParameter q w s))
      as (Hi1 & Hm1 & Hv1 & Hh1 & Hp1).
    destruct (setParameter_frame q w s) as (Hi2 & Hm2 & Hv2 & Hh2 & Hp2).
    destruct (setParameter_frame q w (setParameter p v s))
      as (Hi3 & Hm3 & Hv3 & Hh3 & Hp3).
    destruct (setParameter_frame p v s) as (Hi4 & Hm4 & Hv4 & Hh4 & Hp4).
    apply synthesizer_ext; try congruence.
    + now rewrite !setParameter_settings.
    + rewrite Hp1, Hp2, Hp3, Hp4. now apply insert_insert_ne.
    + rewrite !setParameter_nodes.
      pose proof (setGrime_setFlow v w (nodes s)) as A.
      pose proof (setGrime_setShimmer v w (nodes s)) as B.
      pose proof (setGrime_setDepth v w (nodes s)) as C.
      pose proof (setFlow_setShimmer v w (nodes s)) as D.
      pose proof (setFlow_setDepth v w (nodes s)) as E.
      pose proof (setShimmer_setDepth v w (nodes s)) as F.
      pose proof (setGrime_setFlow w v (nodes s)) as A'.
      pose proof (setGrime_setShimmer w v (nodes s)) as B'.
      pose proof (setGrime_setDepth w v (nodes s)) as C'.
      pose proof (setFlow_setShimmer w v (nodes s)) as D'.
      pose proof (setFlow_setDepth w v (nodes s)) as E'.
      pose proof (setShimmer_setDepth w v (nodes s)) as F'.
      decide_names; congruence.
Qed.

Lemma setParameter_last_write_witness :
  setParameter "grime" (1#2) (setParameter "flow" (1#4) Examples.ready)
  = setParameter "flow" (1#4) (setParameter "grime" (1#2) Examples.ready).
Proof.
  destruct (setParameter_last_write Examples.ready "grime" "flow" (1#2) (1#4))
    as (_ & H).
  apply H. discriminate.
Defined.

End VoiceMoves.

(** ** What a parameter call reaches *)

Section ParameterScope.
Import JS Synth.
Local Open Scope Q_scope.


Lemma reachable_uninitialized_nodes (s : Synthesizer) :
  reachable s -> isInitialized s = false -> nodes s = no_nodes.
Proof.
  induction 1 as [st | op s Hreach IH]; [reflexivity|].
  destruct op as [ok | x y intensity now | r | r x y | param value | c |];
    cbn [run].
  - unfold initialize. destruct (isInitialized s) eqn:Hi; [congruence|].
    destruct ok; [discriminate | auto].
  - destruct (startVoice_frame x y intensity now s) as (-> & _ & _ & -> & _).
    exact IH.
  - destruct (stopVoice_frame (Some r) s) as (-> & _ & _ & _ & -> & _).
    exact IH.
  - destruct (updateVoicePosition_frame r x y s) as (-> & _ & _ & -> & _).
    exact IH.
  - destruct (setParameter_frame param value s) as (-> & _).
    intros Hi. rewrite setParameter_nodes, (IH Hi).
    decide_names; reflexivity.
  - destruct (setComplexity_frame c s) as (-> & _ & _ & _ & -> & _).
    exact IH.
  - destruct (stopVoices_frame (voices s) s) as (Hi & _ & _ & _ & Hn & _).
    intros Hinit. unfold stopAllVoices, with_voices in *. cbn in *.
    rewrite Hn. apply IH. now rewrite <- Hi.
Qed.

(** X6 -- parameters given before [initialize()] are stored but never reach
    the effect chain: while the engine is not initialized [setParameter]
    changes no node (there is none), and [initialize()] then sets the chain
    to its fixed initial values, whatever is stored; so the distortion
    starts with amount 50, which is the table value of a stored [grime] of
    0.15 and of no other. *)
Theorem setParameter_before_initialize (s : Synthesizer) (name : string)
        (v : Q) (Hreach : reachable s) (Hinit : isInitialized s = false) :
  let s' := setParameter name v s in
  nodes s' = no_nodes /\
  isInitialized s' = false /\
  nodes (initialize true s') = nodes (initialize true s) /\
  params (initialize true s') = params s' /\
  distortion (nodes (initialize true s')) = Some 50 /\
  (forall g, getParameter "grime" s' = Some g -> ~ g == 15#100 ->
             Forall2 Spec.differs
                     (take 1 (Spec.applied "grime" (nodes (initialize true s'))))
                     (take 1 (Spec.derived "grime" g))).
Proof.
  intros s'.
  assert (reachable s') as Hreach'
      by exact (reachable_run (OpSetParameter name v) s Hreach).
  destruct (setParameter_frame name v s) as (Hi & _).
  assert (isInitialized s' = false) as Hinit' by (subst s'; congruence).
  split; [apply reachable_uninitialized_nodes; assumption|].
  split; [exact Hinit'|].
  unfold initialize. rewrite Hinit, Hinit'. cbn.
  assert (settings s' = settings s) as -> by apply setParameter_settings.
  split; [reflexivity|]. split; [reflexivity|]. split; [reflexivity|].
  intros g _ Hg. cbn. constructor; [|constructor].
  exists 50. split; [reflexivity|]. intros Heq. apply Hg. lra.
Qed.

Lemma setParameter_before_initialize_witness :
  getParameter "grime"
    (initialize true (setParameter "grime" (9#10) (new (mkSettings None None))))
  = Some (9#10) /\
  distortion
    (nodes (initialize true
              (setParameter "grime" (9#10) (new (mkSettings None None)))))
  = Some 50.
Proof.
  split; [reflexivity|].
  destruct (setParameter_before_initialize
              (new (mkSettings None None)) "grime" (9#10)
              (reachable_new _) eq_refl)
    as (_ & _ & _ & _ & H & _).
  exact H.
Defined.

End ParameterScope.

(** ** The effect curves *)

Section EffectCurves.
Import JS Curve.

Lemma INR_samples : INR samples = 44100%R.
Proof.
  unfold samples. rewrite INR_IZR_INZ, Z2Nat.id by lia. reflexivity.
Qed.

Lemma curveAt_shape (amount : R) (i : nat) :
  curveAt amount i = shape amount (position i).
Proof. reflexivity. Qed.

Lemma position_range (i : nat) :
  (i < samples)%nat -> (-1 <= position i < 1)%R.
Proof.
  intros Hi. unfold position. rewrite INR_samples.
  apply lt_INR in Hi. rewrite INR_samples in Hi.
  pose proof (pos_INR i). lra.
Qed.

Lemma position_lt (i j : nat) : (i < j)%nat -> (position i < position j)%R.
Proof.
  intros Hij. unfold position. rewrite INR_samples.
  apply lt_INR in Hij. lra.
Qed.

Lemma position_mirror (i : nat) :
  (i <= samples)%nat -> position (samples - i) = (- position i)%R.
Proof.
  intros Hi. unfold position. rewrite minus_INR by exact Hi.
  rewrite INR_samples. lra.
Qed.

Lemma shape_denominator (amount x : R) :
  (0 <= amount)%R -> (0 < PI + amount * Rabs x)%R.
Proof.
  intros Ha. pose proof PI_RGT_0. pose proof (Rabs_pos x).
  assert (0 <= amount * Rabs x)%R by now apply Rmult_le_pos.
  lra.
Qed.

Lemma shape_odd (amount x : R) : shape amount (- x) = (- shape amount x)%R.
Proof.
  unfold shape. rewrite Rabs_Ropp. unfold Rdiv. ring.
Qed.

Lemma shape_bound (amount x : R) :
  (0 <= amount)%R -> (-1 <= x <= 1)%R -> (-1 < shape amount x < 1)%R.
Proof.
  intros Ha Hx. unfold shape, deg.
  pose proof (shape_denominator amount x Ha) as HD.
  pose proof PI_RGT_0 as Hpi. pose proof PI_4 as Hpi4.
  set (t := Rabs x) in *.
  assert (0 <= t <= 1)%R as Ht.
  { subst t. split; [apply Rabs_pos|]. apply Rabs_le. lra. }
  assert (0 <= amount * t)%R as Hat by (apply Rmult_le_pos; lra).
  assert (amount * t * PI <= amount * t * 4)%R as H1
      by (apply Rmult_le_compat_l; lra).
  assert (t * PI <= PI)%R as H2 by nra.
  assert (0 <= t * PI)%R as H3 by nra.
  assert (0 <= amount * t * PI)%R as H4 by (apply Rmult_le_pos; lra).
  assert (x = t \/ x = - t)%R as Hcase.
  { subst t. unfold Rabs. destruct (Rcase_abs x); [right | left]; lra. }
  split.
  - apply Rmult_lt_reg_r with (PI + amount * t)%R; [exact HD|].
    unfold Rdiv. rewrite Rmult_assoc, Rinv_l by lra.
    destruct Hcase as [Hc | Hc]; rewrite Hc; nra.
  - apply Rmult_lt_reg_r with (PI + amount * t)%R; [exact HD|].
    unfold Rdiv. rewrite Rmult_assoc, Rinv_l by lra.
    destruct Hcase as [Hc | Hc]; rewrite Hc; nra.
Qed.

Lemma shape_increasing (amount x y : R) :
  (0 <= amount)%R -> (x < y)%R -> (shape amount x < shape amount y)%R.
Proof.
  intros Ha Hxy. unfold shape, deg.
  pose proof (shape_denominator amount x Ha) as HDx.
  pose proof (shape_denominator amount y Ha) as HDy.
  pose proof PI_RGT_0 as Hpi.
  set (dx := (PI + amount * Rabs x)%R) in *.
  set (dy := (PI + amount * Rabs y)%R) in *.
  assert (x * dy < y * dx)%R as Hcross.
  { subst dx dy.
    assert (0 < (y - x) * PI)%R as Hgap by (apply Rmult_lt_0_compat; lra).
    unfold Rabs.
    destruct (Rcase_abs x), (Rcase_abs y); try lra.
    assert (0 <= amount * (- x) * y)%R
      by (apply Rmult_le_pos; [apply Rmult_le_pos|]; lra).
    lra. }
  apply Rmult_lt_reg_r with dx; [exact HDx|].
  apply Rmult_lt_reg_r with dy; [exact HDy|].
  unfold Rdiv.
  replace ((3 + amount) * x * 20 * (PI * / 180) * / dx * dx * dy)%R
    with ((3 + amount) * 20 * (PI * / 180) * (x * dy) * (/ dx * dx))%R by ring.
  replace ((3 + amount) * y * 20 * (PI * / 180) * / dy * dx * dy)%R
    with ((3 + amount) * 20 * (PI * / 180) * (y * dx) * (/ dy * dy))%R by ring.
  rewrite !Rinv_l by lra. rewrite !Rmult_1_r.
  apply Rmult_lt_compat_l; [|exact Hcross].
  nra.
Qed.

(** X7 -- the wave-shaper curve of [makeDistortionCurve(amount)] for a
    non-negative amount (every amount that a [grime] in [0,1] gives): it
    has 44100 points, all strictly between -1 and 1; it rises strictly
    from its first to its last point; it is 0 at the centre point; and the
    points mirror each other around the centre with opposite sign. *)
Theorem makeDistortionCurve_shape (amount : R) (Hamount : (0 <= amount)%R) :
  length (makeDistortionCurve amount) = samples /\
  (forall i y,
      makeDistortionCurve amount !! i = Some y ->
      (i < samples)%nat /\ y = curveAt amount i /\ (-1 < y < 1)%R) /\
  (forall i, (i < samples)%nat ->
             makeDistortionCurve amount !! i = Some (curveAt amount i)) /\
  (forall i j, (i < j)%nat -> (curveAt amount i < curveAt amount j)%R) /\
  curveAt amount (Z.to_nat 22050) = 0%R /\
  (forall i, (i <= samples)%nat ->
             curveAt amount (samples - i) = (- curveAt amount i)%R).
Proof.
  assert (forall i, (i < samples)%nat ->
                    makeDistortionCurve amount !! i = Some (curveAt amount i))
    as Hlookup.
  { intros i Hi. unfold makeDistortionCurve.
    rewrite list_lookup_fmap, lookup_seq_lt by exact Hi. reflexivity. }
  split; [unfold makeDistortionCurve; now rewrite length_fmap, length_seq|].
  split.
  { intros i y Hy.
    assert (i < samples)%nat as Hi.
    { apply lookup_lt_Some in Hy. unfold makeDistortionCurve in Hy.
      now rewrite length_fmap, length_seq in Hy. }
    rewrite Hlookup in Hy by exact Hi. injection Hy as <-.
    split; [exact Hi|]. split; [reflexivity|].
    rewrite curveAt_shape. apply shape_bound; [exact Hamount|].
    pose proof (position_range i Hi). lra. }
  split; [exact Hlookup|].
  split.
  { intros i j Hij. rewrite !curveAt_shape.
    apply shape_increasing; [exact Hamount|]. now apply position_lt. }
  split.
  { rewrite curveAt_shape.
    assert (position (Z.to_nat 22050) = 0%R) as ->.
    { unfold position. rewrite INR_samples, INR_IZR_INZ, Z2Nat.id by lia. lra. }
    unfold shape, Rdiv. ring. }
  intros i Hi. rewrite !curveAt_shape, position_mirror by exact Hi.
  apply shape_odd.
Qed.

Lemma makeDistortionCurve_shape_witness :
  (-1 < curveAt 50 O < 1)%R /\ (curveAt 50 O < curveAt 50 1)%R.
Proof.
  assert (0 <= 50)%R as H by lra.
  destruct (makeDistortionCurve_shape 50 H) as (_ & Hb & Hl & Hinc & _).
  split.
  - apply (Hb O). apply Hl. unfold samples. lia.
  - apply Hinc. lia.
Defined.

End EffectCurves.

(** ** The reverb impulse *)

Section ReverbImpulse.
Import JS Curve.
Local Open Scope Q_scope.

Lemma impulseLoop_lookup (len : Q) (randoms : list Q) :
  forall (k i : nat),
    impulseLoop len k randoms !! i
    = (fun random =>
         (random * 2 - 1) * (1 - inject_Z (Z.of_nat (k + i)) / len) ^ 2)
        <$> randoms !! i.
Proof.
  induction randoms as [|random rest IH]; intros k i.
  - reflexivity.
  - destruct i as [|i].
    + cbn [impulseLoop lookup list_lookup]. rewrite Nat.add_0_r. reflexivity.
    + cbn [impulseLoop]. rewrite !lookup_cons. rewrite IH.
      replace (S k + i)%nat with (k + S i)%nat by lia. reflexivity.
Qed.

Lemma impulseLoop_length (len : Q) (randoms : list Q) :
  forall k, length (impulseLoop len k randoms) = length randoms.
Proof.
  induction randoms as [|random rest IH]; intros k; [reflexivity|].
  cbn. now rewrite IH.
Qed.

(** The ratio [i / length] of an index inside the buffer. *)
Lemma index_ratio (i : nat) (len : Z) :
  (Z.of_nat i < len)%Z ->
  0 <= inject_Z (Z.of_nat i) / inject_Z len < 1.
Proof.
  intros Hi.
  assert (0 < inject_Z len) as Hlen.
  { change 0 with (inject_Z 0). rewrite <- Zlt_Qlt. lia. }
  split.
  - apply Qle_shift_div_l; [exact Hlen|]. rewrite Qmult_0_l.
    change 0 with (inject_Z 0). rewrite <- Zle_Qle. lia.
  - apply Qlt_shift_div_r; [exact Hlen|]. rewrite Qmult_1_l.
    rewrite <- Zlt_Qlt. exact Hi.
Qed.

Lemma index_ratio_lt (i j : nat) (len : Z) :
  (0 < len)%Z -> (i < j)%nat ->
  inject_Z (Z.of_nat i) / inject_Z len < inject_Z (Z.of_nat j) / inject_Z len.
Proof.
  intros Hlen Hij.
  assert (0 < inject_Z len) as Hlen'.
  { change 0 with (inject_Z 0). rewrite <- Zlt_Qlt. lia. }
  apply Qlt_shift_div_l; [exact Hlen'|].
  unfold Qdiv. rewrite <- Qmult_assoc, (Qmult_comm (/ _)), Qmult_inv_r, Qmult_1_r
    by lra.
  rewrite <- Zlt_Qlt. lia.
Qed.

(** X8 -- the reverb impulse of [createReverbImpulse] for an integral
    sample rate, the results of [Math.random()] (numbers in [0,1)) being
    given: each channel has two seconds of samples; sample [i] is the [i]-th
    random number, stretched to [-1,1), times the envelope
    [(1 - i/length)^2]; the envelope is 1 at the start, stays positive and
    falls strictly; so every sample lies within the envelope and within
    [-1,1). *)
Theorem createReverbImpulse_envelope (sampleRate : Z) (randoms : list Q)
        (Hrate : (0 < sampleRate)%Z)
        (Hrandom : Forall (fun random => 0 <= random < 1) randoms) :
  let len := (sampleRate * 2)%Z in
  let decay (i : nat) := (1 - inject_Z (Z.of_nat i) / inject_Z len) ^ 2 in
  let data := impulseChannel sampleRate randoms in
  ((Z.to_nat len <= length randoms)%nat -> length data = Z.to_nat len) /\
  (forall i x,
      data !! i = Some x ->
      (Z.of_nat i < len)%Z /\
      (exists random,
          randoms !! i = Some random /\ x = (random * 2 - 1) * decay i) /\
      0 < decay i <= 1 /\
      - decay i <= x < decay i /\
      -1 <= x < 1) /\
  decay O == 1 /\
  (forall i j, (i < j)%nat -> (Z.of_nat j < len)%Z -> decay j < decay i).
Proof.
  intros len decay data.
  assert (forall i, (Z.of_nat i < len)%Z ->
                    exists u, decay i = (1 - u) ^ 2 /\ 0 <= u < 1 /\
                              u = inject_Z (Z.of_nat i) / inject_Z len) as Hu.
  { intros i Hi. eexists. split; [reflexivity|].
    split; [apply index_ratio; exact Hi | reflexivity]. }
  split.
  { intros Hlen. subst data. unfold impulseChannel. fold len.
    rewrite impulseLoop_length, length_take. lia. }
  split.
  { intros i x Hx. subst data. unfold impulseChannel in Hx. fold len in Hx.
    rewrite impulseLoop_lookup in Hx. cbn [Nat.add] in Hx.
    destruct (take (Z.to_nat len) randoms !! i) as [random|] eqn:Hr;
      [|discriminate].
    injection Hx as <-.
    assert (i < Z.to_nat len)%nat as Hi.
    { apply lookup_lt_Some in Hr. rewrite length_take in Hr. lia. }
    rewrite lookup_take_lt in Hr by exact Hi.
    assert (Z.of_nat i < len)%Z as Hi' by lia.
    assert (0 <= random < 1) as Hrange.
    { rewrite Forall_lookup in Hrandom. exact (Hrandom i random Hr). }
    split; [exact Hi'|].
    split; [exists random; split; [exact Hr | reflexivity]|].
    pose proof (index_ratio i len Hi') as Hrange_u.
    subst decay. cbn beta.
    set (u := inject_Z (Z.of_nat i) / inject_Z len) in *. clearbody u.
    unfold Qpower, Qpower_positive; cbn [pow_pos].
    assert (0 < (1 - u) * (1 - u)) as Hpos by nra.
    assert ((1 - u) * (1 - u) <= 1) as Hle by nra.
    set (d := (1 - u) * (1 - u)) in *. clearbody d.
    assert (0 <= (random * 2) * d) as H1
        by (apply Qmult_le_0_compat; lra).
    assert (0 < (2 - random * 2) * d) as H2
        by (apply Qmult_lt_0_compat; lra).
    split; [split; assumption|].
    split; split; lra. }
  split.
  { subst decay. cbn beta. unfold Qdiv. rewrite Qmult_0_l. reflexivity. }
  intros i j Hij Hj.
  destruct (Hu i ltac:(lia)) as (u & Hdu & Hru & Hu_eq).
  destruct (Hu j Hj) as (w & Hdw & Hrw & Hw_eq).
  rewrite Hdu, Hdw.
  assert (u < w) as Hlt.
  { rewrite Hu_eq, Hw_eq. apply index_ratio_lt; [lia | exact Hij]. }
  unfold Qpower, Qpower_positive; cbn [pow_pos]. nra.
Qed.

Lemma createReverbImpulse_envelope_witness :
  exists x,
    impulseChannel 2 [0; 1#2; 3#4; 1#4] !! 1%nat = Some x /\ -1 <= x < 1.
Proof.
  assert (Forall (fun random => 0 <= random < 1) [0; 1#2; 3#4; 1#4]) as Hrandom.
  { repeat constructor; cbn; lra. }
  destruct (createReverbImpulse_envelope 2 [0; 1#2; 3#4; 1#4] ltac:(lia) Hrandom)
    as (_ & H & _).
  eexists. split; [reflexivity|].
  destruct (H 1%nat _ eq_refl) as (_ & _ & _ & _ & Hrange).
  exact Hrange.
Defined.

End ReverbImpulse.

(** ** Loop controller: position, transport and volume *)

Section LoopTransport.
Import JS Loop.
Local Open Scope Q_scope.

Lemma Qfloor_unique (q : Q) (z : Z) :
  inject_Z z <= q -> q < inject_Z (z + 1) -> Qfloor q = z.
Proof.
  intros Hlo Hhi.
  pose proof (Qfloor_le q) as H1. pose proof (Qlt_floor q) as H2.
  assert (inject_Z z < inject_Z (Qfloor q + 1)) as A by lra.
  assert (inject_Z (Qfloor q) < inject_Z (z + 1)) as B by lra.
  rewrite <- Zlt_Qlt in A, B. lia.
Qed.

Lemma Qfloor_add_Z (q : Q) (k : Z) : Qfloor (q + inject_Z k) = (Qfloor q + k)%Z.
Proof.
  pose proof (Qfloor_le q) as H1. pose proof (Qlt_floor q) as H2.
  apply Qfloor_unique.
  - rewrite inject_Z_plus. lra.
  - rewrite !inject_Z_plus in *. lra.
Qed.

Lemma qmod_small (a b : Q) : 0 <= a < b -> Spec.qmod a b == a.
Proof.
  intros [Ha Hb]. unfold Spec.qmod.
  assert (Qfloor (a / b) = 0%Z) as ->.
  { apply Qfloor_unique.
    - change (inject_Z 0) with 0. apply Qle_shift_div_l; lra.
    - change (inject_Z (0 + 1)) with 1. apply Qlt_shift_div_r; lra. }
  change (inject_Z 0) with 0. lra.
Qed.

Lemma qmod_period (a b : Q) (k : Z) :
  0 < b -> Spec.qmod (a + inject_Z k * b) b == Spec.qmod a b.
Proof.
  intros Hb. unfold Spec.qmod.
  assert ((a + inject_Z k * b) / b == a / b + inject_Z k) as Hdiv
      by (field; lra).
  rewrite Hdiv, Qfloor_add_Z, inject_Z_plus. ring.
Qed.

Lemma qmod_Qeq (a a' b : Q) : a == a' -> Spec.qmod a b == Spec.qmod a' b.
Proof.
  intros H. unfold Spec.qmod.
  assert (Qfloor (a / b) = Qfloor (a' / b)) as ->
      by (apply Qfloor_comp, Qdiv_comp; [exact H | reflexivity]).
  lra.
Qed.

(** The position of a playing loop with a duration. *)
Lemma getPlaybackPosition_playing (now : Q) (s : LoopController) :
  isPlaying s = true -> 0 < loopDuration s -> playStartTime s <= now ->
  getPlaybackPosition now s
  = Spec.qmod (now - playStartTime s) (loopDuration s) / loopDuration s.
Proof.
  intros Hplay Hd Hnow. unfold getPlaybackPosition. rewrite Hplay.
  destruct (Qeq_bool (loopDuration s) 0) eqn:Hz.
  { apply Qeq_bool_iff in Hz. lra. }
  cbn. rewrite fmod_qmod by lra. reflexivity.
Qed.

(** The position of a playing loop is the elapsed time modulo the
    duration, as a fraction of the duration. *)
Lemma getPlaybackPosition_bounds (now : Q) (s : LoopController) :
  isPlaying s = true -> 0 < loopDuration s -> playStartTime s <= now ->
  0 <= getPlaybackPosition now s < 1 /\
  getPlaybackPosition now s * loopDuration s
    == Spec.qmod (now - playStartTime s) (loopDuration s).
Proof.
  intros Hplay Hduration Hnow.
  rewrite getPlaybackPosition_playing by assumption.
  pose proof (qmod_range (now - playStartTime s) (loopDuration s) Hduration)
    as Hrange.
  split.
  - split.
    + apply Qle_shift_div_l; lra.
    + apply Qlt_shift_div_r; lra.
  - field; lra.
Qed.

(** X9 -- [getPlaybackPosition]: for a loop that plays, at a time not
    before its (virtual) start, the position is a number in [0,1): the
    elapsed time modulo the loop duration, as a fraction of the duration;
    it is 0 at the start, grows linearly during the first pass and is
    periodic in the loop duration.  Without playback, or with a zero
    duration, it is 0. *)
Theorem getPlaybackPosition_range (s : LoopController) (now : Q)
        (Hplay : isPlaying s = true) (Hduration : 0 < loopDuration s)
        (Hnow : playStartTime s <= now) :
  let position := getPlaybackPosition now s in
  0 <= position < 1 /\
  position * loopDuration s
    == Spec.qmod (now - playStartTime s) (loopDuration s) /\
  getPlaybackPosition (playStartTime s) s == 0 /\
  (now - playStartTime s < loopDuration s ->
   position == (now - playStartTime s) / loopDuration s) /\
  (forall k : Z, (0 <= k)%Z ->
      getPlaybackPosition (now + inject_Z k * loopDuration s) s == position) /\
  (forall t, getPlaybackPosition t (set_isPlaying false s) = 0).
Proof.
  intros position. subst position.
  destruct (getPlaybackPosition_bounds now s Hplay Hduration Hnow)
    as (Hbounds & Hprod).
  split; [exact Hbounds|]. split; [exact Hprod|].
  rewrite (getPlaybackPosition_playing now) by assumption.
  split.
  { rewrite getPlaybackPosition_playing by (assumption || lra).
    assert (Spec.qmod (playStartTime s - playStartTime s) (loopDuration s) == 0)
      as ->.
    { rewrite qmod_small; lra. }
    field; lra. }
  split.
  { intros Hfirst. rewrite qmod_small by lra. reflexivity. }
  split.
  { intros k Hk.
    assert (0 <= inject_Z k) as Hk'
        by (change 0 with (inject_Z 0); now rewrite <- Zle_Qle).
    assert (0 <= inject_Z k * loopDuration s) as Hadd
        by (apply Qmult_le_0_compat; lra).
    rewrite getPlaybackPosition_playing by (assumption || lra).
    assert (Spec.qmod (now + inject_Z k * loopDuration s - playStartTime s)
                      (loopDuration s)
            == Spec.qmod (now - playStartTime s) (loopDuration s)) as ->.
    { rewrite <- (qmod_period (now - playStartTime s) (loopDuration s) k)
        by exact Hduration.
      apply qmod_Qeq. ring. }
    reflexivity. }
  intros t. reflexivity.
Qed.

Lemma getPlaybackPosition_range_witness :
  0 <= getPlaybackPosition (9#2) Examples.recordingOverdub < 1.
Proof.
  assert (isPlaying Examples.recordingOverdub = true) as Hplay by reflexivity.
  assert (0 < loopDuration Examples.recordingOverdub) as Hd by (vm_compute; reflexivity).
  assert (playStartTime Examples.recordingOverdub <= 9#2) as Hnow
      by (vm_compute; discriminate).
  destruct (getPlaybackPosition_range Examples.recordingOverdub (9#2) Hplay Hd Hnow)
    as (H & _).
  exact H.
Defined.

End LoopTransport.

(** ** Loop controller: what the calls leave alone *)

Section LoopFrames.
Import JS Loop.
Local Open Scope Q_scope.

(** The mixer side of the controller: the volume and its gain node. *)
Lemma playback_mixer (position now : Q) (s : LoopController) :
  let s1 := snd (startPlaybackAtPosition position now s) in
  let s2 := snd (stopPlayback s) in
  (volume s1 = volume s /\ outputGain s1 = outputGain s /\
   isInitialized s1 = isInitialized s /\ loopDuration s1 = loopDuration s /\
   recordedBuffer s1 = recordedBuffer s /\ isRecording s1 = isRecording s) /\
  (volume s2 = volume s /\ outputGain s2 = outputGain s /\
   isInitialized s2 = isInitialized s /\ loopDuration s2 = loopDuration s /\
   recordedBuffer s2 = recordedBuffer s /\ isRecording s2 = isRecording s /\
   playStartTime s2 = playStartTime s).
Proof.
  unfold startPlaybackAtPosition, stopPlayback.
  repeat case_match; cbn; auto 10.
Qed.

Lemma recording_mixer (now : Q) (ok : bool) (s : LoopController) :
  let s1 := snd (startRecording now ok s) in
  let s2 := snd (stopRecording now s) in
  (volume s1 = volume s /\ outputGain s1 = outputGain s /\
   isInitialized s1 = isInitialized s /\ loopDuration s1 = loopDuration s /\
   recordedBuffer s1 = recordedBuffer s /\ isPlaying s1 = isPlaying s /\
   playStartTime s1 = playStartTime s /\ playbackSource s1 = playbackSource s) /\
  (volume s2 = volume s /\ outputGain s2 = outputGain s /\
   isInitialized s2 = isInitialized s /\
   recordedBuffer s2 = recordedBuffer s /\ isPlaying s2 = isPlaying s /\
   playStartTime s2 = playStartTime s /\ playbackSource s2 = playbackSource s).
Proof.
  unfold startRecording, stopRecording, stopRecorder.
  repeat case_match; cbn; auto 10.
Qed.

Lemma processing_mixer (position now : Q) (original decoded : option AudioBuffer)
      (s : LoopController) :
  let s1 := processRecordingDone decoded now s in
  let s2 := snd (processOverdubBegin now s) in
  let s3 := processOverdubDone position original decoded now s in
  (volume s1 = volume s /\ outputGain s1 = outputGain s /\
   isInitialized s1 = isInitialized s /\ loopDuration s1 = loopDuration s) /\
  (volume s2 = volume s /\ outputGain s2 = outputGain s /\
   isInitialized s2 = isInitialized s /\ loopDuration s2 = loopDuration s) /\
  (volume s3 = volume s /\ outputGain s3 = outputGain s /\
   isInitialized s3 = isInitialized s /\ loopDuration s3 = loopDuration s).
Proof.
  cbn zeta. split; [|split].
  - unfold processRecordingDone, startPlayback.
    destruct decoded as [b|]; [|auto].
    destruct (playback_mixer 0 now (set_recordedBuffer (Some b) s))
      as ((? & ? & ? & ? & _) & _).
    auto.
  - unfold processOverdubBegin.
    destruct (recordedChunks s); [cbn; auto|]. cbn [snd].
    destruct (playback_mixer 0 now s) as (_ & ? & ? & ? & ? & _). auto.
  - unfold processOverdubDone.
    destruct original as [o|]; [|auto].
    destruct decoded as [d|]; [|auto].
    destruct (mixOverdub _ _ _ _ _ _) as [m|]; [|auto].
    destruct (playback_mixer position now (set_recordedBuffer (Some m) s))
      as ((? & ? & ? & ? & _) & _).
    auto.
Qed.

Lemma clear_mixer (now : Q) (s : LoopController) :
  let s1 := snd (clear now s) in
  volume s1 = volume s /\ outputGain s1 = outputGain s /\
  isInitialized s1 = isInitialized s /\ loopDuration s1 = 0.
Proof.
  cbn zeta. unfold clear.
  set (s1 := if isRecording s then snd (stopRecording now s) else s).
  assert (volume s1 = volume s /\ outputGain s1 = outputGain s /\
          isInitialized s1 = isInitialized s) as (A1 & A2 & A3).
  { subst s1. destruct (isRecording s); [|auto].
    destruct (recording_mixer now true s) as (_ & ? & ? & ? & _). auto. }
  set (s2 := if isPlaying s1 then snd (stopPlayback s1) else s1).
  assert (volume s2 = volume s1 /\ outputGain s2 = outputGain s1 /\
          isInitialized s2 = isInitialized s1) as (B1 & B2 & B3).
  { subst s2. destruct (isPlaying s1); [|auto].
    destruct (playback_mixer 0 now s1) as (_ & ? & ? & ? & _). auto. }
  clearbody s2. clearbody s1.
  unfold stopRecorder. cbn.
  repeat case_match; cbn; repeat split; congruence.
Qed.

End LoopFrames.

(** ** Loop controller: invariants of the volume and of the duration *)

Section LoopInvariants.
Import JS Loop.
Local Open Scope Q_scope.

Lemma stopRecording_duration (now : Q) (s : LoopController) :
  maxLoopDuration s = 30 ->
  loopDuration (snd (stopRecording now s)) = loopDuration s \/
  (1#10) <= loopDuration (snd (stopRecording now s)) <= 30.
Proof.
  intros Hmax.
  destruct (isRecording s) eqn:Hrec.
  2:{ left. unfold stopRecording. now rewrite Hrec. }
  destruct (recordedBuffer s) as [b|] eqn:Hbuf.
  { left. apply stopRecording_existing. rewrite Hbuf. eauto. }
  right.
  destruct (stopRecording_new now s Hrec Hbuf) as (_ & _ & Heq);
    [rewrite Hmax; lra|].
  pose proof (clamp_bounds (1#10) (maxLoopDuration s) (now - recordStartTime s))
    as Hb.
  rewrite Hmax in *. lra.
Qed.

(** The volume is a number in [0,1], the gain node carries it once the
    controller is initialized, and the loop duration is 0 or lies between
    0.1 and 30 seconds. *)
Lemma reachable_mixer (s : LoopController) :
  reachable s ->
  0 <= volume s <= 1 /\
  outputGain s = (if isInitialized s then Some (volume s) else None) /\
  (loopDuration s = 0 \/ (1#10) <= loopDuration s <= 30).
Proof.
  induction 1 as [rate | op s Hreach (IHv & IHg & IHd)].
  - cbn. split; [lra|]. split; [reflexivity|]. now left.
  - pose proof (reachable_invariant s Hreach) as (_ & _ & Hmax).
    destruct op as [r | now ok | now | size | d now | now | p o d now
                    | now | v | now]; cbn [run].
    + unfold initialize.
      destruct (isInitialized s) eqn:Hi; cbn [orb].
      { rewrite Hi. auto. }
      destruct r; cbn [negb]; [cbn; auto | rewrite Hi; auto].
    + destruct (recording_mixer now ok s)
        as ((-> & -> & -> & -> & _) & _). auto.
    + destruct (recording_mixer now true s) as (_ & -> & -> & -> & _).
      split; [exact IHv|]. split; [exact IHg|].
      destruct (stopRecording_duration now s Hmax) as [-> | H]; auto.
    + unfold dataAvailable. destruct (0 <? size)%N; cbn; auto.
    + destruct (processing_mixer 0 now None d s)
        as ((-> & -> & -> & ->) & _). auto.
    + destruct (processing_mixer 0 now None None s)
        as (_ & (-> & -> & -> & ->) & _). auto.
    + destruct (processing_mixer p now o d s)
        as (_ & _ & (-> & -> & -> & ->)). auto.
    + unfold togglePlayback, startPlayback.
      destruct (isPlaying s).
      * destruct (playback_mixer 0 now s) as (_ & -> & -> & -> & -> & _). auto.
      * destruct (recordedBuffer s); [|auto].
        destruct (playback_mixer 0 now s) as ((-> & -> & -> & -> & _) & _).
        auto.
    + unfold setVolume. cbn [outputGain set_volume volume].
      pose proof (clamp01_range v) as Hr.
      destruct (isInitialized s) eqn:Hi; rewrite IHg; cbn; rewrite Hi; auto.
    + destruct (clear_mixer now s) as (-> & -> & -> & ->). auto.
Qed.

Lemma setVolume_fields (v : Q) (s : LoopController) :
  volume (setVolume v s) = Math_max 0 (Math_min 1 v) /\
  isInitialized (setVolume v s) = isInitialized s /\
  isRecording (setVolume v s) = isRecording s /\
  isPlaying (setVolume v s) = isPlaying s /\
  recordedBuffer (setVolume v s) = recordedBuffer s /\
  loopDuration (setVolume v s) = loopDuration s.
Proof.
  unfold setVolume. cbn [outputGain set_volume volume].
  destruct (outputGain s); cbn; auto 10.
Qed.

Lemma setVolume_last (v w : Q) (s : LoopController) :
  setVolume w (setVolume v s) = setVolume w s.
Proof.
  destruct (outputGain s) as [g|] eqn:Hg0.
  - unfold setVolume. cbn. rewrite Hg0. cbn. reflexivity.
  - unfold setVolume. cbn. rewrite Hg0. cbn. rewrite Hg0. reflexivity.
Qed.

Lemma setVolume_outputGain (v : Q) (s : LoopController) :
  reachable s ->
  outputGain (setVolume v s)
  = (if isInitialized s then Some (volume (setVolume v s)) else None).
Proof.
  intros Hreach.
  destruct (reachable_mixer (setVolume v s)
              (reachable_run (OpSetVolume v) s Hreach)) as (_ & Hg & _).
  destruct (setVolume_fields v s) as (_ & Hi & _).
  now rewrite Hi in Hg.
Qed.

(** X10 -- the volume: in every state the controller can reach the volume
    lies in [0,1] and, once the controller is initialized, the output gain
    node carries exactly the volume; [setVolume(v)] stores [v] clamped to
    [0,1], the last call wins, and a volume set before [initialize()] is the
    one the gain node gets when it is created. *)
Theorem setVolume_gain (s : LoopController) (v w : Q) (Hreach : reachable s) :
  let s' := setVolume v s in
  (0 <= volume s <= 1 /\
   outputGain s = if isInitialized s then Some (volume s) else None) /\
  volume s' == Qmin 1 (Qmax 0 v) /\
  0 <= volume s' <= 1 /\
  (0 <= v <= 1 -> volume s' == v) /\
  outputGain s' = (if isInitialized s then Some (volume s') else None) /\
  (isInitialized s = false ->
   outputGain (initialize true s') = Some (volume s')) /\
  setVolume w s' = setVolume w s /\
  (isRecording s' = isRecording s /\ isPlaying s' = isPlaying s /\
   recordedBuffer s' = recordedBuffer s /\ loopDuration s' = loopDuration s).
Proof.
  intros s'.
  destruct (reachable_mixer s Hreach) as (Hv & Hg & _).
  destruct (setVolume_fields v s) as (Hvol & Hinit & Hrec & Hplay & Hbuf & Hdur).
  fold s' in Hvol, Hinit, Hrec, Hplay, Hbuf, Hdur.
  pose proof (setVolume_outputGain v s Hreach) as Hg'. fold s' in Hg'.
  split; [auto|].
  split; [rewrite Hvol; apply clamp01_minmax|].
  split; [rewrite Hvol; apply clamp01_range|].
  split; [intros Hin; rewrite Hvol; now apply clamp01_id|].
  split; [exact Hg'|].
  split.
  { intros Hoff. unfold initialize. rewrite Hinit, Hoff. reflexivity. }
  split; [apply setVolume_last|].
  auto.
Qed.

Lemma setVolume_gain_witness :
  volume (setVolume (3#2) Examples.recordingNew) == 1 /\
  outputGain (setVolume (3#2) Examples.recordingNew)
  = Some (volume (setVolume (3#2) Examples.recordingNew)).
Proof.
  destruct (setVolume_gain Examples.recordingNew (3#2) 0
              (reachable_runAll_loop _ _ (reachable_new _)))
    as (_ & Hvol & _ & _ & Hgain & _).
  split; [rewrite Hvol; reflexivity | exact Hgain].
Defined.

Lemma startPlayback_fresh (now : Q) (s : LoopController) :
  is_Some (recordedBuffer s) -> isPlaying s = false ->
  fst (startPlayback now s) = true /\
  isPlaying (snd (startPlayback now s)) = true /\
  playStartTime (snd (startPlayback now s)) == now /\
  is_Some (playbackSource (snd (startPlayback now s))).
Proof.
  intros [b Hb] Hoff. unfold startPlayback, startPlaybackAtPosition.
  rewrite Hb, Hoff.
  destruct (Qltb (0 * loopDuration s) 0) eqn:Hneg.
  { apply Qltb_lt in Hneg. lra. }
  cbn. repeat split; eauto; lra.
Qed.

(** X11 -- [togglePlayback]: without a loop it returns [false] and changes
    nothing (and nothing plays); with a loop it returns [true] and flips
    playback, leaving the loop, its duration, the volume and the recording
    state alone; playback that starts begins at position 0; toggling twice
    gives back the playing state. *)
Theorem togglePlayback_flips (s : LoopController) (now now' : Q)
        (Hreach : reachable s) :
  let s' := snd (togglePlayback now s) in
  (recordedBuffer s = None ->
   isPlaying s = false /\ togglePlayback now s = (false, s)) /\
  (is_Some (recordedBuffer s) ->
   fst (togglePlayback now s) = true /\
   isPlaying s' = negb (isPlaying s) /\
   (recordedBuffer s' = recordedBuffer s /\ loopDuration s' = loopDuration s /\
    volume s' = volume s /\ isRecording s' = isRecording s) /\
   (isPlaying s = false ->
    playStartTime s' == now /\ getPlaybackPosition now s' == 0) /\
   isPlaying (snd (togglePlayback now' s')) = isPlaying s).
Proof.
  intros s'.
  pose proof (reachable_invariant s Hreach) as (Hplay & _ & _).
  assert (forall t u, reachable t -> is_Some (recordedBuffer t) ->
            fst (togglePlayback u t) = true /\
            isPlaying (snd (togglePlayback u t)) = negb (isPlaying t) /\
            recordedBuffer (snd (togglePlayback u t)) = recordedBuffer t)
    as Hflip.
  { intros t u Ht [b Hb].
    pose proof (reachable_invariant t Ht) as (Hp & _ & _).
    unfold togglePlayback.
    destruct (isPlaying t) eqn:Hon.
    - destruct (Hp eq_refl) as ([src Hsrc] & _).
      unfold stopPlayback. rewrite Hon, Hsrc. cbn. auto.
    - rewrite Hb.
      destruct (startPlayback_fresh u t) as (A & B & _); [rewrite Hb; eauto|auto|].
      destruct (playback_mixer 0 u t) as ((_ & _ & _ & _ & C & _) & _).
      unfold startPlayback in *. rewrite Hb in C. auto. }
  split.
  { intros Hnone.
    assert (isPlaying s = false) as Hoff.
    { destruct (isPlaying s); [|reflexivity].
      destruct (Hplay eq_refl) as (_ & [b Hb]). congruence. }
    split; [exact Hoff|]. unfold togglePlayback. now rewrite Hoff, Hnone. }
  intros Hsome.
  destruct (Hflip s now Hreach Hsome) as (Hfst & Hneg & Hbuf).
  split; [exact Hfst|]. split; [exact Hneg|].
  split.
  { split; [exact Hbuf|]. subst s'. unfold togglePlayback, startPlayback.
    destruct (isPlaying s).
    - destruct (playback_mixer 0 now s) as (_ & ? & _ & _ & ? & _ & ? & _). auto.
    - destruct Hsome as [b Hb]. rewrite Hb.
      destruct (playback_mixer 0 now s) as ((? & _ & _ & ? & _ & ?) & _). auto. }
  split.
  { intros Hoff.
    assert (s' = snd (startPlayback now s)) as Hs'.
    { subst s'. unfold togglePlayback. rewrite Hoff.
      destruct Hsome as [b ->]. reflexivity. }
    destruct (startPlayback_fresh now s Hsome Hoff) as (_ & Hon & Hstart & _).
    rewrite <- Hs' in *.
    split; [exact Hstart|].
    assert (loopDuration s' = loopDuration s) as Hd.
    { rewrite Hs'. unfold startPlayback.
      destruct (playback_mixer 0 now s) as ((_ & _ & _ & ? & _) & _). auto. }
    destruct (reachable_mixer s Hreach) as (_ & _ & [Hzero | Hpos]).
    - unfold getPlaybackPosition. rewrite Hd, Hzero, Hon. reflexivity.
    - rewrite getPlaybackPosition_playing; [|exact Hon|rewrite Hd; lra|lra].
      rewrite Hd.
      assert (Spec.qmod (now - playStartTime s') (loopDuration s) == 0) as ->.
      { rewrite (qmod_Qeq _ 0) by lra. apply qmod_small. lra. }
      field. lra. }
  assert (reachable s') as Hreach'
      by exact (reachable_run (OpTogglePlayback now) s Hreach).
  destruct (Hflip s' now' Hreach') as (_ & Hneg' & _).
  { fold s' in Hbuf. now rewrite Hbuf. }
  rewrite Hneg'. fold s' in Hneg. rewrite Hneg. apply negb_involutive.
Qed.

Lemma togglePlayback_flips_witness :
  isPlaying (snd (togglePlayback 11 Examples.recordingOverdub)) = false.
Proof.
  destruct (togglePlayback_flips Examples.recordingOverdub 11 12
              (reachable_runAll_loop _ _ (reachable_new _)))
    as (_ & H).
  destruct H as (_ & Hneg & _);
    [exists [replicate (Z.to_nat 44100) 0]; reflexivity|].
  exact Hneg.
Defined.

End LoopInvariants.

(** ** Loop controller: recording and its processing *)

Section LoopRecording.
Import JS Loop.
Local Open Scope Q_scope.

(** X12 -- [startRecording] and the loop: the loop duration is always 0
    (no loop recorded) or between 0.1 and 30 seconds; starting a recording
    never disturbs the loop that plays (buffer, duration, playback and
    position are as before); on a controller that is not initialized it
    returns [false] and changes nothing; otherwise it discards the chunks
    collected so far and, when the recorder can be created, records from
    [now] on, as an overdub exactly when a loop is playing; when the
    recorder cannot be created it returns [false] and the recording flag
    is as before.  [stopRecording] on a controller that is not recording
    returns [false] and changes nothing, so a second stop is refused. *)
Theorem startRecording_keeps_loop (s : LoopController) (now now' : Q)
        (captureOk : bool) (Hreach : reachable s) :
  let r := startRecording now captureOk s in
  (loopDuration s = 0 \/ (1#10) <= loopDuration s <= 30) /\
  (isInitialized s = false -> r = (false, s)) /\
  (recordedBuffer (snd r) = recordedBuffer s /\
   loopDuration (snd r) = loopDuration s /\
   isPlaying (snd r) = isPlaying s /\
   volume (snd r) = volume s /\
   forall t, getPlaybackPosition t (snd r) = getPlaybackPosition t s) /\
  (isInitialized s = true ->
   fst r = captureOk /\
   recordedChunks (snd r) = [] /\
   (captureOk = true ->
    isRecording (snd r) = true /\ recordStartTime (snd r) = now /\
    isOverdubRecording (snd r) = isPlaying s) /\
   (captureOk = false -> isRecording (snd r) = isRecording s)) /\
  (isRecording s = false -> stopRecording now s = (false, s)) /\
  fst (stopRecording now' (snd (stopRecording now s))) = false.
Proof.
  intros r.
  destruct (reachable_mixer s Hreach) as (_ & _ & Hd).
  split; [exact Hd|].
  split.
  { intros Hoff. subst r. unfold startRecording. now rewrite Hoff. }
  split.
  { destruct (recording_mixer now captureOk s)
      as ((Hv & _ & _ & Hl & Hb & Hp & Ht & _) & _).
    fold r in Hv, Hl, Hb, Hp, Ht.
    repeat (split; [assumption|]).
    intros t. unfold getPlaybackPosition. now rewrite Hp, Hl, Ht. }
  split.
  { intros Hon. subst r. unfold startRecording, isOverdubRecording.
    rewrite Hon. cbn [negb].
    destruct (isPlaying s) eqn:Hplay, captureOk; cbn;
      repeat split; try reflexivity; try discriminate;
      intros; congruence. }
  split.
  { intros Hoff. unfold stopRecording. now rewrite Hoff. }
  unfold stopRecording at 2.
  destruct (isRecording s) eqn:Hrec; cbn [negb].
  - unfold stopRecorder. cbn.
    repeat case_match; cbn; reflexivity.
  - cbn [snd]. unfold stopRecording. now rewrite Hrec.
Qed.

Lemma startRecording_keeps_loop_witness :
  isOverdubRecording (snd (startRecording 11 true Examples.recordingOverdub))
  = true.
Proof.
  destruct (startRecording_keeps_loop Examples.recordingOverdub 11 12 true
              (reachable_runAll_loop _ _ (reachable_new _)))
    as (_ & _ & _ & H & _).
  destruct (H eq_refl) as (_ & _ & Hon & _).
  destruct (Hon eq_refl) as (_ & _ & Hover).
  exact Hover.
Defined.

Lemma clear_state (now : Q) (s : LoopController) :
  reachable s ->
  isPlaying (snd (clear now s)) = false /\
  isRecording (snd (clear now s)) = false /\
  recordedBuffer (snd (clear now s)) = None /\
  recordedChunks (snd (clear now s)) = [] /\
  loopDuration (snd (clear now s)) = 0.
Proof.
  intros Hreach. pose proof (reachable_invariant s Hreach) as Hinv.
  unfold clear.
  set (s1 := if isRecording s then snd (stopRecording now s) else s).
  assert (invariant s1 /\ isRecording s1 = false) as (Hinv1 & Hrec1).
  { subst s1. destruct (isRecording s) eqn:Hrec; [|auto].
    split; [now apply invariant_stopRecording|].
    unfold stopRecording. rewrite Hrec. unfold stopRecorder. cbn.
    repeat case_match; reflexivity. }
  set (s2 := if isPlaying s1 then snd (stopPlayback s1) else s1).
  assert (isPlaying s2 = false /\ isRecording s2 = false) as (Hplay2 & Hrec2).
  { subst s2. destruct (isPlaying s1) eqn:Hplay; [|auto].
    split; [now apply stopPlayback_stops|].
    destruct (playback_mixer 0 now s1) as (_ & _ & _ & _ & _ & _ & -> & _).
    exact Hrec1. }
  clearbody s2. clear Hinv1 Hrec1. clearbody s1.
  unfold stopRecorder. cbn.
  repeat case_match; cbn; auto.
Qed.



(** X14 -- [processOverdubRecording] on a playing loop: it remembers the
    position, stops playback and, when the overdub has been decoded and
    mixed, installs the mix and resumes at the remembered position, so
    that the position right after resuming is the position at which
    playback stopped; the duration is unchanged.  When the decoding or the
    creation of the mix buffer fails, the old loop is kept but playback
    stays stopped. *)
Theorem processOverdubRecording_resumes (s : LoopController) (t1 t2 : Q)
        (overdub : AudioBuffer)
        (Hreach : reachable s) (Hplay : isPlaying s = true)
        (Hduration : 0 < loopDuration s) (Hnow : playStartTime s <= t1)
        (Hchunks : recordedChunks s <> []) :
  exists original s1,
    recordedBuffer s = Some original /\
    processOverdubBegin t1 s
    = (Some (getPlaybackPosition t1 s, Some original), s1) /\
    isPlaying s1 = false /\ recordedBuffer s1 = Some original /\
    loopDuration s1 = loopDuration s /\
    processOverdubDone (getPlaybackPosition t1 s) (Some original) None t2 s1 = s1 /\
    (mixOverdub (loopDuration s) (sampleRate s) (overdubStartTime s)
                (playStartTime s) original overdub = None ->
     processOverdubDone (getPlaybackPosition t1 s) (Some original)
                        (Some overdub) t2 s1 = s1) /\
    (forall mixedBuffer,
        mixOverdub (loopDuration s) (sampleRate s) (overdubStartTime s)
                   (playStartTime s) original overdub = Some mixedBuffer ->
        let s2 := processOverdubDone (getPlaybackPosition t1 s) (Some original)
                                     (Some overdub) t2 s1 in
        recordedBuffer s2 = Some mixedBuffer /\
        isPlaying s2 = true /\
        loopDuration s2 = loopDuration s /\
        getPlaybackPosition t2 s2 == getPlaybackPosition t1 s).
Proof.
  pose proof (reachable_invariant s Hreach) as (Hinv & _ & _).
  destruct (Hinv Hplay) as ([src Hsrc] & [original Horig]).
  exists original, (snd (stopPlayback s)).
  assert (snd (stopPlayback s) = set_isPlaying false (set_playbackSource None s))
    as Hs1 by (unfold stopPlayback; now rewrite Hplay, Hsrc).
  split; [exact Horig|].
  split.
  { unfold processOverdubBegin. destruct (recordedChunks s); [congruence|].
    rewrite Hs1. cbn. now rewrite Horig. }
  rewrite Hs1.
  set (s1 := set_isPlaying false (set_playbackSource None s)).
  split; [reflexivity|]. split; [exact Horig|]. split; [reflexivity|].
  split; [reflexivity|].
  split.
  { intros Hnone. unfold processOverdubDone. subst s1. cbn.
    now rewrite Hnone. }
  intros mixedBuffer Hmix s2. subst s2. unfold processOverdubDone.
  assert (mixOverdub (loopDuration s1) (sampleRate s1) (overdubStartTime s1)
                     (playStartTime s1) original overdub = Some mixedBuffer)
    as -> by exact Hmix.
  pose proof (getPlaybackPosition_bounds t1 s Hplay Hduration Hnow)
    as (Hrange & Hprod).
  set (position := getPlaybackPosition t1 s) in *.
  unfold startPlaybackAtPosition. cbn.
  destruct (Qltb (position * loopDuration s) 0) eqn:Hneg.
  { apply Qltb_lt in Hneg.
    assert (0 <= position * loopDuration s)
      by (apply Qmult_le_0_compat; lra).
    lra. }
  cbn. split; [reflexivity|]. split; [reflexivity|]. split; [reflexivity|].
  assert (0 <= position * loopDuration s) as Hoff
      by (apply Qmult_le_0_compat; lra).
  assert (position * loopDuration s < loopDuration s) as Hlt.
  { rewrite Hprod. apply qmod_range. exact Hduration. }
  rewrite getPlaybackPosition_playing; cbn; [|reflexivity|exact Hduration|lra].
  assert (Spec.qmod (t2 - (t2 - position * loopDuration s)) (loopDuration s)
          == position * loopDuration s) as ->.
  { rewrite (qmod_Qeq _ (position * loopDuration s)) by ring.
    apply qmod_small. lra. }
  field. lra.
Qed.

Lemma processOverdubRecording_resumes_witness :
  exists original s1,
    processOverdubBegin 12 (dataAvailable 100 Examples.recordingOverdub)
    = (Some (getPlaybackPosition 12
               (dataAvailable 100 Examples.recordingOverdub),
             Some original), s1) /\
    isPlaying s1 = false.
Proof.
  assert (reachable (dataAvailable 100 Examples.recordingOverdub)) as Hreach.
  { apply (reachable_run (OpDataAvailable 100)).
    apply reachable_runAll_loop, reachable_new. }
  assert (0 < loopDuration (dataAvailable 100 Examples.recordingOverdub))
    as Hd by (vm_compute; reflexivity).
  assert (playStartTime (dataAvailable 100 Examples.recordingOverdub) <= 12)
    as Hnow by (vm_compute; discriminate).
  assert (recordedChunks (dataAvailable 100 Examples.recordingOverdub) <> [])
    as Hchunks by (vm_compute; discriminate).
  destruct (processOverdubRecording_resumes
              (dataAvailable 100 Examples.recordingOverdub) 12 13 [[0]]
              Hreach eq_refl Hd Hnow Hchunks)
    as (original & s1 & _ & Hbegin & Hoff & _).
  exists original, s1. split; assumption.
Defined.

End LoopRecording.

(** ** Overdub mixing: range and untouched samples *)

Section MixingRange.
Import JS Loop.
Local Open Scope Q_scope.







End MixingRange.

(** ** The loop buttons and the loop volume knob *)

Section LoopButtons.
Import JS Controls.
Local Open Scope Q_scope.

Lemma updateUI_frame (now : Q) (u : LoopControls) :
  loopController (updateUI now u) = loopController u /\
  volumeRotation (updateUI now u)
  = (Loop.volume (loopController u) - (5#10)) * 270 /\
  isDraggingVolume (updateUI now u) = isDraggingVolume u /\
  volumeStartY (updateUI now u) = volumeStartY u /\
  volumeStartValue (updateUI now u) = volumeStartValue u.
Proof.
  unfold updateUI, updateProgressCircle. cbn.
  repeat case_match; cbn; auto.
Qed.

(** The controller behind the controls is in a state it can reach. *)
Lemma controls_controller (u : LoopControls) :
  reachable u -> Loop.reachable (loopController u).
Proof.
  induction 1 as [c Hc | op u Hreach IH]; [exact Hc|].
  destruct op as [now ok | now | now | y | y | | now | op]; cbn [run].
  - unfold handleRecord. rewrite (proj1 (updateUI_frame _ _)).
    cbn [loopController with_loopController].
    destruct (Loop.st_isRecording _).
    + exact (Loop.reachable_run (Loop.OpStopRecording now) _ IH).
    + exact (Loop.reachable_run (Loop.OpStartRecording now ok) _ IH).
  - unfold handlePlayPause.
    destruct (negb _); [exact IH|].
    rewrite (proj1 (updateUI_frame _ _)).
    exact (Loop.reachable_run (Loop.OpTogglePlayback now) _ IH).
  - unfold handleClear. rewrite (proj1 (updateUI_frame _ _)).
    exact (Loop.reachable_run (Loop.OpClear now) _ IH).
  - exact IH.
  - unfold handleVolumeMove. destruct (isDraggingVolume u); cbn; [|exact IH].
    exact (Loop.reachable_run (Loop.OpSetVolume _) _ IH).
  - exact IH.
  - rewrite (proj1 (updateUI_frame _ _)). exact IH.
  - cbn. exact (Loop.reachable_run op _ IH).
Qed.

Lemma rotation_range (volume : Q) :
  0 <= volume <= 1 -> -135 <= (volume - (5#10)) * 270 <= 135.
Proof. intros H. lra. Qed.

Lemma reachable_rotation (u : LoopControls) :
  reachable u -> -135 <= volumeRotation u <= 135.
Proof.
  intros Hreach.
  induction Hreach as [c Hc | op u Hreach IH]; [cbn; lra|].
  pose proof (controls_controller u Hreach) as Hc.
  assert (forall c now, Loop.reachable c ->
            -135 <= volumeRotation (updateUI now (with_loopController c u)) <= 135)
    as Hui.
  { intros c now Hc'.
    destruct (updateUI_frame now (with_loopController c u)) as (_ & -> & _).
    apply rotation_range. cbn. now apply reachable_mixer. }
  destruct op as [now ok | now | now | y | y | | now | op]; cbn [run].
  - unfold handleRecord.
    destruct (Loop.st_isRecording _); apply Hui.
    + exact (Loop.reachable_run (Loop.OpStopRecording now) _ Hc).
    + exact (Loop.reachable_run (Loop.OpStartRecording now ok) _ Hc).
  - unfold handlePlayPause.
    destruct (negb _); [exact IH|].
    apply Hui. exact (Loop.reachable_run (Loop.OpTogglePlayback now) _ Hc).
  - unfold handleClear. apply Hui.
    exact (Loop.reachable_run (Loop.OpClear now) _ Hc).
  - exact IH.
  - unfold handleVolumeMove. destruct (isDraggingVolume u); cbn; [|exact IH].
    apply rotation_range, clamp01_range.
  - exact IH.
  - destruct (updateUI_frame now u) as (_ & -> & _).
    apply rotation_range. now apply reachable_mixer.
  - exact IH.
Qed.

Lemma clamp01_idempotent (v : Q) :
  Math_max 0 (Math_min 1 (Math_max 0 (Math_min 1 v)))
  == Math_max 0 (Math_min 1 v).
Proof.
  apply clamp01_id, clamp01_range.
Qed.

(** X16 -- the loop volume knob: its rotation never leaves [-135,135]
    degrees; while the knob is dragged, a move to pointer height [clientY]
    sets the controller's volume to the volume at the start of the drag
    plus 0.005 per pixel moved up, clamped to [0,1], turns the knob to
    [(volume - 0.5) * 270] degrees, and the gain node of an initialized
    controller follows; the result depends only on the start of the drag
    and the last pointer height; a move without a drag does nothing. *)
Theorem handleVolumeMove_volume (u : LoopControls) (clientY clientY' : Q)
        (Hreach : reachable u) :
  let u' := handleVolumeMove clientY u in
  let target :=
    Qmin 1 (Qmax 0 (volumeStartValue u + (volumeStartY u - clientY) * (5#1000))) in
  -135 <= volumeRotation u <= 135 /\
  (isDraggingVolume u = false -> u' = u) /\
  (isDraggingVolume u = true ->
   Loop.volume (loopController u') == target /\
   volumeRotation u' == (target - (5#10)) * 270 /\
   Loop.outputGain (loopController u')
   = (if Loop.isInitialized (loopController u)
      then Some (Loop.volume (loopController u')) else None) /\
   handleVolumeMove clientY (handleVolumeMove clientY' u) = u' /\
   (volumeStartValue u == 0 -> volumeStartY u - clientY == 200 ->
    Loop.volume (loopController u') == 1)).
Proof.
  intros u' target.
  pose proof (controls_controller u Hreach) as Hc.
  split; [now apply reachable_rotation|].
  split.
  { intros Hoff. subst u'. unfold handleVolumeMove. now rewrite Hoff. }
  intros Hon.
  set (newValue := Math_max 0 (Math_min 1 (volumeStartValue u
                     + (volumeStartY u - clientY) * (5#1000)))).
  assert (newValue == target) as Htarget by apply clamp01_minmax.
  assert (u' = updateVolumeKnob newValue
                 (with_loopController (Loop.setVolume newValue (loopController u)) u))
    as Hu'.
  { subst u'. unfold handleVolumeMove. now rewrite Hon. }
  destruct (setVolume_fields newValue (loopController u)) as (Hvol & _).
  pose proof (setVolume_outputGain newValue (loopController u) Hc) as Hgain.
  assert (Loop.volume (loopController u') == target) as Hv.
  { rewrite Hu'. cbn. rewrite Hvol.
    subst newValue. rewrite clamp01_idempotent. exact Htarget. }
  split; [exact Hv|].
  split; [rewrite Hu'; cbn; rewrite Htarget; reflexivity|].
  split; [rewrite Hu'; cbn; exact Hgain|].
  split.
  { rewrite Hu'.
    set (other := Math_max 0 (Math_min 1 (volumeStartValue u
                    + (volumeStartY u - clientY') * (5#1000)))).
    assert (handleVolumeMove clientY' u
            = updateVolumeKnob other
                (with_loopController (Loop.setVolume other (loopController u)) u))
      as -> by (unfold handleVolumeMove; now rewrite Hon).
    unfold handleVolumeMove. cbn. rewrite Hon. cbn. fold newValue.
    rewrite setVolume_last. reflexivity. }
  intros Hzero Hpixels. rewrite Hv. subst target.
  assert (volumeStartValue u + (volumeStartY u - clientY) * (5#1000) == 1)
    as Hone by (rewrite Hzero, Hpixels; reflexivity).
  rewrite <- clamp01_minmax. rewrite clamp01_id by lra. exact Hone.
Qed.

Lemma handleVolumeMove_volume_witness :
  Loop.volume
    (loopController
       (handleVolumeMove 100 (startVolumeInteraction 300 (new (Loop.new 44100)))))
  == 1.
Proof.
  assert (reachable (startVolumeInteraction 300 (new (Loop.new 44100))))
    as Hreach.
  { apply (reachable_run (OpStartVolumeInteraction 300)).
    apply reachable_new, Loop.reachable_new. }
  destruct (handleVolumeMove_volume _ 100 0 Hreach) as (_ & _ & H).
  destruct (H eq_refl) as (Hvol & _).
  rewrite Hvol. reflexivity.
Defined.

End LoopButtons.

(** ** The loop buttons and the progress ring *)

Section LoopButtonsState.
Import JS Controls.
Local Open Scope Q_scope.

Lemma stopRecording_off (now : Q) (s : Loop.LoopController) :
  Loop.isRecording (snd (Loop.stopRecording now s)) = false.
Proof.
  unfold Loop.stopRecording.
  destruct (Loop.isRecording s) eqn:Hrec; cbn [negb snd]; [|exact Hrec].
  unfold Loop.stopRecorder. cbn.
  repeat case_match; reflexivity.
Qed.

Lemma startRecording_on (now : Q) (s : Loop.LoopController) :
  Loop.isInitialized s = true ->
  Loop.isRecording (snd (Loop.startRecording now true s)) = true.
Proof.
  intros Hinit. unfold Loop.startRecording. rewrite Hinit. cbn.
  destruct (Loop.isPlaying s); reflexivity.
Qed.

Lemma togglePlayback_playing (now : Q) (s : Loop.LoopController) :
  Loop.reachable s -> is_Some (Loop.recordedBuffer s) ->
  Loop.isPlaying (snd (Loop.togglePlayback now s)) = negb (Loop.isPlaying s).
Proof.
  intros Hreach Hsome.
  pose proof (reachable_invariant s Hreach) as (Hp & _ & _).
  unfold Loop.togglePlayback.
  destruct (Loop.isPlaying s) eqn:Hon.
  - destruct (Hp eq_refl) as ([src Hsrc] & _).
    unfold Loop.stopPlayback. rewrite Hon, Hsrc. reflexivity.
  - destruct (startPlayback_fresh now s Hsome Hon) as (_ & B & _).
    destruct Hsome as [b ->]. exact B.
Qed.

(** X17 -- the three loop buttons.  Play/pause does nothing while there is
    no loop and flips playback when there is one.  Record stops a recording
    that runs (whatever else holds) and, on an initialized controller whose
    recorder can be created, starts one when none runs: it flips the
    recording state; on a controller that is not initialized it leaves an
    idle controller as it is.  Clear leaves a controller that neither
    records nor plays and has no loop, at the volume it had. *)
Theorem loop_buttons (u : LoopControls) (now : Q) (captureOk : bool)
        (Hreach : reachable u) :
  let c := loopController u in
  (Loop.recordedBuffer c = None -> handlePlayPause now u = u) /\
  (is_Some (Loop.recordedBuffer c) ->
   Loop.isPlaying (loopController (handlePlayPause now u))
   = negb (Loop.isPlaying c)) /\
  (Loop.isRecording c = true ->
   Loop.isRecording (loopController (handleRecord now captureOk u)) = false) /\
  (Loop.isInitialized c = true ->
   Loop.isRecording (loopController (handleRecord now true u))
   = negb (Loop.isRecording c)) /\
  (Loop.isInitialized c = false -> Loop.isRecording c = false ->
   loopController (handleRecord now captureOk u) = c) /\
  Loop.getState (loopController (handleClear now u))
  = Loop.mkState false false false 0 (Loop.volume c).
Proof.
  intros c. pose proof (controls_controller u Hreach) as Hc. fold c in Hc.
  split.
  { intros Hnone. unfold handlePlayPause. cbn. fold c. now rewrite Hnone. }
  split.
  { intros Hsome. unfold handlePlayPause. cbn. fold c.
    destruct Hsome as [b Hb]. rewrite Hb. cbn [negb].
    rewrite (proj1 (updateUI_frame _ _)). cbn.
    apply togglePlayback_playing; [exact Hc | rewrite Hb; eauto]. }
  split.
  { intros Hrec. unfold handleRecord.
    rewrite (proj1 (updateUI_frame _ _)). cbn. fold c. rewrite Hrec.
    apply stopRecording_off. }
  split.
  { intros Hinit. unfold handleRecord.
    rewrite (proj1 (updateUI_frame _ _)). cbn. fold c.
    destruct (Loop.isRecording c) eqn:Hrec; cbn [negb].
    - apply stopRecording_off.
    - now apply startRecording_on. }
  split.
  { intros Hoff Hrec. unfold handleRecord.
    rewrite (proj1 (updateUI_frame _ _)). cbn. fold c. rewrite Hrec.
    unfold Loop.startRecording. now rewrite Hoff. }
  unfold handleClear. rewrite (proj1 (updateUI_frame _ _)).
  cbn [loopController with_loopController]. fold c.
  destruct (clear_state now c Hc) as (Hplay & Hrec & Hbuf & _ & Hdur).
  pose proof (clear_mixer now c) as Hm. cbn zeta in Hm.
  destruct Hm as (Hvol & _).
  unfold Loop.getState. now rewrite Hplay, Hrec, Hbuf, Hdur, Hvol.
Qed.

Lemma loop_buttons_witness :
  Loop.isRecording
    (loopController
       (handleRecord 5 true (new (Loop.initialize true (Loop.new 44100)))))
  = true.
Proof.
  assert (reachable (new (Loop.initialize true (Loop.new 44100)))) as Hreach.
  { apply reachable_new. apply (Loop.reachable_run (Loop.OpInitialize true)).
    apply Loop.reachable_new. }
  destruct (loop_buttons _ 5 true Hreach) as (_ & _ & _ & H & _).
  exact (H eq_refl).
Defined.

Lemma progressOffset_fraction (position : Q) :
  0 <= position < 1 ->
  progressOffset position == circumference * (1 - position) /\
  0 < progressOffset position <= circumference.
Proof.
  intros Hp. unfold progressOffset.
  rewrite fmod_qmod by lra.
  assert (Spec.qmod position 1 == position) as Hq by (apply qmod_small; lra).
  unfold circumference in *.
  split.
  - rewrite Hq. ring.
  - rewrite Hq. lra.
Qed.

(** X18 -- the progress ring: for a loop that plays, [updateUI] sets the
    dash offset of the ring to the circumference, 113.10, times the part
    of the loop that is still to come, a number in (0, 113.10]; positions
    that differ by a whole number of passes give the same offset; and while
    nothing plays the ring is left as it is. *)
Theorem updateUI_progress (u : LoopControls) (now : Q) (Hreach : reachable u) :
  let c := loopController u in
  (Loop.isPlaying c = false ->
   strokeDashoffset (updateUI now u) = strokeDashoffset u) /\
  (Loop.isPlaying c = true -> 0 < Loop.loopDuration c ->
   Loop.playStartTime c <= now ->
   exists offset,
     strokeDashoffset (updateUI now u) = Some offset /\
     offset == circumference * (1 - Loop.getPlaybackPosition now c) /\
     0 < offset <= circumference) /\
  (forall position (k : Z),
      0 <= position < 1 -> (0 <= k)%Z ->
      progressOffset (position + inject_Z k) == progressOffset position).
Proof.
  intros c. pose proof (controls_controller u Hreach) as Hc. fold c in Hc.
  split.
  { intros Hoff. unfold updateUI. cbn. fold c. now rewrite Hoff. }
  split.
  { intros Hon Hd Hnow.
    pose proof (reachable_invariant c Hc) as (Hp & _ & _).
    destruct (Hp Hon) as (_ & [b Hb]).
    unfold updateUI. cbn. fold c. rewrite Hon, Hb. cbn.
    eexists. split; [reflexivity|].
    apply progressOffset_fraction.
    now apply getPlaybackPosition_bounds. }
  intros position k Hp Hk.
  assert (0 <= inject_Z k) as Hk'
      by (change 0 with (inject_Z 0); now rewrite <- Zle_Qle).
  unfold progressOffset. rewrite !fmod_qmod by lra.
  assert (Spec.qmod (position + inject_Z k) 1 == Spec.qmod position 1) as ->.
  { rewrite <- (qmod_period position 1 k) by lra.
    apply qmod_Qeq. ring. }
  reflexivity.
Qed.

Lemma updateUI_progress_witness :
  exists offset,
    strokeDashoffset (updateUI (9#2) (new Examples.recordingOverdub))
    = Some offset /\
    0 < offset <= circumference.
Proof.
  assert (reachable (new Examples.recordingOverdub)) as Hreach.
  { apply reachable_new. apply reachable_runAll_loop, Loop.reachable_new. }
  destruct (updateUI_progress _ (9#2) Hreach) as (_ & H & _).
  destruct H as (offset & Hoff & _ & Hrange);
    [reflexivity | vm_compute; reflexivity | vm_compute; discriminate |].
  exists offset. split; assumption.
Defined.

End LoopButtonsState.

(** ** The knob widget *)

Section KnobValues.
Import JS.
Local Open Scope Q_scope.

Lemma Math_clamp_range (lo hi v : Q) :
  lo <= hi ->
  lo <= Math_max lo (Math_min hi v) <= hi /\
  (lo <= v <= hi -> Math_max lo (Math_min hi v) == v) /\
  (hi <= v -> Math_max lo (Math_min hi v) == hi) /\
  (v <= lo -> Math_max lo (Math_min hi v) == lo).
Proof.
  intros Hle. unfold Math_max, Math_min.
  destruct (Qltb v hi) eqn:H1.
  - apply Qltb_lt in H1.
    destruct (Qltb lo v) eqn:H2;
      [apply Qltb_lt in H2 | apply Qltb_ge in H2]; repeat split; intros; lra.
  - apply Qltb_ge in H1.
    destruct (Qltb lo hi) eqn:H2;
      [apply Qltb_lt in H2 | apply Qltb_ge in H2]; repeat split; intros; lra.
Qed.

Lemma Math_round_near (q : Q) :
  q - (1#2) < inject_Z (Knob.Math_round q) /\
  inject_Z (Knob.Math_round q) <= q + (1#2).
Proof.
  unfold Knob.Math_round.
  pose proof (Qfloor_le (q + (1#2))) as H1.
  pose proof (Qlt_floor (q + (1#2))) as H2.
  rewrite inject_Z_plus in H2. change (inject_Z 1) with 1 in H2.
  split; lra.
Qed.

Lemma Math_round_Z (q : Q) (j : Z) : q == inject_Z j -> Knob.Math_round q = j.
Proof.
  intros Hq. unfold Knob.Math_round. apply Qfloor_unique.
  - lra.
  - rewrite inject_Z_plus. change (inject_Z 1) with 1. lra.
Qed.

Lemma Math_round_range (q : Q) (n : Z) :
  0 <= q <= inject_Z n -> (0 <= Knob.Math_round q <= n)%Z.
Proof.
  intros [Hlo Hhi].
  destruct (Math_round_near q) as [H1 H2].
  assert (inject_Z (-1) < inject_Z (Knob.Math_round q)) as A
      by (change (inject_Z (-1)) with (-1); lra).
  assert (inject_Z (Knob.Math_round q) < inject_Z (n + 1)) as B
      by (rewrite inject_Z_plus; change (inject_Z 1) with 1; lra).
  rewrite <- Zlt_Qlt in A, B. lia.
Qed.

(** The value [setValue] settles on is the grid point nearest to the
    clamped value. *)
Lemma steppedValueOf_grid (o : Knob.Options) (n : Z) (v : Q) :
  Knob.gridFits o n ->
  exists j : Z,
    (0 <= j <= n)%Z /\
    Knob.steppedValueOf o v = Knob.min o + inject_Z j * Knob.step o /\
    Knob.min o <= Knob.steppedValueOf o v <= Knob.max o /\
    Qabs (Knob.steppedValueOf o v
          - Math_max (Knob.min o) (Math_min (Knob.max o) v))
    <= Knob.step o * (1#2) /\
    (forall i : Z, (0 <= i <= n)%Z ->
                   v == Knob.min o + inject_Z i * Knob.step o -> j = i) /\
    (Knob.max o <= v -> j = n) /\
    (v <= Knob.min o -> j = 0%Z).
Proof.
  intros (Hstep & Hn & Hmax).
  assert (0 <= inject_Z n) as Hn'
      by (change 0 with (inject_Z 0); now rewrite <- Zle_Qle).
  assert (Knob.min o <= Knob.max o) as Hle.
  { rewrite Hmax.
    assert (0 <= inject_Z n * Knob.step o)
      by (apply Qmult_le_0_compat; lra).
    lra. }
  unfold Knob.steppedValueOf.
  assert (Qltb 0 (Knob.step o) = true) as -> by now apply Qltb_lt.
  set (c := Math_max (Knob.min o) (Math_min (Knob.max o) v)).
  destruct (Math_clamp_range (Knob.min o) (Knob.max o) v Hle)
    as (Hc & Hid & Htopc & Hbotc).
  fold c in Hc, Hid, Htopc, Hbotc.
  set (q := (c - Knob.min o) / Knob.step o).
  assert (q * Knob.step o == c - Knob.min o) as Hq
      by (subst q; field; lra).
  assert (0 <= q <= inject_Z n) as Hqr.
  { split.
    - subst q. apply Qle_shift_div_l; lra.
    - subst q. apply Qle_shift_div_r; lra. }
  exists (Knob.Math_round q).
  pose proof (Math_round_range q n Hqr) as Hj.
  destruct (Math_round_near q) as [Hn1 Hn2].
  set (j := Knob.Math_round q) in *.
  assert (0 <= inject_Z j <= inject_Z n) as Hj'.
  { split.
    - change 0 with (inject_Z 0). rewrite <- Zle_Qle. lia.
    - rewrite <- Zle_Qle. lia. }
  assert ((inject_Z j - q) * Knob.step o <= (1#2) * Knob.step o) as Hup
      by (apply Qmult_le_compat_r; lra).
  assert (-(1#2) * Knob.step o <= (inject_Z j - q) * Knob.step o) as Hdown
      by (apply Qmult_le_compat_r; lra).
  assert (inject_Z j * Knob.step o <= inject_Z n * Knob.step o) as Htop
      by (apply Qmult_le_compat_r; lra).
  assert (0 <= inject_Z j * Knob.step o) as Hbot
      by (apply Qmult_le_0_compat; lra).
  split; [exact Hj|]. split; [reflexivity|].
  split; [lra|].
  split.
  { apply Qabs_Qle_condition. split; lra. }
  split.
  { intros i Hi Hv.
    assert (0 <= inject_Z i <= inject_Z n) as Hi'.
    { split.
      - change 0 with (inject_Z 0). rewrite <- Zle_Qle. lia.
      - rewrite <- Zle_Qle. lia. }
    assert (inject_Z i * Knob.step o <= inject_Z n * Knob.step o)
      by (apply Qmult_le_compat_r; lra).
    assert (0 <= inject_Z i * Knob.step o)
      by (apply Qmult_le_0_compat; lra).
    assert (c == v) as Hcv by (apply Hid; lra).
    subst j. apply Math_round_Z. subst q.
    rewrite Hcv, Hv. field. lra. }
  split.
  { intros Htop'. subst j. apply Math_round_Z. subst q.
    rewrite (Htopc Htop'), Hmax. field. lra. }
  intros Hbot'. subst j. apply Math_round_Z. subst q.
  rewrite (Hbotc Hbot'). change (inject_Z 0) with 0. field. lra.
Qed.

Lemma setValue_value (v : Q) (notify : bool) (k : Knob.KnobControl) :
  Knob.value (Knob.setValue v notify k)
  == Knob.steppedValueOf (Knob.options k) v /\
  Knob.options (Knob.setValue v notify k) = Knob.options k /\
  Knob.isDragging (Knob.setValue v notify k) = Knob.isDragging k /\
  Knob.startY (Knob.setValue v notify k) = Knob.startY k /\
  Knob.startValue (Knob.setValue v notify k) = Knob.startValue k.
Proof.
  unfold Knob.setValue.
  destruct (Qeq_bool _ _) eqn:Heq; cbn; repeat split; try reflexivity.
  apply Qeq_bool_iff in Heq. now symmetry.
Qed.



End KnobValues.

(** ** The knob widget: drags, steps and what the callbacks receive *)

Section KnobGestures.
Import JS.
Local Open Scope Q_scope.



(** X21 -- stepping a knob: from a grid point, [increment(m)] moves [m]
    grid points up as long as that stays in the range, and [decrement(m)]
    undoes it; an increment that would pass the maximum stops at the
    maximum, and a decrement that would pass the minimum stops at the
    minimum. *)
Theorem knob_increment (k : Knob.KnobControl) (n j m : Z)
        (Hfit : Knob.gridFits (Knob.options k) n)
        (Hvalue : Knob.value k
                  == Knob.min (Knob.options k)
                     + inject_Z j * Knob.step (Knob.options k))
        (Hj : (0 <= j <= n)%Z) (Hm : (0 <= m)%Z) :
  let o := Knob.options k in
  let up := Knob.increment (inject_Z m) k in
  ((j + m <= n)%Z ->
   Knob.value up == Knob.min o + inject_Z (j + m) * Knob.step o /\
   Knob.value (Knob.decrement (inject_Z m) up) == Knob.value k) /\
  ((n <= j + m)%Z -> Knob.value up == Knob.max o) /\
  ((j - m <= 0)%Z ->
   Knob.value (Knob.decrement (inject_Z m) k) == Knob.min o).
Proof.
  intros o up.
  pose proof Hfit as (Hstep & Hn & Hmax). fold o in Hstep, Hmax, Hvalue.
  assert (forall k0 steps,
             Knob.options k0 = o ->
             Knob.value (Knob.increment steps k0)
             == Knob.steppedValueOf o (Knob.value k0 + Knob.step o * steps) /\
             Knob.options (Knob.increment steps k0) = o) as Hinc.
  { intros k0 steps Ho. unfold Knob.increment. rewrite Ho.
    assert (Qeq_bool (Knob.step o) 0 = false) as ->.
    { destruct (Qeq_bool (Knob.step o) 0) eqn:Hz; [|reflexivity].
      apply Qeq_bool_iff in Hz. lra. }
    destruct (setValue_value (Knob.value k0 + Knob.step o * steps) true k0)
      as (A & B & _).
    rewrite Ho in A, B. auto. }
  assert (0 <= inject_Z m) as Hm'
      by (change 0 with (inject_Z 0); now rewrite <- Zle_Qle).
  assert (0 <= inject_Z j <= inject_Z n) as Hj'.
  { split.
    - change 0 with (inject_Z 0). rewrite <- Zle_Qle. lia.
    - rewrite <- Zle_Qle. lia. }
  destruct (Hinc k (inject_Z m) eq_refl) as (Hup & Hopt). fold up in Hup, Hopt.
  split.
  { intros Htop.
    assert (Knob.value up == Knob.min o + inject_Z (j + m) * Knob.step o)
      as Hup'.
    { rewrite Hup.
      destruct (steppedValueOf_grid o n
                  (Knob.value k + Knob.step o * inject_Z m) Hfit)
        as (i & _ & Hg & _ & _ & Hid & _).
      rewrite Hg, (Hid (j + m)%Z); [reflexivity | lia |].
      rewrite Hvalue, inject_Z_plus. ring. }
    split; [exact Hup'|].
    unfold Knob.decrement.
    destruct (Hinc up (- inject_Z m) Hopt) as (Hdown & _).
    rewrite Hdown.
    destruct (steppedValueOf_grid o n
                (Knob.value up + Knob.step o * - inject_Z m) Hfit)
      as (i & _ & Hg & _ & _ & Hid & _).
    rewrite Hg, (Hid j); [now rewrite Hvalue | lia |].
    rewrite Hup', inject_Z_plus. ring. }
  split.
  { intros Htop. rewrite Hup.
    destruct (steppedValueOf_grid o n
                (Knob.value k + Knob.step o * inject_Z m) Hfit)
      as (i & _ & Hg & _ & _ & _ & Hmaxi & _).
    rewrite Hg, Hmaxi; [now rewrite Hmax|].
    rewrite Hvalue, Hmax.
    assert (inject_Z n <= inject_Z j + inject_Z m) as Hle
        by (rewrite <- inject_Z_plus, <- Zle_Qle; lia).
    assert (inject_Z n * Knob.step o
            <= (inject_Z j + inject_Z m) * Knob.step o)
      by (apply Qmult_le_compat_r; lra).
    lra. }
  intros Hbot. unfold Knob.decrement.
  destruct (Hinc k (- inject_Z m) eq_refl) as (Hdown & _).
  rewrite Hdown.
  destruct (steppedValueOf_grid o n
              (Knob.value k + Knob.step o * - inject_Z m) Hfit)
    as (i & _ & Hg & _ & _ & _ & _ & Hmini).
  rewrite Hg, Hmini; [change (inject_Z 0) with 0; ring|].
  rewrite Hvalue.
  assert (inject_Z j <= inject_Z m) as Hle by (rewrite <- Zle_Qle; lia).
  assert (inject_Z j * Knob.step o <= inject_Z m * Knob.step o)
    by (apply Qmult_le_compat_r; lra).
  lra.
Qed.

Lemma knob_increment_witness :
  Knob.value (Knob.increment (inject_Z 10) (Knob.new Knob.defaults)) == 6#10.
Proof.
  assert (Knob.gridFits Knob.defaults 100) as Hfit.
  { split; [reflexivity|]. split; [lia | reflexivity]. }
  destruct (knob_increment (Knob.new Knob.defaults) 100 50 10 Hfit
              ltac:(reflexivity) ltac:(lia) ltac:(lia)) as (H & _).
  destruct (H ltac:(lia)) as (Hup & _).
  rewrite Hup. reflexivity.
Defined.

End KnobGestures.

(** ** The knob widget: what every reachable knob satisfies *)

Section KnobInvariant.
Import JS.
Local Open Scope Q_scope.

Lemma setValue_invariant (o : Knob.Options) (n : Z) (v : Q) (notify : bool)
      (k : Knob.KnobControl) :
  Knob.gridFits o n ->
  Knob.options k = o /\
  Knob.rotation k = Knob.valueToRotation o (Knob.value k) /\
  Forall (fun w => Knob.onGrid o n w /\ Knob.min o <= w <= Knob.max o)
         (Knob.notified k) /\
  (Knob.value k = Knob.initialValue o \/
   (Knob.onGrid o n (Knob.value k) /\
    Knob.min o <= Knob.value k <= Knob.max o)) ->
  Knob.options (Knob.setValue v notify k) = o /\
  Knob.rotation (Knob.setValue v notify k)
  = Knob.valueToRotation o (Knob.value (Knob.setValue v notify k)) /\
  Forall (fun w => Knob.onGrid o n w /\ Knob.min o <= w <= Knob.max o)
         (Knob.notified (Knob.setValue v notify k)) /\
  (Knob.value (Knob.setValue v notify k) = Knob.initialValue o \/
   (Knob.onGrid o n (Knob.value (Knob.setValue v notify k)) /\
    Knob.min o <= Knob.value (Knob.setValue v notify k) <= Knob.max o)).
Proof.
  intros Hfit (Ho & Hr & Hn & Hv).
  destruct (steppedValueOf_grid o n v Hfit) as (j & Hj & Hg & Hrange & _).
  unfold Knob.setValue. rewrite Ho.
  destruct (Qeq_bool _ _); [rewrite Ho; auto|].
  cbn. split; [reflexivity|]. split; [reflexivity|].
  assert (Knob.onGrid o n (Knob.steppedValueOf o v)) as Hon.
  { exists j. split; [exact Hj|]. rewrite Hg. reflexivity. }
  split.
  - destruct notify; [|exact Hn].
    apply Forall_app. split; [exact Hn|]. repeat constructor; tauto.
  - right. auto.
Qed.

(** X22 -- what holds of a knob whose step divides its range, whatever has
    been done to it: the rotation shown is the one that belongs to the
    value; unless it still has its initial value, the value is a grid
    point of the range; every value the callbacks were notified of is a
    grid point of the range; with an initial value inside the range the
    rotation stays within [-135,135] degrees.  For the parameter knobs of
    [main.js] (0 to 1 in steps of 0.01) this means that [setParameter]
    only receives values in [0,1], which it stores as they are. *)
Theorem knob_notifications (o : Knob.Options) (n : Z) (k : Knob.KnobControl)
        (Hfit : Knob.gridFits o n) (Hreach : Knob.reachable o k) :
  Knob.options k = o /\
  Knob.rotation k = Knob.valueToRotation o (Knob.value k) /\
  Forall (fun w => Knob.onGrid o n w /\ Knob.min o <= w <= Knob.max o)
         (Knob.notified k) /\
  (Knob.value k = Knob.initialValue o \/
   (Knob.onGrid o n (Knob.value k) /\
    Knob.min o <= Knob.value k <= Knob.max o)) /\
  (Knob.min o < Knob.max o ->
   Knob.min o <= Knob.initialValue o <= Knob.max o ->
   -135 <= Knob.rotation k <= 135) /\
  (forall initial w name s,
      o = Knob.parameterOptions initial -> w ∈ Knob.notified k ->
      0 <= w <= 1 /\
      exists stored,
        Synth.getParameter name (Synth.setParameter name w s) = Some stored /\
        stored == w).
Proof.
  assert (Knob.options k = o /\
          Knob.rotation k = Knob.valueToRotation o (Knob.value k) /\
          Forall (fun w => Knob.onGrid o n w /\ Knob.min o <= w <= Knob.max o)
                 (Knob.notified k) /\
          (Knob.value k = Knob.initialValue o \/
           (Knob.onGrid o n (Knob.value k) /\
            Knob.min o <= Knob.value k <= Knob.max o))) as Hinv.
  { induction Hreach as [|op k Hreach IH].
    - cbn. repeat split; auto.
    - destruct op as [y | y | | v notify | steps | steps |]; cbn [Knob.run].
      + destruct IH as (A & B & C & D). cbn. auto.
      + unfold Knob.onMove, Knob.updateFromDrag.
        destruct (Knob.isDragging k); [|exact IH].
        now apply setValue_invariant.
      + unfold Knob.onUp, Knob.endDrag.
        destruct (Knob.isDragging k); [|exact IH].
        assert (forall k0, Knob.options k0 = Knob.options k ->
                  Knob.value k0 = Knob.value k ->
                  Knob.rotation k0 = Knob.rotation k ->
                  Knob.notified k0 = Knob.notified k ->
                  Knob.options k0 = o /\
                  Knob.rotation k0 = Knob.valueToRotation o (Knob.value k0) /\
                  Forall (fun w => Knob.onGrid o n w
                                   /\ Knob.min o <= w <= Knob.max o)
                         (Knob.notified k0) /\
                  (Knob.value k0 = Knob.initialValue o \/
                   (Knob.onGrid o n (Knob.value k0) /\
                    Knob.min o <= Knob.value k0 <= Knob.max o))) as Hsame.
        { intros k0 -> -> -> ->. exact IH. }
        cbn [Knob.options Knob.value].
        destruct (Knob.snapToCenter (Knob.options k));
          [|apply Hsame; reflexivity].
        destruct (Qltb _ _); [|apply Hsame; reflexivity].
        apply setValue_invariant; [exact Hfit|]. apply Hsame; reflexivity.
      + now apply setValue_invariant.
      + unfold Knob.increment. now apply setValue_invariant.
      + unfold Knob.decrement, Knob.increment. now apply setValue_invariant.
      + unfold Knob.reset. now apply setValue_invariant. }
  destruct Hinv as (Ho & Hr & Hn & Hv).
  split; [exact Ho|]. split; [exact Hr|]. split; [exact Hn|].
  split; [exact Hv|].
  split.
  { intros Hlt Hinit. rewrite Hr. unfold Knob.valueToRotation.
    assert (Knob.min o <= Knob.value k <= Knob.max o) as Hrange.
    { destruct Hv as [-> | (_ & ?)]; assumption. }
    set (t := (Knob.value k - Knob.min o) / (Knob.max o - Knob.min o)).
    assert (0 <= t <= 1) as Ht.
    { subst t. split.
      - apply Qle_shift_div_l; lra.
      - apply Qle_shift_div_r; lra. }
    clearbody t. lra. }
  intros initial w name s -> Hin.
  rewrite Forall_forall in Hn. destruct (Hn w Hin) as (_ & Hw).
  cbn in Hw. split; [exact Hw|].
  destruct (setParameter_stored name w s) as (stored & Hs & _ & _ & Hid).
  exists stored. split; [exact Hs|]. now apply Hid.
Qed.

Lemma knob_notifications_witness :
  Forall (fun w => Knob.onGrid (Knob.parameterOptions (3#10)) 100 w /\
                   0 <= w <= 1)
         (Knob.notified
            (Knob.run (Knob.OpMove 20)
               (Knob.run (Knob.OpStartDrag 300)
                         (Knob.new (Knob.parameterOptions (3#10)))))).
Proof.
  assert (Knob.gridFits (Knob.parameterOptions (3#10)) 100) as Hfit.
  { split; [reflexivity|]. split; [lia | reflexivity]. }
  destruct (knob_notifications (Knob.parameterOptions (3#10)) 100 _ Hfit
              (Knob.reachable_run _ (Knob.OpMove 20) _
                 (Knob.reachable_run _ (Knob.OpStartDrag 300) _
                    (Knob.reachable_new _))))
    as (_ & _ & H & _).
  exact H.
Defined.

End KnobInvariant.

(** ** The performance optimizer *)

Section OptimizerBounds.
Import JS Optimizer.
Local Open Scope Q_scope.

Lemma Math_max_floor (lo v : Q) :
  lo <= Math_max lo v /\ v <= Math_max lo v /\
  (Math_max lo v == lo \/ Math_max lo v == v).
Proof.
  unfold Math_max. destruct (Qltb lo v) eqn:H.
  - apply Qltb_lt in H. split; [lra|]. split; [lra|]. right. reflexivity.
  - apply Qltb_ge in H. split; [lra|]. split; [lra|]. left. reflexivity.
Qed.

Lemma optimizeForPerformance_fields (p : PerformanceOptimizer) :
  let p' := optimizeForPerformance p in
  visualQuality p' = Math_max (25#100) (visualQuality p * (8#10)) /\
  audioComplexity p' = Math_max (25#100) (audioComplexity p * (9#10)) /\
  dispatched p' = dispatched p ++ [(visualQuality p', audioComplexity p')] /\
  droppedFrames p' = droppedFrames p /\
  frameDropThreshold p' = frameDropThreshold p /\
  targetFPS p' = targetFPS p /\
  isLowEndDevice p' = isLowEndDevice p.
Proof. cbn. auto 10. Qed.

(** The frame monitor either leaves the qualities alone or optimizes once. *)
Lemma monitorFrame_cases (now : Q) (p : PerformanceOptimizer) :
  let p' := monitorFrame now p in
  lastFrameTime p' = now /\
  frameDropThreshold p' = frameDropThreshold p /\
  targetFPS p' = targetFPS p /\
  isLowEndDevice p' = isLowEndDevice p /\
  ((visualQuality p' = visualQuality p /\
    audioComplexity p' = audioComplexity p /\
    dispatched p' = dispatched p /\
    (droppedFrames p' = droppedFrames p \/
     (droppedFrames p' = droppedFrames p + 1 /\
      droppedFrames p + 1 < frameDropThreshold p)%Z \/
     droppedFrames p' = Z.max 0 (droppedFrames p - 1))) \/
   (visualQuality p' = visualQuality (optimizeForPerformance p) /\
    audioComplexity p' = audioComplexity (optimizeForPerformance p) /\
    dispatched p' = dispatched (optimizeForPerformance p) /\
    droppedFrames p' = 0%Z /\
    (frameDropThreshold p <= droppedFrames p + 1)%Z /\
    0 < lastFrameTime p /\
    1000 / targetFPS p * (15#10) < now - lastFrameTime p)).
Proof.
  cbn zeta. unfold monitorFrame.
  destruct (Qltb 0 (lastFrameTime p)) eqn:Hlast.
  2:{ cbn. repeat split; auto. left. auto. }
  apply Qltb_lt in Hlast.
  destruct (Qltb (1000 / targetFPS p * (15#10)) (now - lastFrameTime p))
    eqn:Hslow.
  2:{ cbn. repeat split; auto. left. auto 10. }
  apply Qltb_lt in Hslow.
  cbn [frameDropThreshold droppedFrames with_droppedFrames].
  destruct (Z.leb_spec (frameDropThreshold p) (droppedFrames p + 1)) as [Hle | Hgt].
  - cbn. repeat split; auto. right. repeat split; auto.
  - cbn. repeat split; auto. left. repeat split; auto.
Qed.

Lemma reachable_optimizer (p : PerformanceOptimizer) :
  reachable p ->
  (0 < visualQuality p <= 1 /\ 0 < audioComplexity p <= 1) /\
  Forall (fun d => (25#100) <= fst d <= 1 /\ (25#100) <= snd d <= 1)
         (dispatched p) /\
  (frameDropThreshold p = 5%Z /\ (0 <= droppedFrames p < 5)%Z) /\
  (targetFPS p = 60 \/ targetFPS p = 30).
Proof.
  induction 1 as [lowEnd chrome firefox safari
                 | op p Hreach ((Hv & Ha) & Hd & (Ht & Hf) & Hfps)].
  - cbn. destruct lowEnd; repeat split; try lra; try lia; auto.
  - assert ((0 < visualQuality (optimizeForPerformance p) <= 1 /\
             0 < audioComplexity (optimizeForPerformance p) <= 1) /\
            Forall (fun d => (25#100) <= fst d <= 1 /\ (25#100) <= snd d <= 1)
                   (dispatched (optimizeForPerformance p))) as (Hq' & Hd').
    { destruct (optimizeForPerformance_fields p) as (Ev & Ea & Ed & _).
      cbn zeta in Ev, Ea, Ed.
      destruct (Math_max_floor (25#100) (visualQuality p * (8#10)))
        as (V1 & V2 & [V3 | V3]);
        destruct (Math_max_floor (25#100) (audioComplexity p * (9#10)))
          as (A1 & A2 & [A3 | A3]);
        rewrite <- Ev in V1, V2, V3; rewrite <- Ea in A1, A2, A3;
        (split; [split; split; lra|]);
        rewrite Ed; apply Forall_app; (split; [exact Hd|]);
        apply Forall_singleton; cbn [fst snd]; split; lra. }
    destruct op as [now | | level t]; cbn [run].
    + destruct (monitorFrame_cases now p) as (_ & Et & Efps & _ & Hcase).
      cbn zeta in Et, Efps, Hcase. rewrite Et, Efps.
      destruct Hcase as [(Ev & Ea & Ed & Hdrop) | (Ev & Ea & Ed & Hdrop & _)];
        rewrite Ev, Ea, Ed.
      * repeat split; try tauto; try lra;
          destruct Hdrop as [-> | [(-> & ?) | ->]]; lia.
      * rewrite Hdrop. repeat split; try tauto; lia.
    + destruct (optimizeForPerformance_fields p)
        as (_ & _ & _ & Edrop & Et & Efps & _).
      cbn zeta in Edrop, Et, Efps. rewrite Edrop, Et, Efps.
      repeat split; try tauto; lia.
    + unfold handleBatteryChange.
      destruct (_ || _)%bool; cbn; repeat split; auto; try lra; try lia.
Qed.

Lemma ceil_complexity (a : Q) :
  (25#100) <= a <= 1 -> (2 <= Math_ceil (5 * a) <= 5)%Z.
Proof.
  intros Ha. unfold Math_ceil.
  pose proof (Qle_ceiling (5 * a)) as H1.
  pose proof (Qceiling_lt (5 * a)) as H2.
  assert (inject_Z 1 < inject_Z (Qceiling (5 * a))) as A
      by (change (inject_Z 1) with 1; lra).
  assert (inject_Z (Qceiling (5 * a) - 1) < inject_Z 5) as B
      by (change (inject_Z 5) with 5; lra).
  rewrite <- Zlt_Qlt in A, B. lia.
Qed.

(** X23 -- the qualities of the optimizer: both stay in (0,1]; the details
    of every [performance-optimize] event lie in [0.25,1]; so the listener
    of [main.js] always gives the synthesizer a voice limit between 2 and
    5 -- never 0 or 1 -- and gives the oil surface the visual quality as it
    is.  The synthesizer built from [getOptimalAudioSettings()] starts with
    a limit of 3 voices on a low-end device and of 5 otherwise. *)
Theorem optimizer_events (p : PerformanceOptimizer) (Hreach : reachable p) :
  (0 < visualQuality p <= 1 /\ 0 < audioComplexity p <= 1) /\
  (forall v a,
      (v, a) ∈ dispatched p ->
      ((25#100) <= v <= 1 /\ (25#100) <= a <= 1) /\
      (forall s, (2 <= Synth.maxVoices (Synth.setComplexity a s) <= 5)%Z) /\
      (forall c, Surface.quality (Surface.setQuality v c) == v)) /\
  ((25#100) <= visualQuality (optimizeForPerformance p) <= 1 /\
   (25#100) <= audioComplexity (optimizeForPerformance p) <= 1) /\
  Synth.maxVoices (Synth.new (getOptimalAudioSettings p))
  = (if isLowEndDevice p then 3 else 5)%Z.
Proof.
  destruct (reachable_optimizer p Hreach) as (Hq & Hd & _).
  split; [exact Hq|].
  split.
  { intros v a Hin. rewrite Forall_forall in Hd.
    destruct (Hd _ Hin) as (Hv & Ha). cbn in Hv, Ha.
    split; [auto|]. split.
    - intros s. destruct (setComplexity_frame a s) as (_ & -> & _).
      now apply ceil_complexity.
    - intros c. cbn.
      destruct (Math_clamp_range (1#10) 1 v ltac:(lra)) as (_ & Hid & _).
      apply Hid. lra. }
  split.
  { destruct (reachable_optimizer _ (reachable_run OpOptimizeForPerformance p Hreach))
      as (_ & Hd' & _).
    cbn [run] in Hd'.
    destruct (optimizeForPerformance_fields p) as (_ & _ & Ed & _).
    cbn zeta in Ed. rewrite Ed in Hd'.
    apply Forall_app in Hd' as (_ & Hlast).
    apply Forall_inv in Hlast. exact Hlast. }
  cbn. destruct (isLowEndDevice p); reflexivity.
Qed.

Lemma optimizer_events_witness :
  (2 <= Synth.maxVoices
          (Synth.setComplexity
             (audioComplexity
                (optimizeForPerformance (new false true false false)))
             (Synth.new (Synth.mkSettings None None)))
   <= 5)%Z.
Proof.
  assert (reachable (optimizeForPerformance (new false true false false)))
    as Hreach.
  { apply (reachable_run OpOptimizeForPerformance). apply reachable_new. }
  destruct (optimizer_events _ Hreach) as (_ & H & _).
  destruct (H (visualQuality (optimizeForPerformance (new false true false false)))
              (audioComplexity (optimizeForPerformance (new false true false false))))
    as (_ & Hvoices & _).
  { cbn. repeat constructor. }
  apply Hvoices.
Defined.

(** X24 -- the frame monitor: the count of dropped frames stays between 0
    and 4; a frame is counted as dropped only when it comes more than one
    and a half frame times after the frame before, and the first frame is
    never counted; [monitorFrame] optimizes -- once -- exactly when such a
    frame brings the count to 5, and then starts counting again from 0; a
    frame in time lowers the count by one, not below 0. *)
Theorem monitorFrame_counts (p : PerformanceOptimizer) (now : Q)
        (Hreach : reachable p) :
  let p' := monitorFrame now p in
  let slow :=
    0 < lastFrameTime p /\
    1000 / targetFPS p * (15#10) < now - lastFrameTime p in
  (0 <= droppedFrames p <= 4)%Z /\
  (0 <= droppedFrames p' <= 4)%Z /\
  lastFrameTime p' = now /\
  (slow -> droppedFrames p = 4%Z ->
   droppedFrames p' = 0%Z /\
   dispatched p'
   = dispatched p ++ [(visualQuality p', audioComplexity p')] /\
   visualQuality p' = Math_max (25#100) (visualQuality p * (8#10)) /\
   audioComplexity p' = Math_max (25#100) (audioComplexity p * (9#10))) /\
  (slow -> (droppedFrames p < 4)%Z ->
   droppedFrames p' = (droppedFrames p + 1)%Z /\ dispatched p' = dispatched p) /\
  (~ slow ->
   dispatched p' = dispatched p /\
   (0 < lastFrameTime p ->
    droppedFrames p' = Z.max 0 (droppedFrames p - 1)) /\
   (lastFrameTime p <= 0 -> droppedFrames p' = droppedFrames p)).
Proof.
  intros p' slow.
  destruct (reachable_optimizer p Hreach) as (_ & _ & (Ht & Hf) & _).
  destruct (reachable_optimizer p' (reachable_run (OpMonitorFrame now) p Hreach))
    as (_ & _ & (_ & Hf') & _).
  split; [lia|]. split; [lia|].
  split; [apply monitorFrame_cases|].
  subst p' slow. unfold monitorFrame.
  destruct (Qltb 0 (lastFrameTime p)) eqn:Hlast.
  2:{ apply Qltb_ge in Hlast. cbn.
      repeat split; intros; try tauto; try lra; try reflexivity;
        destruct H; lra. }
  apply Qltb_lt in Hlast.
  destruct (Qltb (1000 / targetFPS p * (15#10)) (now - lastFrameTime p))
    eqn:Hslow.
  2:{ apply Qltb_ge in Hslow. cbn.
      repeat split; intros; try tauto; try lra; try reflexivity;
        destruct H; lra. }
  apply Qltb_lt in Hslow.
  cbn [frameDropThreshold droppedFrames with_droppedFrames]. rewrite Ht.
  destruct (Z.leb_spec 5 (droppedFrames p + 1)) as [Hle | Hgt]; cbn.
  - repeat split; intros; try reflexivity; try lia; tauto.
  - repeat split; intros; try reflexivity; try lia; tauto.
Qed.

Lemma monitorFrame_counts_witness :
  droppedFrames (monitorFrame 100 (monitorFrame 10 (new false true false false)))
  = 1%Z.
Proof.
  assert (reachable (monitorFrame 10 (new false true false false))) as Hreach.
  { apply (reachable_run (OpMonitorFrame 10)). apply reachable_new. }
  destruct (monitorFrame_counts _ 100 Hreach) as (_ & _ & _ & _ & H & _).
  destruct H as (H & _);
    [split; vm_compute; reflexivity | vm_compute; reflexivity |].
  exact H.
Defined.

End OptimizerBounds.

(** ** The touch state of the oil surface *)

Section SurfaceTouches.
Import JS Surface.
Local Open Scope Q_scope.







End SurfaceTouches.

(** ** The touch path: no voice outlives its touch *)

Section TouchPath.
Import JS App.
Local Open Scope Q_scope.












End TouchPath.

(** ** The settings the application gives its synthesizer *)

Section EngineSettings.
Import JS.
Local Open Scope Q_scope.

Lemma reachable_latency (p : Optimizer.PerformanceOptimizer) :
  Optimizer.reachable p ->
  Optimizer.audioLatency p ∈ [32; 64; 128; 256] /\
  (Optimizer.isLowEndDevice p = false -> Optimizer.audioLatency p <= 128) /\
  (Optimizer.isLowEndDevice p = true -> 64 <= Optimizer.audioLatency p).
Proof.
  induction 1 as [lowEnd chrome firefox safari | op p Hreach IH].
  - cbn. unfold Optimizer.measureAudioLatency.
    destruct lowEnd, chrome, firefox, safari; cbn;
      (split; [repeat constructor | split; intros; (discriminate || lra)]).
  - destruct op as [now | | level t]; cbn [Optimizer.run].
    + unfold Optimizer.monitorFrame.
      repeat case_match; cbn; exact IH.
    + exact IH.
    + unfold Optimizer.handleBatteryChange.
      destruct (_ || _)%bool; cbn; exact IH.
Qed.

(** X28 -- the synthesizer of the application: built from the optimizer's
    settings and initialized, it has a voice limit of 3 on a low-end device
    and 5 otherwise, and its delay starts at the optimizer's audio
    "latency" read as milliseconds: 32, 64, 128 or 256 ms (at most 128 ms
    on a high-end device, at least 64 ms on a low-end one), never at the
    200 ms the synthesizer uses without settings.  A device that reports
    neither its memory nor its core count is taken as low-end exactly when
    two of the three remaining indicators hold. *)
Theorem app_engine_settings (p : Optimizer.PerformanceOptimizer)
        (Hreach : Optimizer.reachable p) :
  let s := App.synthesizer (App.new p true) in
  Synth.isInitialized s = true /\
  Synth.maxVoices s = (if Optimizer.isLowEndDevice p then 3 else 5)%Z /\
  Synth.delay (Synth.nodes s) = Some (Optimizer.audioLatency p / 1000) /\
  Optimizer.audioLatency p ∈ [32; 64; 128; 256] /\
  (32#1000) <= Optimizer.audioLatency p / 1000 <= (256#1000) /\
  ~ Optimizer.audioLatency p / 1000 == 2#10 /\
  (Optimizer.isLowEndDevice p = false ->
   Optimizer.audioLatency p / 1000 <= 128#1000) /\
  (Optimizer.isLowEndDevice p = true ->
   (64#1000) <= Optimizer.audioLatency p / 1000) /\
  (forall slowConnection mobile canvasTest,
      Optimizer.detectLowEndDevice None None slowConnection mobile canvasTest
      = (slowConnection && mobile || slowConnection && canvasTest
         || mobile && canvasTest)%bool).
Proof.
  intros s.
  destruct (reachable_latency p Hreach) as (Hin & Hhigh & Hlow).
  assert (Optimizer.audioLatency p = 32 \/ Optimizer.audioLatency p = 64 \/
          Optimizer.audioLatency p = 128 \/ Optimizer.audioLatency p = 256)
    as Hcases.
  { rewrite !elem_of_cons, elem_of_nil in Hin. tauto. }
  split; [reflexivity|].
  split; [subst s; cbn; destruct (Optimizer.isLowEndDevice p); reflexivity|].
  split.
  { subst s. cbn.
    destruct Hcases as [-> | [-> | [-> | ->]]]; reflexivity. }
  split; [exact Hin|].
  split; [destruct Hcases as [-> | [-> | [-> | ->]]]; split; discriminate|].
  split; [destruct Hcases as [-> | [-> | [-> | ->]]]; discriminate|].
  split.
  { intros Hoff. specialize (Hhigh Hoff).
    destruct Hcases as [E | [E | [E | E]]]; rewrite E in *;
      first [discriminate | exfalso; lra]. }
  split.
  { intros Hon. specialize (Hlow Hon).
    destruct Hcases as [E | [E | [E | E]]]; rewrite E in *;
      first [discriminate | exfalso; lra]. }
  intros slowConnection mobile canvasTest.
  destruct slowConnection, mobile, canvasTest; reflexivity.
Qed.

Lemma app_engine_settings_witness :
  Synth.delay
    (Synth.nodes
       (App.synthesizer (App.new (Optimizer.new false true false false) true)))
  = Some (32 / 1000).
Proof.
  destruct (app_engine_settings (Optimizer.new false true false false)
              (Optimizer.reachable_new _ _ _ _))
    as (_ & _ & H & _).
  exact H.
Defined.

End EngineSettings.
